(** * Scene synthesis and compositing engine: a shallow embedding

    This development embeds the background generator
    ([apps/api/python/background.py]), the shadow generator ([shadows.py]),
    the reflection generator ([reflection.py]) and the compositor
    ([composite.py]) and proves the properties their specification states.

    Modelling conventions.
    - Python [int] is [Z]; [//] is [Z.div] (both round towards minus
      infinity for a positive divisor).
    - [float] and [np.float32] values are exact rationals ([Q]): every
      property below is about structure, ordering or truncation, and the
      concrete evaluations use inputs on which binary floating point
      arithmetic gives the same cells.
    - A [np.ndarray] of shape [(h, w)] is a list of [h] rows of [w] cells
      ([grid]); a colour image of shape [(h, w, 3)] is a grid of channel
      triples.  [uint8] cells are integers produced by [to_uint8].
    - A Python exception is the [Raise] case of [result]; in-place updates
      of an array are explicit state passing.
    - [dict] is [gmap string _]; Python's [None] is [option].
    - The image library (OpenCV) is not part of the repository: its blur and
      resampling kernels are the operations of the class [ImageLib], with
      the contracts of [ImageLibLaws]; flips, integer translations and
      channel swaps are exact and are written out. *)

From stdpp Require Import gmap strings list.
From Stdlib Require Import ZArith QArith Qabs Qround Qminmax Lqa Lia.

Local Open Scope Z_scope.

(** ** Exceptions and the result type *)

Inductive exn : Type :=
  | ValueError
  | IndexError
  | ZeroDivisionError
  | KeyError
  | CvError.

Inductive result (A : Type) : Type :=
  | Ok (a : A)
  | Raise (e : exn).
Arguments Ok {A} a.
Arguments Raise {A} e.

#[global] Instance result_ret : MRet result := fun A a => Ok a.
#[global] Instance result_bind : MBind result := fun A B k m =>
  match m with
  | Ok a => k a
  | Raise e => Raise e
  end.

(** A [for] loop whose body may raise, threading the loop state. *)
Fixpoint for_each {A S} (xs : list A) (body : S -> A -> result S) (s : S)
  : result S :=
  match xs with
  | [] => Ok s
  | x :: xs' => s' ← body s x; for_each xs' body s'
  end.

(** [range(a, b)] *)
Definition py_range (a b : Z) : list Z := seqZ a (b - a).

(** ** Numbers *)

Definition Qltb (x y : Q) : bool := negb (Qle_bool y x).

(** [int(x)] for a float [x]: truncation towards zero. *)
Definition py_int (x : Q) : Z :=
  if Qle_bool 0 x then Qfloor x else Qceiling x.

(** [a / b] on two Python ints: true division, [ZeroDivisionError] on 0. *)
Definition py_truediv (a b : Z) : result Q :=
  if b =? 0 then Raise ZeroDivisionError else Ok (inject_Z a / inject_Z b)%Q.

(** [min(a, b)] on floats: Python returns [b] only when [b < a]. *)
Definition py_min (a b : Q) : Q := if Qltb b a then b else a.

(** [np.clip(x, lo, hi)] on one cell. *)
Definition np_clip (lo hi x : Q) : Q :=
  if Qltb x lo then lo else if Qltb hi x then hi else x.

(** [x.astype(np.uint8)] on one float cell: truncate, then keep the low
    eight bits. *)
Definition to_uint8 (x : Q) : Z := py_int x mod 256.

Definition is_u8 (v : Z) : Prop := 0 <= v <= 255.

(** ** Arrays *)

Abbreviation grid A := (list (list A)).

Abbreviation pixel := (Z * Z * Z)%type.
Abbreviation fpixel := (Q * Q * Q)%type.

Definition nrows {A} (g : grid A) : Z := Z.of_nat (length g).
Definition ncols {A} (g : grid A) : Z :=
  match g with
  | [] => 0
  | r :: _ => Z.of_nat (length r)
  end.

(** [g] has shape [(h, w)]. *)
Definition rect {A} (h w : Z) (g : grid A) : Prop :=
  nrows g = h /\ Forall (fun r => Z.of_nat (length r) = w) g.

Definition cell {A} (g : grid A) (r c : nat) : option A :=
  g !! r ≫= fun row => row !! c.

Definition gmap2 {A B} (f : A -> B) (g : grid A) : grid B :=
  map (map f) g.

Definition np_zeros {A} (zero : A) (h w : Z) : result (grid A) :=
  if (h <? 0) || (w <? 0) then Raise ValueError
  else Ok (replicate (Z.to_nat h) (replicate (Z.to_nat w) zero)).

Definition all_cells {A} (P : A -> Prop) (g : grid A) : Prop :=
  Forall (Forall P) g.

Definition pixel_u8 (p : pixel) : Prop :=
  let '(a, b, c) := p in is_u8 a /\ is_u8 b /\ is_u8 c.

(** ** Layout: [Compositor.auto_position_car] and
       [Compositor.scale_car_to_fit] *)

Definition auto_position_car (background_size car_size : Z * Z)
    (horizon_ratio : Q) : Z * Z :=
  let '(bg_w, bg_h) := background_size in
  let '(car_w, car_h) := car_size in
  let x := (bg_w - car_w) / 2 in
  let horizon_y := py_int (inject_Z bg_h * horizon_ratio) in
  let y := horizon_y - car_h + py_int (inject_Z car_h * (5 # 100)) in
  (x, y).

(** The position [composite_final] computes when [car_position is None]. *)
Definition default_car_position (out_w out_h car_w car_h : Z) : Z * Z :=
  let horizon_y := py_int (inject_Z out_h * (65 # 100)) in
  let x := (out_w - car_w) / 2 in
  let y := horizon_y - car_h + py_int (inject_Z car_h * (1 # 10)) in
  (x, y).

(** ** The image library

    [cv2.resize] and [cv2.GaussianBlur] are operations of OpenCV; the
    repository only calls them.  [resize1 i src w h] is
    [cv2.resize(src, (w, h), interpolation=i)] on a single-channel array,
    [GaussianBlur1 src k] is [cv2.GaussianBlur(src, (k, k), 0)]; the [3]
    variants act on colour images.  [float_pow x y] is the floating-point
    power [x ** y], which has no exact rational value. *)

Inductive interpolation : Type := INTER_LINEAR | INTER_AREA.

Class ImageLib : Type := {
  float_pow : Q -> Q -> Q;
  resize1 : interpolation -> grid Z -> Z -> Z -> grid Z;
  resize3 : interpolation -> grid pixel -> Z -> Z -> grid pixel;
  GaussianBlur1 : grid Z -> Z -> grid Z;
  GaussianBlur3 : grid pixel -> Z -> grid pixel
}.

(** What the library documents about them: the output shapes, and that a
    blur of an all-zero array is all-zero. *)
Class ImageLibLaws (L : ImageLib) : Prop := {
  resize1_shape : forall i g w h, 0 < w -> 0 < h -> rect h w (resize1 i g w h);
  resize3_shape : forall i g w h, 0 < w -> 0 < h -> rect h w (resize3 i g w h);
  GaussianBlur1_shape : forall g k h w, rect h w g -> rect h w (GaussianBlur1 g k);
  GaussianBlur3_shape : forall g k h w, rect h w g -> rect h w (GaussianBlur3 g k);
  GaussianBlur1_zero : forall g k,
    all_cells (fun v => v = 0) g -> all_cells (fun v => v = 0) (GaussianBlur1 g k)
}.

(** [cv2.resize] rejects an empty source and a non-positive target size. *)
Definition cv_resize {A} (rs : grid A -> Z -> Z -> grid A)
    (src : grid A) (w h : Z) : result (grid A) :=
  if (nrows src <=? 0) || (ncols src <=? 0) || (w <=? 0) || (h <=? 0)
  then Raise CvError
  else Ok (rs src w h).

Section Layout.
Context `{L : ImageLib}.

Definition scale_car_to_fit (car_image : grid pixel) (car_mask : grid Z)
    (target_width target_height : Z)
    (max_width_ratio max_height_ratio : Q)
  : result (grid pixel * grid Z) :=
  let car_h := nrows car_image in
  let car_w := ncols car_image in
  let max_w := py_int (inject_Z target_width * max_width_ratio) in
  let max_h := py_int (inject_Z target_height * max_height_ratio) in
  sw ← py_truediv max_w car_w;
  sh ← py_truediv max_h car_h;
  let scale := py_min sw sh in
  if Qltb scale 1 then
    let new_w := py_int (inject_Z car_w * scale) in
    let new_h := py_int (inject_Z car_h * scale) in
    img ← cv_resize (resize3 INTER_AREA) car_image new_w new_h;
    msk ← cv_resize (resize1 INTER_AREA) car_mask new_w new_h;
    Ok (img, msk)
  else Ok (car_image, car_mask).
End Layout.


(** ** Python indexing and slicing *)

(** [l[i]] for a Python int [i]: a negative index counts from the end, an
    index outside [-len, len) raises [IndexError]. *)
Definition py_index {A} (l : list A) (i : Z) : result nat :=
  let n := Z.of_nat (length l) in
  if (0 <=? i) && (i <? n) then Ok (Z.to_nat i)
  else if (- n <=? i) && (i <? 0) then Ok (Z.to_nat (i + n))
  else Raise IndexError.

(** A slice bound, as Python normalises it: a negative bound counts from the
    end; bounds are then clamped into [0, len]. *)
Definition py_slice_bound (n i : Z) : Z :=
  if i <? 0 then Z.max (i + n) 0 else Z.min i n.

(** [l[i:j]] *)
Definition py_slice {A} (i j : Z) (l : list A) : list A :=
  let n := Z.of_nat (length l) in
  let i' := py_slice_bound n i in
  let j' := py_slice_bound n j in
  take (Z.to_nat (j' - i')) (drop (Z.to_nat i') l).

(** [g[r1:r2, c1:c2]] *)
Definition slice2 {A} (r1 r2 c1 c2 : Z) (g : grid A) : grid A :=
  map (py_slice c1 c2) (py_slice r1 r2 g).

(** [arr.size == 0] *)
Definition is_empty {A} (g : grid A) : bool :=
  (nrows g =? 0) || (ncols g =? 0).

Definition same_shape {A B} (g1 : grid A) (g2 : grid B) : bool :=
  bool_decide (length <$> g1 = length <$> g2).

(** An elementwise operation on two arrays.  For operands of different
    shapes numpy either stretches a dimension of size 1 or raises
    [ValueError]; only the equal-shape case is given a value here, every
    other case is [Raise ValueError]. *)
Definition zip2 {A B C} (f : A -> B -> C) (g1 : grid A) (g2 : grid B)
  : result (grid C) :=
  if same_shape g1 g2 then Ok (zip_with (zip_with f) g1 g2)
  else Raise ValueError.

(** [row[c1:c2] = new], for [new] of the length of the slice. *)
Definition splice {A} (c1 c2 : Z) (new : list A) (row : list A) : list A :=
  let n := Z.of_nat (length row) in
  let a := py_slice_bound n c1 in
  let b := py_slice_bound n c2 in
  take (Z.to_nat a) row ++ new ++ drop (Z.to_nat (Z.max a b)) row.

(** [g[r1:r2, c1:c2] = v]: the value must have the shape of the target
    region (same convention as [zip2]). *)
Definition set_slice2 {A} (r1 r2 c1 c2 : Z) (v : grid A) (g : grid A)
  : result (grid A) :=
  if same_shape (slice2 r1 r2 c1 c2 g) v then
    let n := Z.of_nat (length g) in
    let a := py_slice_bound n r1 in
    let b := py_slice_bound n r2 in
    Ok (take (Z.to_nat a) g
        ++ zip_with (splice c1 c2) v (py_slice r1 r2 g)
        ++ drop (Z.to_nat (Z.max a b)) g)
  else Raise ValueError.

(** [g[y, :] = v]: every cell of row [y] becomes [v]. *)
Definition set_row {A} (g : grid A) (y : Z) (v : A) : result (grid A) :=
  i ← py_index g y;
  Ok (alter (fun row => replicate (length row) v) i g).

(** ** Pixels *)

Definition pmap3 {A B} (f : A -> B) (p : A * A * A) : B * B * B :=
  let '(a, b, c) := p in (f a, f b, f c).

Definition pzip3 {A B C} (f : A -> B -> C) (p : A * A * A) (q : B * B * B)
  : C * C * C :=
  let '(a, b, c) := p in
  let '(a', b', c') := q in
  (f a a', f b b', f c c').

Definition get_chan {A} (c : Z) (p : A * A * A) : A :=
  let '(p0, p1, p2) := p in
  if c =? 0 then p0 else if c =? 1 then p1 else p2.

Definition set_chan {A} (c : Z) (v : A) (p : A * A * A) : A * A * A :=
  let '(p0, p1, p2) := p in
  if c =? 0 then (v, p1, p2) else if c =? 1 then (p0, v, p2) else (p0, p1, v).

(** [img.astype(np.float32)] *)
Definition to_float (g : grid pixel) : grid fpixel := gmap2 (pmap3 inject_Z) g.

(** [np.clip(img, 0, 255).astype(np.uint8)] *)
Definition clip_to_uint8 (g : grid fpixel) : grid pixel :=
  gmap2 (pmap3 (fun v => to_uint8 (np_clip 0 255 v))) g.

(** [cv2.cvtColor(img, cv2.COLOR_BGR2RGB)]: the first and third channel
    change places. *)
Definition cvtColor_BGR2RGB (p : pixel) : pixel :=
  let '(b, g, r) := p in (r, g, b).

(** [cv2.flip(img, 0)]: the rows in reverse order. *)
Definition cv_flip0 {A} (g : grid A) : grid A := reverse g.

(** [cv2.warpAffine(img, [[1, 0, 0], [0, 1, gap]], (w, h))] for an integer
    [gap > 0]: the image moves down by [gap] rows, the rows that enter at
    the top are filled with [zero]. *)
Definition warp_shift_down {A} (zero : A) (gap : Z) (g : grid A) : grid A :=
  take (length g)
       (replicate (Z.to_nat gap) (replicate (Z.to_nat (ncols g)) zero) ++ g).

(** ** Compositor ([composite.py]) *)

(** One cell of [base_region * (1 - mask_region) + layer_region * mask_region],
    with [mask_region = mask / 255.0]. *)
Definition alpha_blend (b : fpixel) (l : pixel) (m : Z) : fpixel :=
  let a := (inject_Z m / 255)%Q in
  pzip3 (fun bv lv => bv * (1 - a) + inject_Z lv * a)%Q b l.

(** [Compositor._blend_layer]; the base is modified in place, so the new
    base is returned. *)
Definition _blend_layer (base : grid fpixel) (layer : grid pixel)
    (mask : grid Z) (x y : Z) : result (grid fpixel) :=
  let bh := nrows base in
  let bw := ncols base in
  let lh := nrows layer in
  let lw := ncols layer in
  let x1 := Z.max 0 x in
  let y1 := Z.max 0 y in
  let x2 := Z.min bw (x + lw) in
  let y2 := Z.min bh (y + lh) in
  let lx1 := Z.max 0 (- x) in
  let ly1 := Z.max 0 (- y) in
  let lx2 := lx1 + (x2 - x1) in
  let ly2 := ly1 + (y2 - y1) in
  if (x2 <=? x1) || (y2 <=? y1) then Ok base
  else
    let base_region := slice2 y1 y2 x1 x2 base in
    let layer_region := slice2 ly1 ly2 lx1 lx2 layer in
    let mask_region := slice2 ly1 ly2 lx1 lx2 mask in
    let layer_region := gmap2 cvtColor_BGR2RGB layer_region in
    lm ← zip2 pair layer_region mask_region;
    v ← zip2 (fun b '(l, m) => alpha_blend b l m) base_region lm;
    set_slice2 y1 y2 x1 x2 v base.

(** [base[:, :, c] = base[:, :, c] * (1 - shadow_norm)] for one channel. *)
Definition darken_channel (c : Z) (base : grid fpixel) (shadow_norm : grid Q)
  : result (grid fpixel) :=
  zip2 (fun p s => set_chan c (get_chan c p * (1 - s))%Q p) base shadow_norm.

Section Compositor.
Context `{L : ImageLib}.

(** [Compositor._blend_shadow] *)
Definition _blend_shadow (base : grid fpixel) (shadow : grid Z) (x y : Z)
  : result (grid fpixel) :=
  let bh := nrows base in
  let bw := ncols base in
  let sh := nrows shadow in
  let sw := ncols shadow in
  shadow ← (if negb (sh =? bh) || negb (sw =? bw)
            then cv_resize (resize1 INTER_LINEAR) shadow bw bh
            else Ok shadow);
  let shadow_norm := gmap2 (fun v => inject_Z v / 255)%Q shadow in
  for_each (py_range 0 3)
           (fun base c => darken_channel c base shadow_norm) base.

(** [Compositor.composite_final].  A [dict] value may be [None], hence
    the [option] inside the map.  The array [shadow_rgb] that the shadow
    loop allocates is never read and is left out. *)
Definition composite_final (background car_image : grid pixel)
    (car_mask : grid Z) (shadows : gmap string (option (grid Z)))
    (reflection : option (grid pixel)) (reflection_mask : option (grid Z))
    (car_position : option (Z * Z)) (output_size : option (Z * Z))
  : result (grid pixel) :=
  '(out_w, out_h, background) ←
    match output_size with
    | Some (out_w, out_h) =>
        bg ← cv_resize (resize3 INTER_LINEAR) background out_w out_h;
        Ok (out_w, out_h, bg)
    | None => Ok (ncols background, nrows background, background)
    end;
  let result := to_float background in
  let car_h := nrows car_image in
  let car_w := ncols car_image in
  let '(x, y) :=
    match car_position with
    | None => default_car_position out_w out_h car_w car_h
    | Some p => p
    end in
  result ←
    match reflection, reflection_mask with
    | Some reflection, Some reflection_mask =>
        let ref_y := y + car_h in
        _blend_layer result reflection reflection_mask x ref_y
    | _, _ => Ok result
    end;
  result ←
    for_each ["drop"; "ambient"; "contact"]
      (fun result shadow_type =>
         match shadows !! shadow_type with
         | None => Ok result
         | Some None => Ok result
         | Some (Some shadow) =>
             if is_empty shadow then Ok result
             else _blend_shadow result shadow 0 0
         end)
      result;
  result ← _blend_layer result car_image car_mask x y;
  Ok (clip_to_uint8 result).
End Compositor.

(** ** [ShadowGenerator.composite_shadows] ([shadows.py]) *)

(** [result[:, :, c] = result[:, :, c] - (shadow * 100)] for one channel. *)
Definition subtract_channel (c : Z) (base : grid fpixel) (shadow : grid Q)
  : result (grid fpixel) :=
  zip2 (fun p s => set_chan c (get_chan c p - s * 100)%Q p) base shadow.

Definition composite_shadows (background : grid pixel)
    (shadows : gmap string (grid Z)) (blend_mode : string)
  : result (grid pixel) :=
  let result := to_float background in
  result ←
    for_each ["drop"; "ambient"; "contact"]
      (fun result shadow_type =>
         match shadows !! shadow_type with
         | None => Ok result
         | Some shadow =>
             let shadow := gmap2 (fun v => inject_Z v / 255)%Q shadow in
             if String.eqb blend_mode "multiply" then
               for_each (py_range 0 3)
                        (fun result c => darken_channel c result shadow) result
             else
               for_each (py_range 0 3)
                        (fun result c => subtract_channel c result shadow) result
         end)
      result;
  Ok (clip_to_uint8 result).

(** ** [ReflectionGenerator.add_reflection_to_composite] ([reflection.py]) *)

(** One cell of [bg_region * (1 - mask_region) + ref_region * mask_region]:
    the same formula as [alpha_blend]. *)
Definition add_reflection_to_composite (background reflection : grid pixel)
    (reflection_mask : grid Z) (x y : Z) : result (grid pixel) :=
  let result := to_float background in
  let bg_h := nrows background in
  let bg_w := ncols background in
  let ref_h := nrows reflection in
  let ref_w := ncols reflection in
  let y1 := Z.max 0 y in
  let y2 := Z.min bg_h (y + ref_h) in
  let x1 := Z.max 0 x in
  let x2 := Z.min bg_w (x + ref_w) in
  let ry1 := Z.max 0 (- y) in
  let ry2 := Z.min ref_h (bg_h - y) in
  let rx1 := Z.max 0 (- x) in
  let rx2 := Z.min ref_w (bg_w - x) in
  if (y2 <=? y1) || (x2 <=? x1) then Ok background
  else
    let bg_region := slice2 y1 y2 x1 x2 result in
    let ref_region := slice2 ry1 ry2 rx1 rx2 reflection in
    let mask_region := slice2 ry1 ry2 rx1 rx2 reflection_mask in
    rm ← zip2 pair ref_region mask_region;
    v ← zip2 (fun b '(l, m) => alpha_blend b l m) bg_region rm;
    result ← set_slice2 y1 y2 x1 x2 v result;
    Ok (clip_to_uint8 result).

(** ** Background generator ([background.py]) *)

Record bg_config : Type := {
  top_color : pixel;
  horizon_color : pixel;
  floor_color : pixel;
  horizon_position : Q;
  floor_gradient : option Q
}.

Definition mk_preset (top horizon floor : pixel) (pos grad : Q) : bg_config :=
  {| top_color := top; horizon_color := horizon; floor_color := floor;
     horizon_position := pos; floor_gradient := Some grad |}.

(** [BackgroundGenerator.PRESETS] *)
Definition PRESETS : gmap string bg_config :=
  list_to_map [
    ("studio_white",
      mk_preset (250, 250, 250) (240, 240, 240) (215, 215, 215) (65 # 100) (3 # 10));
    ("studio_grey",
      mk_preset (235, 235, 235) (210, 210, 210) (175, 175, 175) (65 # 100) (35 # 100));
    ("studio_dark",
      mk_preset (90, 90, 90) (60, 60, 60) (35, 35, 35) (65 # 100) (4 # 10));
    ("showroom",
      mk_preset (248, 248, 250) (230, 230, 235) (195, 195, 200) (60 # 100) (35 # 100));
    ("outdoor_neutral",
      mk_preset (200, 210, 220) (180, 185, 190) (160, 165, 170) (55 # 100) (25 # 100));
    ("dealership",
      mk_preset (245, 245, 247) (225, 225, 230) (185, 185, 195) (62 # 100) (4 # 10))
  ].

(** [d[k]]: [KeyError] when [k] is missing. *)
Definition dict_index {V} (d : gmap string V) (k : string) : result V :=
  match d !! k with
  | Some v => Ok v
  | None => Raise KeyError
  end.

(** [d.get(k, dflt)] *)
Definition dict_get {V} (d : gmap string V) (k : string) (dflt : V) : V :=
  default dflt (d !! k).

(** [BackgroundGenerator._ease_in_out] *)
Definition _ease_in_out (t : Q) : Q := (t * t * (3 - 2 * t))%Q.

(** [a + (b - a) * t] on colour triples, then [.astype(np.uint8)]. *)
Definition lerp_color (a b : pixel) (t : Q) : pixel :=
  pzip3 (fun av bv => to_uint8 (inject_Z av + (inject_Z bv - inject_Z av) * t)%Q) a b.

(** The configuration in force: [custom_config] when given, otherwise
    [PRESETS.get(preset, PRESETS['studio_white'])]. *)
Definition select_bg_config (preset : string) (custom_config : option bg_config)
  : result bg_config :=
  match custom_config with
  | Some c => Ok c
  | None =>
      dflt ← dict_index PRESETS "studio_white";
      Ok (dict_get PRESETS preset dflt)
  end.

(** [BackgroundGenerator.create_studio_background] *)
Definition create_studio_background (width height : Z) (preset : string)
    (custom_config : option bg_config) : result (grid pixel) :=
  config ← select_bg_config preset custom_config;
  let horizon_pos := horizon_position config in
  let floor_grad := default (3 # 10) (floor_gradient config) in
  let horizon_y := py_int (inject_Z height * horizon_pos) in
  background ← np_zeros (0, 0, 0) height width;
  background ←
    for_each (py_range 0 horizon_y)
      (fun background y =>
         t ← py_truediv y horizon_y;
         let t := _ease_in_out t in
         set_row background y
                 (lerp_color (top_color config) (horizon_color config) t))
      background;
  background ←
    for_each (py_range horizon_y height)
      (fun background y =>
         t ← py_truediv (y - horizon_y) (height - horizon_y);
         let t := _ease_in_out (t * floor_grad + (1 - floor_grad))%Q in
         set_row background y
                 (lerp_color (horizon_color config) (floor_color config) t))
      background;
  Ok background.

(** ** Shadow generator ([shadows.py]) *)

Record shadow_config : Type := {
  blur_radius : Z;
  opacity : Q;
  offset_y : Z;
  scale_y : Q;
  scale_x : Q;
  gradient : option bool
}.

Definition mk_shadow (blur : Z) (op : Q) (off : Z) (sy sx : Q) (grad : bool)
  : shadow_config :=
  {| blur_radius := blur; opacity := op; offset_y := off;
     scale_y := sy; scale_x := sx; gradient := Some grad |}.

(** [ShadowGenerator.SHADOW_CONFIG] (the [color] entry is never read). *)
Definition SHADOW_CONFIG : gmap string shadow_config :=
  list_to_map [
    ("contact", mk_shadow 5 (45 # 100) 0 (15 # 1000) (95 # 100) false);
    ("ambient", mk_shadow 35 (25 # 100) 5 (12 # 100) (11 # 10) true);
    ("drop", mk_shadow 80 (15 # 100) 15 (20 # 100) (13 # 10) true)
  ].

(** [np.column_stack(np.where(mask > 0))]: the (row, column) pairs of the
    cells above zero, in row-major order. *)
Definition np_where_pos (mask : grid Z) : list (Z * Z) :=
  concat (imap (fun r row =>
                  omap id (imap (fun c v =>
                                   if 0 <? v then Some (Z.of_nat r, Z.of_nat c)
                                   else None) row))
               mask).

(** [coords.min(axis=0)] and [coords.max(axis=0)] of a non-empty list. *)
Definition coords_min (coords : list (Z * Z)) : Z * Z :=
  match coords with
  | [] => (0, 0)
  | c :: cs => foldl (fun '(a, b) '(r, k) => (Z.min a r, Z.min b k)) c cs
  end.

Definition coords_max (coords : list (Z * Z)) : Z * Z :=
  match coords with
  | [] => (0, 0)
  | c :: cs => foldl (fun '(a, b) '(r, k) => (Z.max a r, Z.max b k)) c cs
  end.

(** The configuration in force: [custom_config] when given, otherwise
    [SHADOW_CONFIG.get(shadow_type, SHADOW_CONFIG['ambient'])]. *)
Definition select_shadow_config (shadow_type : string)
    (custom_config : option shadow_config) : result shadow_config :=
  match custom_config with
  | Some c => Ok c
  | None =>
      dflt ← dict_index SHADOW_CONFIG "ambient";
      Ok (dict_get SHADOW_CONFIG shadow_type dflt)
  end.

Section Shadows.
Context `{L : ImageLib}.

(** [ShadowGenerator._apply_shadow_gradient]: cell [(y, x)] is multiplied
    by [x_grad[y, x] * y_grad[y, x]]. *)
Definition _apply_shadow_gradient (shadow : grid Z) : grid Z :=
  let h := nrows shadow in
  let w := ncols shadow in
  let center_x := (inject_Z w / 2)%Q in
  let x_grad (x : nat) : Q :=
    let dist := (Qabs (inject_Z (Z.of_nat x) - center_x) / center_x)%Q in
    (1 - float_pow dist (3 # 2) * (1 # 2))%Q in
  let y_grad (y : nat) : Q :=
    (1 - inject_Z (Z.of_nat y) / inject_Z h * (7 # 10))%Q in
  imap (fun y row =>
          imap (fun x v => to_uint8 (inject_Z v * (x_grad x * y_grad y))%Q) row)
       shadow.

(** [ShadowGenerator.create_shadow_layer] *)
Definition create_shadow_layer (mask : grid Z) (shadow_type : string)
    (custom_config : option shadow_config) : result (grid Z) :=
  config ← select_shadow_config shadow_type custom_config;
  let h := nrows mask in
  let w := ncols mask in
  let coords := np_where_pos mask in
  if (length coords =? 0)%nat then np_zeros 0 h w
  else
    let '(y_min, x_min) := coords_min coords in
    let '(y_max, x_max) := coords_max coords in
    let car_height := y_max - y_min in
    let car_width := x_max - x_min in
    let shadow_height := py_int (inject_Z car_height * scale_y config) in
    let shadow_width := py_int (inject_Z car_width * scale_x config) in
    let bottom_strip := slice2 (y_max - shadow_height) y_max x_min x_max mask in
    let bottom_strip :=
      if is_empty bottom_strip
      then slice2 (Z.max 0 (y_max - 20)) y_max x_min x_max mask
      else bottom_strip in
    shadow ←
      (if (0 <? shadow_height) && (0 <? shadow_width)
       then cv_resize (resize1 INTER_LINEAR) bottom_strip shadow_width shadow_height
       else np_zeros 0 (Z.max 1 shadow_height) (Z.max 1 shadow_width));
    shadow ←
      (if Qltb (scale_y config) 1
       then cv_resize (resize1 INTER_LINEAR) shadow shadow_width (Z.max 1 shadow_height)
       else Ok shadow);
    let shadow :=
      if default false (gradient config) then _apply_shadow_gradient shadow
      else shadow in
    let blur := blur_radius config in
    let shadow :=
      if 0 <? blur then GaussianBlur1 shadow (blur * 2 + 1) else shadow in
    shadow_full ← np_zeros 0%Q h w;
    let shadow_y := y_max + offset_y config in
    let shadow_x := x_min + (car_width - shadow_width) / 2 in
    let sy1 := Z.max 0 shadow_y in
    let sy2 := Z.min h (shadow_y + nrows shadow) in
    let sx1 := Z.max 0 shadow_x in
    let sx2 := Z.min w (shadow_x + ncols shadow) in
    let oy1 := Z.max 0 (- shadow_y) in
    let oy2 := oy1 + (sy2 - sy1) in
    let ox1 := Z.max 0 (- shadow_x) in
    let ox2 := ox1 + (sx2 - sx1) in
    shadow_full ←
      (if (sy1 <? sy2) && (sx1 <? sx2)
          && (oy2 <=? nrows shadow) && (ox2 <=? ncols shadow)
       then set_slice2 sy1 sy2 sx1 sx2
              (gmap2 inject_Z (slice2 oy1 oy2 ox1 ox2 shadow)) shadow_full
       else Ok shadow_full);
    let shadow_full := gmap2 (fun v => v * opacity config)%Q shadow_full in
    Ok (gmap2 to_uint8 shadow_full).

(** [ShadowGenerator.create_all_shadows] *)
Definition create_all_shadows (mask : grid Z) : result (gmap string (grid Z)) :=
  contact ← create_shadow_layer mask "contact" None;
  ambient ← create_shadow_layer mask "ambient" None;
  drop ← create_shadow_layer mask "drop" None;
  Ok (<["contact" := contact]> (<["ambient" := ambient]> (<["drop" := drop]> ∅))).
End Shadows.

(** ** Reflection generator ([reflection.py]) *)

(** [ReflectionGenerator._ease_out] *)
Definition _ease_out (t : Q) : Q := (t * t)%Q.

(** Rounding to the nearest integer, and saturation to [0, 255]. *)
Definition Qnearest (x : Q) : Z := Qfloor (x + (1 # 2)).
Definition saturate_u8 (v : Z) : Z := Z.max 0 (Z.min 255 v).

(** [cv2.cvtColor(img, cv2.COLOR_BGR2HSV)] on one 8-bit pixel, by the
    formulas OpenCV documents: [V = max], [S = 255 (V - min) / V], the hue
    in degrees halved. *)
Definition cvtColor_BGR2HSV (p : pixel) : pixel :=
  let '(b, g, r) := p in
  let v := Z.max r (Z.max g b) in
  let m := Z.min r (Z.min g b) in
  let d := v - m in
  let s := if v =? 0 then 0 else Qnearest (255 * inject_Z d / inject_Z v)%Q in
  let hdeg : Q :=
    if d =? 0 then 0%Q
    else if v =? r then (60 * inject_Z (g - b) / inject_Z d)%Q
    else if v =? g then (120 + 60 * inject_Z (b - r) / inject_Z d)%Q
    else (240 + 60 * inject_Z (r - g) / inject_Z d)%Q in
  let hdeg := if Qltb hdeg 0 then (hdeg + 360)%Q else hdeg in
  let h := Qnearest (hdeg / 2) in
  ((if h =? 180 then 0 else h), s, v).

(** [cv2.cvtColor(img, cv2.COLOR_HSV2BGR)] on one 8-bit pixel. *)
Definition cvtColor_HSV2BGR (p : pixel) : pixel :=
  let '(h, s, v) := p in
  let hh := (inject_Z h * 2 / 60)%Q in
  let sf := (inject_Z s / 255)%Q in
  let vf := (inject_Z v / 255)%Q in
  let i := Qfloor hh in
  let f := (hh - inject_Z i)%Q in
  let p_ := (vf * (1 - sf))%Q in
  let q_ := (vf * (1 - sf * f))%Q in
  let t_ := (vf * (1 - sf * (1 - f)))%Q in
  let '(r, g, b) :=
    match i mod 6 with
    | 0 => (vf, t_, p_)
    | 1 => (q_, vf, p_)
    | 2 => (p_, vf, t_)
    | 3 => (p_, q_, vf)
    | 4 => (t_, p_, vf)
    | _ => (vf, p_, q_)
    end in
  pmap3 (fun c => saturate_u8 (Qnearest (c * 255))) (b, g, r).

(** [ReflectionGenerator._desaturate] *)
Definition _desaturate (image : grid pixel) (amount : Q) : grid pixel :=
  gmap2 (fun p =>
           let '(h, s, v) := pmap3 inject_Z (cvtColor_BGR2HSV p) in
           let hsv := (h, (s * (1 - amount))%Q, v) in
           cvtColor_HSV2BGR (pmap3 (fun c => to_uint8 (np_clip 0 255 c)) hsv))
        image.

Section Reflection.
Context `{L : ImageLib}.

(** [ReflectionGenerator.create_reflection] *)
Definition create_reflection (car_image : grid pixel) (car_mask : grid Z)
    (opacity fade_height : Q) (blur gap : Z)
  : result (grid pixel * grid Z) :=
  let h := nrows car_image in
  let w := ncols car_image in
  let reflection := cv_flip0 car_image in
  let reflection_mask := cv_flip0 car_mask in
  gradient ← np_zeros 0%Q h w;
  let fade_end := py_int (inject_Z h * fade_height) in
  gradient ←
    for_each (py_range 0 fade_end)
      (fun gradient y =>
         t ← py_truediv y fade_end;
         set_row gradient y (1 - _ease_out t)%Q)
      gradient;
  let reflection_mask_float := gmap2 (fun v => inject_Z v / 255)%Q reflection_mask in
  reflection_mask_float ← zip2 Qmult reflection_mask_float gradient;
  let reflection_mask_float := gmap2 (fun v => v * opacity)%Q reflection_mask_float in
  let reflection_mask := gmap2 (fun v => to_uint8 (v * 255)) reflection_mask_float in
  let '(reflection, reflection_mask) :=
    if 0 <? blur
    then (GaussianBlur3 reflection (blur * 2 + 1),
          GaussianBlur1 reflection_mask (blur * 2 + 1))
    else (reflection, reflection_mask) in
  let reflection := _desaturate reflection (2 # 10) in
  let '(reflection, reflection_mask) :=
    if 0 <? gap
    then (warp_shift_down (0, 0, 0) gap reflection,
          warp_shift_down 0 gap reflection_mask)
    else (reflection, reflection_mask) in
  Ok (reflection, reflection_mask).

(** [ReflectionGenerator.create_reflection_extended] *)
Definition create_reflection_extended (car_image : grid pixel)
    (car_mask : grid Z) (background_height car_y_position : Z)
    (opacity max_reflection_height : Q)
  : result (grid pixel * grid Z * Z) :=
  let car_h := nrows car_image in
  let car_w := ncols car_image in
  let coords := np_where_pos car_mask in
  if (length coords =? 0)%nat then
    zeros ← np_zeros 0 car_h car_w;
    Ok (gmap2 (fun _ => (0, 0, 0)) car_image, zeros, 0)
  else
    let y_min := fst (coords_min coords) in
    let y_max := fst (coords_max coords) in
    let actual_height := y_max - y_min in
    let reflection_height := py_int (inject_Z actual_height * max_reflection_height) in
    let bottom_portion := py_slice (y_max - reflection_height) y_max car_image in
    let bottom_mask := py_slice (y_max - reflection_height) y_max car_mask in
    if is_empty bottom_portion then
      zeros ← np_zeros 0 car_h car_w;
      Ok (gmap2 (fun _ => (0, 0, 0)) car_image, zeros, 0)
    else
      let reflection := cv_flip0 bottom_portion in
      let reflection_mask := cv_flip0 bottom_mask in
      let ref_h := nrows reflection in
      gradient ← np_zeros 0%Q ref_h car_w;
      gradient ←
        for_each (py_range 0 ref_h)
          (fun gradient y =>
             t ← py_truediv y ref_h;
             set_row gradient y (1 - float_pow t (8 # 10))%Q)
          gradient;
      m ← zip2 (fun v gr => to_uint8 (inject_Z v / 255 * gr * opacity * 255)%Q)
               reflection_mask gradient;
      let reflection := GaussianBlur3 reflection 3 in
      let reflection := _desaturate reflection (25 # 100) in
      let reflection_y := car_y_position + car_h in
      Ok (reflection, m, reflection_y).
End Reflection.

(** ** A plain implementation of the image library

    Nearest-neighbour resampling, the one-tap blur kernel, and integer
    powers by truncating the exponent: the simplest operations that meet
    [ImageLibLaws].  It shows that the contracts are satisfiable and lets
    the generators run on concrete arrays. *)

Definition nearest_resize {A} (zero : A) (src : grid A) (w h : Z) : grid A :=
  let sh := nrows src in
  let sw := ncols src in
  (fun r =>
     (fun c =>
        default zero (cell src (Z.to_nat (r * sh / h)) (Z.to_nat (c * sw / w))))
     <$> seqZ 0 w)
  <$> seqZ 0 h.

Definition plain_pow (x y : Q) : Q := Qpower x (py_int y).

Definition PlainLib : ImageLib := {|
  float_pow := plain_pow;
  resize1 := fun _ => nearest_resize 0;
  resize3 := fun _ => nearest_resize (0, 0, 0);
  GaussianBlur1 := fun g _ => g;
  GaussianBlur3 := fun g _ => g
|}.

(** The preset every unknown name falls back to. *)
Definition studio_white : bg_config :=
  mk_preset (250, 250, 250) (240, 240, 240) (215, 215, 215) (65 # 100) (3 # 10).

(** The fade gradient of [create_reflection] in closed form: [1 - t * t]
    with [t = y / fade_end] on the rows above [fade_end], zero from
    [fade_end] on. *)
Definition fade_value (fade_end : Z) (y : Z) : Q :=
  if bool_decide (0 <= y < fade_end)
  then (1 - _ease_out (inject_Z y / inject_Z fade_end))%Q
  else 0%Q.



(** Cell [(r, c)] of the canvas lies in the intersection of the canvas
    [bh] by [bw] with the rectangle of a [lh] by [lw] layer placed at
    [(x, y)]. *)
Definition in_overlap (bh bw lh lw x y : Z) (r c : nat) : Prop :=
  (0 <= Z.of_nat r < bh /\ 0 <= Z.of_nat c < bw) /\
  (y <= Z.of_nat r < y + lh /\ x <= Z.of_nat c < x + lw).

(** What a blend leaves in cell [(r, c)] of the canvas: inside the overlap
    the alpha composite of the old cell with the layer cell
    [(r - y, c - x)], found within the layer and its mask (after [swap] of
    its channels, and [post] applied to the result); outside the overlap the
    old cell. *)
Definition blended_cell {B} (old : option B) (new : option B)
    (to_f : B -> fpixel) (post : fpixel -> B) (swap : pixel -> pixel)
    (layer : grid pixel) (mask : grid Z)
    (bh bw lh lw x y : Z) (r c : nat) : Prop :=
  (in_overlap bh bw lh lw x y r c ->
   0 <= Z.of_nat r - y < lh /\ 0 <= Z.of_nat c - x < lw /\
   exists b l m,
     old = Some b /\
     cell layer (Z.to_nat (Z.of_nat r - y)) (Z.to_nat (Z.of_nat c - x)) = Some l /\
     cell mask (Z.to_nat (Z.of_nat r - y)) (Z.to_nat (Z.of_nat c - x)) = Some m /\
     new = Some (post (alpha_blend (to_f b) (swap l) m))) /\
  (~ in_overlap bh bw lh lw x y r c -> new = old).

(** ** The layer stack, as the specification states it

    Shadows darken by [result = result * (1 - intensity / 255)] on every
    channel; the reflection and the subject are alpha-composited; the layers
    are applied bottom to top: reflection, drop shadow, ambient shadow,
    contact shadow, subject. *)

Definition darken_rule (p : fpixel) (intensity : Z) : fpixel :=
  pmap3 (fun v => v * (1 - inject_Z intensity / 255))%Q p.

Definition darken (base : grid fpixel) (intensity : grid Z)
  : result (grid fpixel) :=
  zip2 darken_rule base intensity.

(** The rule [composite_shadows] uses for a blend mode other than
    ['multiply']. *)
Definition subtract_rule (p : fpixel) (intensity : Z) : fpixel :=
  pmap3 (fun v => v - inject_Z intensity / 255 * 100)%Q p.

Inductive stack_layer : Type :=
  | Over (image : grid pixel) (alpha : grid Z) (x y : Z)
  | Darken (intensity : grid Z).

Definition apply_layer `{L : ImageLib} (base : grid fpixel) (l : stack_layer)
  : result (grid fpixel) :=
  match l with
  | Over image alpha x y => _blend_layer base image alpha x y
  | Darken intensity =>
      s ← (if negb (nrows intensity =? nrows base)
              || negb (ncols intensity =? ncols base)
           then cv_resize (resize1 INTER_LINEAR) intensity (ncols base) (nrows base)
           else Ok intensity);
      darken base s
  end.

(** The shadow layer of a given name, when the dictionary has one that is
    neither [None] nor empty. *)
Definition present_shadow (shadows : gmap string (option (grid Z)))
    (name : string) : list stack_layer :=
  match shadows !! name with
  | Some (Some s) => if is_empty s then [] else [Darken s]
  | _ => []
  end.

Definition layer_stack (shadows : gmap string (option (grid Z)))
    (reflection : option (grid pixel)) (reflection_mask : option (grid Z))
    (car_image : grid pixel) (car_mask : grid Z) (x y : Z) : list stack_layer :=
  match reflection, reflection_mask with
  | Some r, Some m => [Over r m x (y + nrows car_image)]
  | _, _ => []
  end
  ++ present_shadow shadows "drop"
  ++ present_shadow shadows "ambient"
  ++ present_shadow shadows "contact"
  ++ [Over car_image car_mask x y].

(** The shadow layers [composite_shadows] finds, in its order. *)
Definition shadow_stack (shadows : gmap string (grid Z)) : list (grid Z) :=
  omap (fun name => shadows !! name) ["drop"; "ambient"; "contact"].

(** ** The remaining functions of the four modules

    [np.sqrt], [math.cos] and [math.sin] have no exact rational value; they
    are the operations of [MathLib].  [cos_deg a] is
    [math.cos(math.radians(a))], [sin_deg a] is [math.sin(math.radians(a))]. *)

Class MathLib : Type := {
  float_sqrt : Q -> Q;
  cos_deg : Q -> Q;
  sin_deg : Q -> Q
}.

(** [g[y, :] = f(g[y, :])]: every cell of row [y] is passed through [f]. *)
Definition update_row {A} (g : grid A) (y : Z) (f : A -> A) : result (grid A) :=
  i ← py_index g y;
  Ok (alter (map f) i g).

(** [BackgroundGenerator.add_floor_reflection_area] *)
Definition add_floor_reflection_area (background : grid pixel)
    (reflection_opacity : Q) : result (grid pixel) :=
  let h := nrows background in
  let horizon_y := py_int (inject_Z h * (65 # 100)) in
  let result := to_float background in
  result ←
    for_each (py_range horizon_y h)
      (fun result y =>
         t ← py_truediv (y - horizon_y) (h - horizon_y);
         let factor := (1 + (1 - t) * reflection_opacity)%Q in
         update_row result y (pmap3 (fun v => np_clip 0 255 (v * factor))))
      result;
  Ok (gmap2 (pmap3 to_uint8) result).

Section Lighting.
Context `{M : MathLib}.

(** The brightness factor of [add_ambient_lighting] at cell [(y, x)] of an
    [h] by [w] image, before the intensity is applied. *)
Definition ambient_light (light_position : string) (h w : Z) (y x : nat) : Q :=
  let yf := (inject_Z (Z.of_nat y) / inject_Z h)%Q in
  if String.eqb light_position "top" then (1 - yf)%Q
  else if String.eqb light_position "top_left" then
    let xf := (inject_Z (Z.of_nat x) / inject_Z w)%Q in
    (1 - float_sqrt (xf * xf + yf * yf))%Q
  else if String.eqb light_position "top_right" then
    let xf := (inject_Z (w - Z.of_nat x) / inject_Z w)%Q in
    (1 - float_sqrt (xf * xf + yf * yf))%Q
  else 1%Q.

(** [BackgroundGenerator.add_ambient_lighting] *)
Definition add_ambient_lighting (image : grid pixel) (light_position : string)
    (intensity : Q) : grid pixel :=
  let h := nrows image in
  let w := ncols image in
  imap (fun y row =>
          imap (fun x p =>
                  let light := ambient_light light_position h w y x in
                  let light := (1 + light * intensity)%Q in
                  pmap3 (fun v => to_uint8 (np_clip 0 255 (inject_Z v * light))) p)
               row)
       image.

(** The darkening factor of [add_vignette] at cell [(y, x)]. *)
Definition vignette_factor (h w : Z) (strength radius : Q) (y x : nat) : Q :=
  let center_y := (inject_Z h / 2)%Q in
  let center_x := (inject_Z w / 2)%Q in
  let dx := ((inject_Z (Z.of_nat x) - center_x) / center_x)%Q in
  let dy := ((inject_Z (Z.of_nat y) - center_y) / center_y)%Q in
  let dist := float_sqrt (dx * dx + dy * dy) in
  let c := np_clip 0 1 (dist / radius) in
  (1 - c * c * strength)%Q.

(** [BackgroundGenerator.add_vignette] *)
Definition add_vignette (image : grid pixel) (strength radius : Q) : grid pixel :=
  let h := nrows image in
  let w := ncols image in
  imap (fun y row =>
          imap (fun x p =>
                  let vignette := vignette_factor h w strength radius y x in
                  pmap3 (fun v => to_uint8 (inject_Z v * vignette)) p)
               row)
       image.

(** [BackgroundGenerator.create_complete_background] *)
Definition create_complete_background (width height : Z) (preset : string)
    (vignette : bool) (vignette_strength : Q) (ambient_light reflection_zone : bool)
  : result (grid pixel) :=
  bg ← create_studio_background width height preset None;
  bg ← (if reflection_zone then add_floor_reflection_area bg (3 # 100) else Ok bg);
  let bg := if ambient_light then add_ambient_lighting bg "top" (5 # 100) else bg in
  let bg := if vignette then add_vignette bg vignette_strength (12 # 10) else bg in
  Ok bg.
End Lighting.

(** [BackgroundGenerator.create_custom_background]: the horizon colour is
    [((top + floor) / 2).astype(int)]. *)
Definition create_custom_background (width height : Z)
    (top_color floor_color : pixel) (horizon_position : Q)
  : result (grid pixel) :=
  let horizon :=
    pzip3 (fun t f => py_int ((inject_Z t + inject_Z f) / 2)) top_color floor_color in
  let config :=
    {| top_color := top_color; horizon_color := horizon;
       floor_color := floor_color; horizon_position := horizon_position;
       floor_gradient := Some (3 # 10) |} in
  create_studio_background width height "studio_white" (Some config).

(** [cv2.warpAffine(img, [[1, 0, dx], [0, 1, dy]], (w, h))] for integers
    [dx], [dy]: cell [(r, c)] of the result is cell [(r - dy, c - dx)] of the
    source, and [zero] when that lies outside the source. *)
Definition warp_translate {A} (zero : A) (dx dy : Z) (w h : Z) (g : grid A)
  : grid A :=
  (fun r =>
     (fun c =>
        if (0 <=? r - dy) && (0 <=? c - dx)
        then default zero (cell g (Z.to_nat (r - dy)) (Z.to_nat (c - dx)))
        else zero)
     <$> seqZ 0 w)
  <$> seqZ 0 h.

Section Directional.
Context `{L : ImageLib} `{M : MathLib}.

(** [ShadowGenerator.create_directional_shadow] *)
Definition create_directional_shadow (mask : grid Z) (angle length : Q)
    (blur : Z) (opacity : Q) : result (grid Z) :=
  let h := nrows mask in
  let w := ncols mask in
  let coords := np_where_pos mask in
  if (List.length coords =? 0)%nat then np_zeros 0 h w
  else
    let car_height := fst (coords_max coords) - fst (coords_min coords) in
    let offset_x := py_int (cos_deg angle * inject_Z car_height * length) in
    let offset_y := py_int (sin_deg angle * inject_Z car_height * length) in
    let shadow := warp_translate 0 offset_x offset_y w h mask in
    let shadow :=
      if 0 <? blur then GaussianBlur1 shadow (blur * 2 + 1) else shadow in
    Ok (gmap2 (fun v => to_uint8 (inject_Z v * opacity)) shadow).

(** [Compositor.create_final_composite] *)
Definition create_final_composite (background car_image : grid pixel)
    (car_mask : grid Z) (shadows : gmap string (option (grid Z)))
    (reflection : option (grid pixel)) (reflection_mask : option (grid Z))
    (auto_position auto_scale : bool) : result (grid pixel) :=
  let bg_h := nrows background in
  let bg_w := ncols background in
  '(car_image, car_mask) ←
    (if auto_scale
     then scale_car_to_fit car_image car_mask bg_w bg_h (75 # 100) (50 # 100)
     else Ok (car_image, car_mask));
  let car_position :=
    if auto_position
    then Some (auto_position_car (bg_w, bg_h)
                 (ncols car_image, nrows car_image) (65 # 100))
    else None in
  composite_final background car_image car_mask shadows reflection
    reflection_mask car_position None.
End Directional.

(** A plain implementation of [MathLib]: the square root truncated to three
    decimals, and Bhaskara's rational approximation of the sine. *)
Definition plain_sqrt (x : Q) : Q :=
  inject_Z (Z.sqrt (Qfloor (x * 1000000))) / 1000.

Definition plain_sin_deg (a : Q) : Q :=
  let d := inject_Z (Qfloor a mod 360) in
  let s (x : Q) : Q := (4 * x * (180 - x) / (40500 - x * (180 - x)))%Q in
  if Qltb d 180 then s d else (- s (d - 180))%Q.

Definition PlainMath : MathLib := {|
  float_sqrt := plain_sqrt;
  cos_deg := fun a => plain_sin_deg (a + 90);
  sin_deg := plain_sin_deg
|}.

(** The colour of row [y] of the studio background in closed form: on the
    wall ([y] above the horizon row) the eased blend of the top and horizon
    colours, on the floor the eased blend of the horizon and floor colours. *)
Definition background_row (config : bg_config) (height y : Z) : pixel :=
  let horizon_y := py_int (inject_Z height * horizon_position config) in
  let floor_grad := default (3 # 10) (floor_gradient config) in
  if y <? horizon_y then
    lerp_color (top_color config) (horizon_color config)
      (_ease_in_out (inject_Z y / inject_Z horizon_y))
  else
    lerp_color (horizon_color config) (floor_color config)
      (_ease_in_out (inject_Z (y - horizon_y) / inject_Z (height - horizon_y)
                     * floor_grad + (1 - floor_grad)))%Q.

(** * Properties *)

(** ** Numbers *)

Lemma Qltb_lt (x y : Q) : Qltb x y = true <-> (x < y)%Q.
Proof.
  unfold Qltb. rewrite negb_true_iff. split.
  - intros Hb. apply Qnot_le_lt. intros Hle.
    apply Qle_bool_iff in Hle. congruence.
  - intros Hlt. destruct (Qle_bool y x) eqn:E; [|reflexivity].
    apply Qle_bool_iff in E. exfalso. exact (Qlt_not_le _ _ Hlt E).
Qed.

Lemma Qltb_ge (x y : Q) : Qltb x y = false <-> (y <= x)%Q.
Proof.
  unfold Qltb. rewrite negb_false_iff. apply Qle_bool_iff.
Qed.

Lemma py_int_nonneg (x : Q) : (0 <= x)%Q -> py_int x = Qfloor x.
Proof.
  intros Hx. unfold py_int.
  apply Qle_bool_iff in Hx. by rewrite Hx.
Qed.


(** Truncation is monotone. *)
Lemma py_int_mono (x y : Q) : (x <= y)%Q -> py_int x <= py_int y.
Proof.
  intros Hxy. unfold py_int.
  destruct (Qle_bool 0 x) eqn:Ex, (Qle_bool 0 y) eqn:Ey.
  - by apply Qfloor_resp_le.
  - apply Qle_bool_iff in Ex.
    assert (~ (0 <= y)%Q) as Hn by (rewrite <- Qle_bool_iff; congruence).
    exfalso. apply Hn. by apply Qle_trans with x.
  - assert (Qceiling x <= 0).
    { assert (x < 0)%Q as Hx.
      { apply Qnot_le_lt. rewrite <- Qle_bool_iff. congruence. }
      change 0 with (Qceiling 0). apply Qceiling_resp_le. by apply Qlt_le_weak. }
    assert (0 <= Qfloor y).
    { apply Qle_bool_iff in Ey. change 0 with (Qfloor 0). by apply Qfloor_resp_le. }
    lia.
  - by apply Qceiling_resp_le.
Qed.


Lemma to_uint8_range (x : Q) : is_u8 (to_uint8 x).
Proof.
  unfold is_u8, to_uint8.
  pose proof (Z.mod_pos_bound (py_int x) 256). lia.
Qed.



(** ** Layout *)



Lemma py_truediv_ok (a b : Z) : b <> 0 -> py_truediv a b = Ok (inject_Z a / inject_Z b)%Q.
Proof. intros Hb. unfold py_truediv. by rewrite (proj2 (Z.eqb_neq b 0) Hb). Qed.




Lemma scale_car_to_fit_unfold `{L : ImageLib} img mask W H rw rh :
  0 < ncols img -> 0 < nrows img ->
  scale_car_to_fit img mask W H rw rh =
  if Qltb (py_min (inject_Z (py_int (inject_Z W * rw)) / inject_Z (ncols img))
                  (inject_Z (py_int (inject_Z H * rh)) / inject_Z (nrows img))) 1
  then
    let scale := py_min (inject_Z (py_int (inject_Z W * rw)) / inject_Z (ncols img))
                  (inject_Z (py_int (inject_Z H * rh)) / inject_Z (nrows img)) in
    let new_w := py_int (inject_Z (ncols img) * scale) in
    let new_h := py_int (inject_Z (nrows img) * scale) in
    img' ← cv_resize (resize3 INTER_AREA) img new_w new_h;
    msk' ← cv_resize (resize1 INTER_AREA) mask new_w new_h;
    Ok (img', msk')
  else Ok (img, mask).
Proof.
  intros Hw Hh. unfold scale_car_to_fit.
  rewrite !py_truediv_ok by lia. reflexivity.
Qed.


(** ** Arrays *)

Lemma rect_nrows {A} (h w : Z) (g : grid A) : rect h w g -> nrows g = h.
Proof. by intros [? _]. Qed.

Lemma rect_ncols {A} (h w : Z) (g : grid A) : rect h w g -> 0 < h -> ncols g = w.
Proof.
  intros [Hn Hall] Hh. destruct g as [|r g]; simpl in *.
  - unfold nrows in Hn. simpl in Hn. lia.
  - by inversion Hall.
Qed.

Lemma rect_length {A} (h w : Z) (g : grid A) : rect h w g -> length g = Z.to_nat h.
Proof. intros [Hn _]. unfold nrows in Hn. lia. Qed.

Lemma rect_row {A} (h w : Z) (g : grid A) (i : nat) (row : list A) :
  rect h w g -> g !! i = Some row -> length row = Z.to_nat w.
Proof.
  intros [_ Hall] Hi. rewrite Forall_lookup in Hall.
  specialize (Hall i row Hi). simpl in Hall. lia.
Qed.

Lemma rect_replicate {A} (h w : Z) (v : A) :
  0 <= h -> 0 <= w -> rect h w (replicate (Z.to_nat h) (replicate (Z.to_nat w) v)).
Proof.
  intros Hh Hw. split.
  - unfold nrows. rewrite length_replicate. lia.
  - apply Forall_replicate. rewrite length_replicate. lia.
Qed.

Lemma rect_gmap2 {A B} (f : A -> B) (h w : Z) (g : grid A) :
  rect h w g -> rect h w (gmap2 f g).
Proof.
  intros [Hn Hall]. split.
  - unfold nrows, gmap2 in *. by rewrite length_map.
  - unfold gmap2. apply Forall_map. eapply Forall_impl; [exact Hall|].
    intros r Hr. simpl. by rewrite length_map.
Qed.

Lemma nearest_resize_shape {A} (zero : A) (src : grid A) (w h : Z) :
  0 < w -> 0 < h -> rect h w (nearest_resize zero src w h).
Proof.
  intros Hw Hh. unfold nearest_resize. split.
  - unfold nrows. rewrite length_fmap, length_seqZ. lia.
  - apply Forall_fmap, Forall_forall. intros r _. simpl.
    rewrite length_fmap, length_seqZ. lia.
Qed.

(** The plain implementation meets the contracts. *)
#[global] Instance PlainLib_laws : ImageLibLaws PlainLib.
Proof.
  split; simpl; intros.
  - by apply nearest_resize_shape.
  - by apply nearest_resize_shape.
  - done.
  - done.
  - done.
Qed.
Lemma omap_imap_None {A B} (f : nat -> A -> option B) (l : list A) :
  (forall i x, x ∈ l -> f i x = None) -> omap id (imap f l) = [].
Proof.
  revert f. induction l as [|x l IH]; intros f Hf; [done|].
  simpl. rewrite (Hf 0%nat x) by apply list_elem_of_here. simpl.
  apply IH. intros i y Hy. unfold compose. apply Hf. by apply list_elem_of_further.
Qed.

Lemma concat_imap_nil {A B} (f : nat -> A -> list B) (l : list A) :
  (forall i x, x ∈ l -> f i x = []) -> concat (imap f l) = [].
Proof.
  revert f. induction l as [|x l IH]; intros f Hf; [done|].
  simpl. rewrite (Hf 0%nat x) by apply list_elem_of_here. simpl.
  apply IH. intros i y Hy. unfold compose. apply Hf. by apply list_elem_of_further.
Qed.

(** A mask without a cell above zero has no silhouette coordinates. *)
Lemma np_where_pos_empty (mask : grid Z) :
  all_cells (fun v => v <= 0) mask -> np_where_pos mask = [].
Proof.
  intros Hz. unfold np_where_pos. apply concat_imap_nil.
  intros r row Hrow. apply omap_imap_None. intros c v Hv.
  unfold all_cells in Hz. rewrite Forall_forall in Hz.
  specialize (Hz row Hrow). rewrite Forall_forall in Hz. specialize (Hz v Hv).
  simpl in Hz. by rewrite (proj2 (Z.ltb_ge 0 v)).
Qed.

Lemma np_zeros_ok {A} (zero : A) (h w : Z) :
  0 <= h -> 0 <= w ->
  np_zeros zero h w = Ok (replicate (Z.to_nat h) (replicate (Z.to_nat w) zero)).
Proof.
  intros Hh Hw. unfold np_zeros.
  by rewrite (proj2 (Z.ltb_ge h 0)), (proj2 (Z.ltb_ge w 0)).
Qed.

Lemma nrows_nonneg {A} (g : grid A) : 0 <= nrows g.
Proof. unfold nrows. lia. Qed.

Lemma ncols_nonneg {A} (g : grid A) : 0 <= ncols g.
Proof. destruct g; simpl; lia. Qed.

(** The all-zero array of the shape of [g]. *)
Lemma zeros_like_shape {A B} (zero : B) (h w : Z) (g : grid A) :
  rect h w g ->
  rect h w (replicate (Z.to_nat (nrows g)) (replicate (Z.to_nat (ncols g)) zero)).
Proof.
  intros Hg. destruct (decide (0 < h)) as [Hh | Hh].
  - rewrite (rect_nrows _ _ _ Hg), (rect_ncols _ _ _ Hg Hh).
    apply rect_replicate; [lia|].
    rewrite <- (rect_ncols _ _ _ Hg Hh). apply ncols_nonneg.
  - pose proof (rect_nrows _ _ _ Hg) as Hn. pose proof (nrows_nonneg g).
    assert (h = 0) as -> by lia. rewrite Hn. simpl. split; [done|constructor].
Qed.

Lemma all_cells_replicate {A} (P : A -> Prop) (n m : nat) (v : A) :
  P v -> all_cells P (replicate n (replicate m v)).
Proof. intros Hv. by apply Forall_replicate, Forall_replicate. Qed.

Lemma select_shadow_config_ok (shadow_type : string) (custom_config : option shadow_config) :
  exists config, select_shadow_config shadow_type custom_config = Ok config.
Proof.
  destruct custom_config as [c|]; [by exists c|].
  unfold select_shadow_config.
  change (dict_index SHADOW_CONFIG "ambient")
    with (Ok (mk_shadow 35 (25 # 100) 5 (12 # 100) (11 # 10) true)).
  simpl. eauto.
Qed.

(** ** Shadow synthesis *)

(** C3: on a mask whose cells are all zero, [create_shadow_layer] returns,
    for every shadow type and every custom configuration, the all-zero
    layer of the shape of the mask, and raises nothing; hence
    [create_all_shadows] returns three such layers. *)
Theorem create_shadow_layer_empty_mask `{L : ImageLib}
    (mask : grid Z) (h w : Z) (shadow_type : string)
    (custom_config : option shadow_config) :
  rect h w mask ->
  all_cells (fun v => v = 0) mask ->
  exists layer,
    create_shadow_layer mask shadow_type custom_config = Ok layer /\
    rect h w layer /\
    all_cells (fun v => v = 0) layer /\
    create_all_shadows mask =
      Ok (<["contact" := layer]> (<["ambient" := layer]> (<["drop" := layer]> ∅))).
Proof.
  intros Hrect Hzero.
  assert (np_where_pos mask = []) as Hcoords.
  { apply np_where_pos_empty. unfold all_cells in *.
    eapply Forall_impl; [exact Hzero|]. intros row Hrow.
    eapply Forall_impl; [exact Hrow|]. simpl. lia. }
  assert (forall ty cc, create_shadow_layer mask ty cc =
    Ok (replicate (Z.to_nat (nrows mask)) (replicate (Z.to_nat (ncols mask)) 0))) as Hlayer.
  { intros ty cc. unfold create_shadow_layer.
    destruct (select_shadow_config_ok ty cc) as [config ->]. simpl.
    rewrite Hcoords. simpl.
    apply np_zeros_ok; [apply nrows_nonneg | apply ncols_nonneg]. }
  eexists. split; [apply Hlayer|]. split; [by apply zeros_like_shape|].
  split; [by apply all_cells_replicate|].
  unfold create_all_shadows. by rewrite !Hlayer.
Qed.

Lemma create_shadow_layer_empty_mask_witness :
  rect 2 3 [[0; 0; 0]; [0; 0; 0]] /\
  all_cells (fun v => v = 0) [[0; 0; 0]; [0; 0; 0]] /\
  exists layer,
    create_shadow_layer (L := PlainLib) [[0; 0; 0]; [0; 0; 0]] "contact" None = Ok layer /\
    rect 2 3 layer.
Proof.
  assert (rect 2 3 [[0; 0; 0]; [0; 0; 0]]) as Hr.
  { split; [reflexivity|]. repeat constructor. }
  assert (all_cells (fun v => v = 0) [[0; 0; 0]; [0; 0; 0]]) as Hz.
  { repeat constructor. }
  split; [exact Hr|]. split; [exact Hz|].
  destruct (create_shadow_layer_empty_mask (L := PlainLib)
              [[0; 0; 0]; [0; 0; 0]] 2 3 "contact" None Hr Hz)
    as (layer & Hl & Hs & _).
  exists layer. by split.
Defined.
(** ** Loops *)

Lemma for_each_app {A S} (xs ys : list A) (body : S -> A -> result S) (s : S) :
  for_each (xs ++ ys) body s = (s' ← for_each xs body s; for_each ys body s').
Proof.
  revert s. induction xs as [|x xs IH]; intros s; [done|].
  simpl. destruct (body s x) as [s'|e]; simpl; [apply IH | done].
Qed.

(** A loop whose body keeps an invariant and cannot raise on the items it
    visits runs to completion and keeps the invariant. *)
Lemma for_each_inv {A S} (I : S -> Prop) (P : A -> Prop)
    (xs : list A) (body : S -> A -> result S) (s : S) :
  I s -> Forall P xs ->
  (forall s x, I s -> P x -> exists s', body s x = Ok s' /\ I s') ->
  exists s', for_each xs body s = Ok s' /\ I s'.
Proof.
  intros Hs Hxs Hbody. revert s Hs.
  induction Hxs as [|x xs Hx Hxs IH]; intros s Hs; [by exists s|].
  destruct (Hbody s x Hs Hx) as (s1 & Hb & Hs1).
  simpl. rewrite Hb. simpl. by apply IH.
Qed.

Lemma py_range_spec (a b x : Z) : x ∈ py_range a b <-> a <= x < b.
Proof. unfold py_range. rewrite elem_of_seqZ. lia. Qed.

Lemma py_range_Forall (a b : Z) : Forall (fun x => a <= x < b) (py_range a b).
Proof. apply Forall_forall. intros x. by rewrite py_range_spec. Qed.

Lemma py_range_empty (a b : Z) : b <= a -> py_range a b = [].
Proof.
  intros Hle. unfold py_range, seqZ.
  replace (Z.to_nat (b - a)) with 0%nat by lia. done.
Qed.

Lemma py_range_split (a b c : Z) :
  a <= b <= c -> py_range a c = py_range a b ++ py_range b c.
Proof.
  intros H. unfold py_range.
  replace (c - a) with ((b - a) + (c - b)) by lia.
  rewrite seqZ_app by lia. do 2 f_equal. lia.
Qed.

Lemma py_range_cons (a b : Z) : a < b -> py_range a b = a :: py_range (a + 1) b.
Proof.
  intros H. unfold py_range. rewrite seqZ_cons by lia. do 2 f_equal; lia.
Qed.

(** ** Row assignment *)

Lemma py_index_ok {A} (l : list A) (i : Z) :
  - Z.of_nat (length l) <= i < Z.of_nat (length l) ->
  exists k, py_index l i = Ok k /\ (k < length l)%nat.
Proof.
  intros Hi. unfold py_index.
  destruct (0 <=? i) eqn:E0; simpl.
  - apply Z.leb_le in E0. rewrite (proj2 (Z.ltb_lt i _)) by lia.
    exists (Z.to_nat i). split; [done|lia].
  - apply Z.leb_gt in E0.
    rewrite (proj2 (Z.leb_le _ i)), (proj2 (Z.ltb_lt i 0)) by lia. simpl.
    exists (Z.to_nat (i + Z.of_nat (length l))). split; [done|lia].
Qed.

Lemma py_index_raise {A} (l : list A) (i : Z) :
  Z.of_nat (length l) <= i -> py_index l i = Raise IndexError.
Proof.
  intros Hi. unfold py_index.
  rewrite (proj2 (Z.ltb_ge i _)) by lia. rewrite andb_false_r.
  rewrite (proj2 (Z.ltb_ge i 0)) by lia. by rewrite andb_false_r.
Qed.

Lemma set_row_ok {A} (P : A -> Prop) (h w : Z) (g : grid A) (y : Z) (v : A) :
  rect h w g -> all_cells P g -> P v -> - h <= y < h ->
  exists g', set_row g y v = Ok g' /\ rect h w g' /\ all_cells P g'.
Proof.
  intros Hrect Hall Hv Hy. unfold set_row.
  pose proof (rect_nrows _ _ _ Hrect) as Hn. unfold nrows in Hn.
  destruct (py_index_ok g y) as (k & -> & Hk); [lia|]. simpl.
  eexists. split; [reflexivity|]. split.
  - split.
    + unfold nrows. by rewrite length_alter.
    + destruct Hrect as [_ Hrows]. apply Forall_alter; [done|].
      intros row _ Hrow. simpl in *. by rewrite length_replicate.
  - apply Forall_alter; [done|]. intros row _ _. by apply Forall_replicate.
Qed.
(** ** Background synthesis *)

Lemma PRESETS_studio_white : dict_index PRESETS "studio_white" = Ok studio_white.
Proof. reflexivity. Qed.

(** Every preset places the horizon strictly inside the canvas. *)
Lemma PRESETS_horizon (name : string) (c : bg_config) :
  PRESETS !! name = Some c -> (0 <= horizon_position c <= 1)%Q.
Proof.
  intros Hc. unfold PRESETS in Hc. apply elem_of_list_to_map_2 in Hc.
  repeat (apply elem_of_cons in Hc as [Hc | Hc];
          [inversion Hc; subst; simpl; split; discriminate|]).
  by apply elem_of_nil in Hc.
Qed.

Lemma select_bg_config_preset (preset : string) :
  exists config,
    select_bg_config preset None = Ok config /\
    (0 <= horizon_position config <= 1)%Q.
Proof.
  unfold select_bg_config. rewrite PRESETS_studio_white. simpl.
  eexists. split; [reflexivity|]. unfold dict_get.
  destruct (PRESETS !! preset) as [c|] eqn:E; simpl.
  - by apply (PRESETS_horizon preset).
  - split; discriminate.
Qed.

Lemma lerp_color_u8 (a b : pixel) (t : Q) : pixel_u8 (lerp_color a b t).
Proof.
  destruct a as [[a0 a1] a2], b as [[b0 b1] b2]. simpl.
  repeat split; apply to_uint8_range.
Qed.

Lemma horizon_row_in_canvas (h : Z) (hp : Q) :
  0 <= h -> (0 <= hp <= 1)%Q -> 0 <= py_int (inject_Z h * hp) <= h.
Proof.
  intros Hh [H0 H1].
  assert (0 <= inject_Z h)%Q as Hh' by (change 0%Q with (inject_Z 0); by rewrite <- Zle_Qle).
  assert (0 <= inject_Z h * hp)%Q as Hlo by (by apply Qmult_le_0_compat).
  assert (inject_Z h * hp <= inject_Z h)%Q as Hhi.
  { rewrite <- (Qmult_1_r (inject_Z h)) at 2.
    rewrite (Qmult_comm (inject_Z h) hp), (Qmult_comm (inject_Z h) 1).
    by apply Qmult_le_compat_r. }
  split.
  - change 0 with (py_int 0). by apply py_int_mono.
  - rewrite <- (Qfloor_Z h) at 2. rewrite py_int_nonneg by done.
    by apply Qfloor_resp_le.
Qed.

(** The generator on a configuration whose horizon row
    [int(height * horizon_position)] lies within [-height, height]:
    both loops run to completion and fill a [height] by [width] buffer of
    [uint8] cells. *)
Lemma create_studio_background_ok (width height : Z) (preset : string)
    (custom_config : option bg_config) (config : bg_config) :
  select_bg_config preset custom_config = Ok config ->
  0 <= width -> 0 <= height ->
  - height <= py_int (inject_Z height * horizon_position config) <= height ->
  exists bg,
    create_studio_background width height preset custom_config = Ok bg /\
    rect height width bg /\ all_cells pixel_u8 bg.
Proof.
  intros Hcfg Hw Hh Hhor. unfold create_studio_background.
  rewrite Hcfg. simpl. rewrite np_zeros_ok by done. simpl.
  set (hy := py_int (inject_Z height * horizon_position config)) in *.
  set (I := fun g : grid pixel => rect height width g /\ all_cells pixel_u8 g).
  assert (I (replicate (Z.to_nat height) (replicate (Z.to_nat width) (0, 0, 0)))) as H0.
  { split; [by apply rect_replicate|]. apply all_cells_replicate.
    repeat split; done. }
  edestruct (for_each_inv I (fun y => 0 <= y < hy) (py_range 0 hy)) as (g1 & -> & Hg1);
    [exact H0 | apply py_range_Forall | | ].
  { intros g y [Hr Ha] Hy. rewrite py_truediv_ok by lia. simpl.
    destruct (set_row_ok pixel_u8 height width g y
                (lerp_color (top_color config) (horizon_color config)
                   (_ease_in_out (inject_Z y / inject_Z hy))))
      as (g' & Hg' & ? & ?); [done | done | apply lerp_color_u8 | lia |].
    by exists g'. }
  simpl.
  edestruct (for_each_inv I (fun y => hy <= y < height) (py_range hy height))
    as (g2 & -> & Hg2); [exact Hg1 | apply py_range_Forall | | ].
  { intros g y [Hr Ha] Hy. rewrite py_truediv_ok by lia. simpl.
    match goal with |- context [set_row g y ?v] =>
      destruct (set_row_ok pixel_u8 height width g y v)
        as (g' & Hg' & ? & ?); [done | done | apply lerp_color_u8 | lia |]
    end.
    by exists g'. }
  simpl. by exists g2.
Qed.
Lemma py_index_raise_low {A} (l : list A) (i : Z) :
  i < - Z.of_nat (length l) -> py_index l i = Raise IndexError.
Proof.
  intros Hi. unfold py_index.
  rewrite (proj2 (Z.leb_gt 0 i)) by lia. simpl.
  by rewrite (proj2 (Z.leb_gt _ i)) by lia.
Qed.

(** C5, as stated, fails: a custom configuration with horizon position 1.5
    on a 3 by 2 canvas makes the wall loop write row 2 of a two-row buffer. *)
Lemma create_studio_background_horizon_overflow :
  0 < 3 /\ 0 < 2 /\
  create_studio_background 3 2 "studio_white"
    (Some (mk_preset (250, 250, 250) (240, 240, 240) (215, 215, 215) (3 # 2) (3 # 10)))
  = Raise IndexError.
Proof. repeat split. Qed.

(** C5, amended: for every width > 0 and height > 0, every preset name, and
    every custom configuration whose horizon position lies in [0, 1], the
    generator returns a buffer of exactly [height] rows by [width] columns
    with every channel in [0, 255]. *)
Theorem create_studio_background_buffer (width height : Z) (preset : string)
    (custom_config : option bg_config) :
  0 < width -> 0 < height ->
  (forall c, custom_config = Some c -> (0 <= horizon_position c <= 1)%Q) ->
  exists bg,
    create_studio_background width height preset custom_config = Ok bg /\
    rect height width bg /\ all_cells pixel_u8 bg.
Proof.
  intros Hw Hh Hcc.
  assert (exists config, select_bg_config preset custom_config = Ok config /\
                         (0 <= horizon_position config <= 1)%Q) as (config & Hsel & Hhp).
  { destruct custom_config as [c|].
    - exists c. split; [done|]. by apply Hcc.
    - apply select_bg_config_preset. }
  apply (create_studio_background_ok width height preset custom_config config);
    [done | lia | lia |].
  pose proof (horizon_row_in_canvas height (horizon_position config) ltac:(lia) Hhp).
  lia.
Qed.

Lemma create_studio_background_buffer_witness :
  0 < 2 /\ 0 < 4 /\
  exists bg, create_studio_background 2 4 "showroom" None = Ok bg /\ rect 4 2 bg.
Proof.
  split; [lia|]. split; [lia|].
  destruct (create_studio_background_buffer 2 4 "showroom" None)
    as (bg & Hbg & Hrect & _); [lia | lia | discriminate |].
  by exists bg.
Defined.

(** C4, as stated, fails: with width 0 the generator raises nothing and
    returns four empty rows; and a horizon position of 2 is not clamped but
    rejected with an [IndexError]. *)
Lemma create_studio_background_zero_width :
  create_studio_background 0 4 "studio_white" None = Ok [[]; []; []; []] /\
  create_studio_background 1 1 "studio_white"
    (Some (mk_preset (250, 250, 250) (240, 240, 240) (215, 215, 215) 2 (3 # 10)))
  = Raise IndexError.
Proof. repeat split. Qed.

(** C4, amended: the generator raises [ValueError] (from the allocation of
    the buffer; there is no [InvalidDimensions]) when width < 0 or
    height < 0.  A width or height of 0 is accepted: whenever the horizon
    row [int(height * horizon_position)] lies within [-height, height] the
    call returns a [height] by [width] buffer, empty when a dimension is 0.
    The horizon position is never clamped: a horizon row above [height] or
    below [-height] makes the call raise [IndexError]. *)
Theorem create_studio_background_failure_modes (width height : Z)
    (preset : string) (custom_config : option bg_config) (config : bg_config) :
  select_bg_config preset custom_config = Ok config ->
  let horizon_y := py_int (inject_Z height * horizon_position config) in
  ((width < 0 \/ height < 0) ->
   create_studio_background width height preset custom_config = Raise ValueError) /\
  (0 <= width -> 0 <= height -> - height <= horizon_y <= height ->
   exists bg,
     create_studio_background width height preset custom_config = Ok bg /\
     rect height width bg) /\
  (0 <= width -> 0 <= height -> (height < horizon_y \/ horizon_y < - height) ->
   create_studio_background width height preset custom_config = Raise IndexError).
Proof.
  intros Hcfg horizon_y. split; [|split].
  - intros Hneg. unfold create_studio_background. rewrite Hcfg. simpl.
    unfold np_zeros.
    destruct Hneg as [Hneg | Hneg].
    + rewrite (proj2 (Z.ltb_lt width 0) Hneg). by rewrite orb_true_r.
    + by rewrite (proj2 (Z.ltb_lt height 0) Hneg).
  - intros Hw Hh Hhor.
    destruct (create_studio_background_ok width height preset custom_config config)
      as (bg & Hbg & Hrect & _); [done..|]. by exists bg.
  - intros Hw Hh Hout. unfold create_studio_background.
    rewrite Hcfg. simpl. rewrite np_zeros_ok by done. simpl.
    fold horizon_y.
    set (I := fun g : grid pixel => rect height width g /\ all_cells pixel_u8 g).
    assert (I (replicate (Z.to_nat height) (replicate (Z.to_nat width) (0, 0, 0)))) as H0.
    { split; [by apply rect_replicate|]. apply all_cells_replicate.
      repeat split; done. }
    destruct Hout as [Hhigh | Hlow].
    + rewrite (py_range_split 0 height horizon_y) by lia.
      rewrite for_each_app.
      edestruct (for_each_inv I (fun y => 0 <= y < height) (py_range 0 height))
        as (g1 & -> & Hg1); [exact H0 | apply py_range_Forall | | ].
      { intros g y [Hr Ha] Hy. rewrite py_truediv_ok by lia. simpl.
        match goal with |- context [set_row g y ?v] =>
          destruct (set_row_ok pixel_u8 height width g y v)
            as (g' & Hg' & ? & ?); [done | done | apply lerp_color_u8 | lia |]
        end.
        by exists g'. }
      simpl. rewrite (py_range_cons height horizon_y) by lia. simpl.
      rewrite py_truediv_ok by lia. simpl. unfold set_row.
      destruct Hg1 as [Hr1 _]. pose proof (rect_nrows _ _ _ Hr1) as Hn.
      unfold nrows in Hn. by rewrite py_index_raise by lia.
    + rewrite (py_range_empty 0 horizon_y) by lia. simpl.
      rewrite (py_range_cons horizon_y height) by lia. simpl.
      rewrite py_truediv_ok by lia. simpl. unfold set_row.
      rewrite py_index_raise_low; [done|]. rewrite length_replicate. lia.
Qed.

Lemma create_studio_background_failure_modes_witness :
  select_bg_config "studio_white" None = Ok studio_white /\
  create_studio_background (-1) 4 "studio_white" None = Raise ValueError.
Proof.
  assert (select_bg_config "studio_white" None = Ok studio_white) as Hsel
    by reflexivity.
  split; [exact Hsel|].
  destruct (create_studio_background_failure_modes (-1) 4 "studio_white" None
              studio_white Hsel) as (Hneg & _).
  apply Hneg. left. lia.
Defined.

(** ** Fallbacks for unknown names *)


(** ** Cells of derived arrays *)

Lemma cell_Some {A} (g : grid A) (r c : nat) (a : A) :
  cell g r c = Some a <-> exists row, g !! r = Some row /\ row !! c = Some a.
Proof.
  unfold cell. destruct (g !! r) as [row|]; simpl.
  - split; [intros H; by exists row | by intros (row' & [= <-] & H)].
  - split; [done | by intros (? & ? & ?)].
Qed.

Lemma cell_gmap2 {A B} (f : A -> B) (g : grid A) (r c : nat) :
  cell (gmap2 f g) r c = f <$> cell g r c.
Proof.
  unfold cell, gmap2. rewrite list_lookup_fmap.
  destruct (g !! r) as [row|]; simpl; [|done]. apply list_lookup_fmap.
Qed.

Lemma cell_zip_with {A B C} (f : A -> B -> C) (g1 : grid A) (g2 : grid B)
    (r c : nat) (v : C) :
  cell (zip_with (zip_with f) g1 g2) r c = Some v <->
  exists a b, cell g1 r c = Some a /\ cell g2 r c = Some b /\ v = f a b.
Proof.
  rewrite cell_Some. split.
  - intros (row & Hrow & Hc).
    apply lookup_zip_with_Some in Hrow as (r1 & r2 & -> & H1 & H2).
    apply lookup_zip_with_Some in Hc as (a & b & -> & Ha & Hb).
    exists a, b. rewrite !cell_Some. eauto 10.
  - intros (a & b & Ha & Hb & ->).
    apply cell_Some in Ha as (r1 & H1 & Ha). apply cell_Some in Hb as (r2 & H2 & Hb).
    exists (zip_with f r1 r2). split; apply lookup_zip_with_Some; eauto 10.
Qed.

Lemma all_cells_cell {A} (P : A -> Prop) (g : grid A) (r c : nat) (a : A) :
  all_cells P g -> cell g r c = Some a -> P a.
Proof.
  intros Hall Hc. apply cell_Some in Hc as (row & Hrow & Ha).
  unfold all_cells in Hall. rewrite Forall_lookup in Hall.
  specialize (Hall r row Hrow). rewrite Forall_lookup in Hall. by apply (Hall c).
Qed.

Lemma all_cells_intro {A} (P : A -> Prop) (g : grid A) :
  (forall r c a, cell g r c = Some a -> P a) -> all_cells P g.
Proof.
  intros H. apply Forall_lookup. intros r row Hrow.
  apply Forall_lookup. intros c a Ha. apply (H r c). apply cell_Some. eauto.
Qed.

Lemma all_cells_gmap2 {A B} (f : A -> B) (P : A -> Prop) (Q : B -> Prop) (g : grid A) :
  (forall a, P a -> Q (f a)) -> all_cells P g -> all_cells Q (gmap2 f g).
Proof.
  intros Hf Hall. apply all_cells_intro. intros r c b. rewrite cell_gmap2.
  destruct (cell g r c) as [a|] eqn:E; [|done]. intros [= <-].
  apply Hf. by apply (all_cells_cell P g r c).
Qed.

(** ** Shapes *)

Lemma rect_reverse {A} (h w : Z) (g : grid A) : rect h w g -> rect h w (cv_flip0 g).
Proof.
  intros [Hn Hall]. split.
  - unfold nrows, cv_flip0 in *. by rewrite length_reverse.
  - unfold cv_flip0. by apply Forall_reverse.
Qed.

Lemma all_cells_reverse {A} (P : A -> Prop) (g : grid A) :
  all_cells P g -> all_cells P (cv_flip0 g).
Proof. unfold all_cells, cv_flip0. apply Forall_reverse. Qed.

Lemma rect_same_shape {A B} (h w : Z) (g1 : grid A) (g2 : grid B) :
  rect h w g1 -> rect h w g2 -> same_shape g1 g2 = true.
Proof.
  intros [Hn1 Ha1] [Hn2 Ha2]. unfold same_shape. apply bool_decide_eq_true.
  apply list_eq_same_length with (length g1).
  - rewrite length_fmap. unfold nrows in *. lia.
  - by rewrite length_fmap.
  - intros i x y Hi. rewrite !list_lookup_fmap.
    destruct (g1 !! i) as [r1|] eqn:E1; [|done].
    destruct (g2 !! i) as [r2|] eqn:E2; [|done].
    simpl. intros [= <-] [= <-].
    rewrite Forall_lookup in Ha1. rewrite Forall_lookup in Ha2.
    specialize (Ha1 i r1 E1). specialize (Ha2 i r2 E2). simpl in *. lia.
Qed.

Lemma zip2_ok {A B C} (f : A -> B -> C) (h w : Z) (g1 : grid A) (g2 : grid B) :
  rect h w g1 -> rect h w g2 ->
  zip2 f g1 g2 = Ok (zip_with (zip_with f) g1 g2) /\
  rect h w (zip_with (zip_with f) g1 g2).
Proof.
  intros H1 H2. unfold zip2. rewrite (rect_same_shape h w) by done.
  split; [done|]. destruct H1 as [Hn1 Ha1], H2 as [Hn2 Ha2]. split.
  - unfold nrows in *. rewrite length_zip_with. lia.
  - apply Forall_lookup. intros i row Hrow.
    apply lookup_zip_with_Some in Hrow as (r1 & r2 & -> & E1 & E2).
    rewrite Forall_lookup in Ha1. rewrite Forall_lookup in Ha2.
    specialize (Ha1 i r1 E1). specialize (Ha2 i r2 E2). simpl in *.
    rewrite length_zip_with. lia.
Qed.

Lemma rect_warp_shift_down {A} (zero : A) (gap h w : Z) (g : grid A) :
  rect h w g -> rect h w (warp_shift_down zero gap g).
Proof.
  intros Hg. pose proof Hg as [Hn Hall]. unfold warp_shift_down.
  destruct g as [|r g]; [done|]. split.
  - unfold nrows in *. rewrite length_take, length_app. lia.
  - apply Forall_take, Forall_app. split; [|done].
    apply Forall_replicate. rewrite length_replicate.
    inversion Hall; subst. simpl. lia.
Qed.

Lemma all_cells_warp_shift_down {A} (P : A -> Prop) (zero : A) (gap : Z) (g : grid A) :
  P zero -> all_cells P g -> all_cells P (warp_shift_down zero gap g).
Proof.
  intros Hz Hg. unfold warp_shift_down, all_cells.
  apply Forall_take, Forall_app. split; [|done].
  by apply Forall_replicate, Forall_replicate.
Qed.

(** ** The fade gradient of [create_reflection] *)

Lemma for_each_ext {A S} (xs : list A) (f g : S -> A -> result S) (s : S) :
  (forall s x, x ∈ xs -> f s x = g s x) -> for_each xs f s = for_each xs g s.
Proof.
  revert s. induction xs as [|x xs IH]; intros s Hfg; [done|].
  simpl. rewrite Hfg by apply list_elem_of_here.
  destruct (g s x) as [s'|e]; simpl; [|done].
  apply IH. intros s0 y Hy. apply Hfg. by apply list_elem_of_further.
Qed.

Lemma for_each_cons {A S} (x : A) (xs : list A) (body : S -> A -> result S) (s : S) :
  for_each (x :: xs) body s = (s' ← body s x; for_each xs body s').
Proof. reflexivity. Qed.

Lemma set_row_in_range {A} (g : grid A) (y : Z) (v : A) :
  0 <= y < Z.of_nat (length g) ->
  set_row g y v = Ok (alter (fun row => replicate (length row) v) (Z.to_nat y) g).
Proof.
  intros Hy. unfold set_row, py_index.
  by rewrite (proj2 (Z.leb_le 0 y)), (proj2 (Z.ltb_lt y _)) by lia.
Qed.

(** Assigning rows [a, a + 1, ..., a + n - 1] of an array in turn. *)
Lemma for_each_set_row {A} (F : Z -> A) (n : nat) :
  forall (a : Z) (g : grid A),
  0 <= a -> a + Z.of_nat n <= Z.of_nat (length g) ->
  exists g',
    for_each (seqZ a (Z.of_nat n)) (fun g y => set_row g y (F y)) g = Ok g' /\
    length g' = length g /\
    forall (i : nat) row, g !! i = Some row ->
      g' !! i = Some (if bool_decide (a <= Z.of_nat i < a + Z.of_nat n)
                      then replicate (length row) (F (Z.of_nat i)) else row).
Proof.
  induction n as [|n IH]; intros a g Ha Hlen.
  - exists g. split; [done|]. split; [done|]. intros i row Hrow.
    rewrite bool_decide_eq_false_2 by lia. done.
  - rewrite seqZ_cons by lia. rewrite for_each_cons.
    rewrite set_row_in_range by lia.
    set (g1 := alter (fun row => replicate (length row) (F a)) (Z.to_nat a) g).
    destruct (IH (Z.succ a) g1) as (g' & Hg' & Hlen' & Hrows); [lia | |].
    { unfold g1. rewrite length_alter. lia. }
    replace (Z.pred (Z.of_nat (S n))) with (Z.of_nat n) by lia.
    exists g'. split; [exact Hg'|]. split.
    { rewrite Hlen'. unfold g1. by rewrite length_alter. }
    intros i row Hrow.
    destruct (decide (i = Z.to_nat a)) as [-> | Hne].
    + rewrite (Hrows (Z.to_nat a) (replicate (length row) (F a))).
      * rewrite bool_decide_eq_false_2 by lia.
        rewrite bool_decide_eq_true_2 by lia.
        by rewrite Z2Nat.id by lia.
      * unfold g1. rewrite list_lookup_alter_eq, Hrow. done.
    + rewrite (Hrows i row).
      * destruct (bool_decide (Z.succ a <= Z.of_nat i < Z.succ a + Z.of_nat n)) eqn:E.
        -- apply bool_decide_eq_true in E. by rewrite bool_decide_eq_true_2 by lia.
        -- apply bool_decide_eq_false in E. by rewrite bool_decide_eq_false_2 by lia.
      * unfold g1. by rewrite list_lookup_alter_ne.
Qed.
Lemma fade_gradient_loop (h w fade_end : Z) :
  0 <= h -> 0 <= w -> fade_end <= h ->
  exists grad,
    for_each (py_range 0 fade_end)
      (fun gradient y =>
         t ← py_truediv y fade_end;
         set_row gradient y (1 - _ease_out t)%Q)
      (replicate (Z.to_nat h) (replicate (Z.to_nat w) 0%Q)) = Ok grad /\
    rect h w grad /\
    forall r c v, cell grad r c = Some v -> v = fade_value fade_end (Z.of_nat r).
Proof.
  intros Hh Hw Hfe.
  set (g0 := replicate (Z.to_nat h) (replicate (Z.to_nat w) 0%Q)).
  rewrite (for_each_ext _ _
             (fun g y => set_row g y (1 - _ease_out (inject_Z y / inject_Z fade_end))%Q)).
  2:{ intros g y Hy. apply py_range_spec in Hy. by rewrite py_truediv_ok by lia. }
  unfold py_range.
  destruct (for_each_set_row
              (fun y => (1 - _ease_out (inject_Z y / inject_Z fade_end))%Q)
              (Z.to_nat (fade_end - 0)) 0 g0) as (grad & Hgrad & Hlen & Hrows);
    [lia | unfold g0; rewrite length_replicate; lia |].
  exists grad. split.
  { destruct (decide (0 <= fade_end - 0)) as [Hpos | Hneg].
    - by rewrite Z2Nat.id in Hgrad by lia.
    - replace (Z.to_nat (fade_end - 0)) with 0%nat in Hgrad by lia.
      simpl in Hgrad. unfold seqZ. by replace (Z.to_nat (fade_end - 0)) with 0%nat by lia. }
  assert (forall i row, grad !! i = Some row ->
            row = replicate (Z.to_nat w) (fade_value fade_end (Z.of_nat i))) as Hrow.
  { intros i row Hi.
    assert (i < length g0)%nat as Hlt by (rewrite <- Hlen; by eapply lookup_lt_Some).
    assert (g0 !! i = Some (replicate (Z.to_nat w) 0%Q)) as H0.
    { unfold g0. apply lookup_replicate_2. unfold g0 in Hlt.
      by rewrite length_replicate in Hlt. }
    rewrite (Hrows i _ H0) in Hi. inversion Hi as [Heq]. clear Hi.
    rewrite length_replicate. unfold fade_value.
    destruct (bool_decide (0 <= Z.of_nat i < 0 + Z.of_nat (Z.to_nat (fade_end - 0)))) eqn:E.
    - apply bool_decide_eq_true in E. by rewrite bool_decide_eq_true_2 by lia.
    - apply bool_decide_eq_false in E. by rewrite bool_decide_eq_false_2 by lia. }
  split.
  - split.
    + unfold nrows. rewrite Hlen. unfold g0. rewrite length_replicate. lia.
    + apply Forall_lookup. intros i row Hi. rewrite (Hrow i row Hi).
      rewrite length_replicate. lia.
  - intros r c v Hc. apply cell_Some in Hc as (row & Hi & Hv).
    rewrite (Hrow r row Hi) in Hv. by apply lookup_replicate in Hv as [-> _].
Qed.

Lemma reflection_alpha_cell (opacity : Q) (mask : grid Z) (grad : grid Q)
    (r c : nat) (a : Z) :
  cell (gmap2 (fun v => to_uint8 (v * 255))
          (gmap2 (fun v => v * opacity)%Q
             (zip_with (zip_with Qmult)
                (gmap2 (fun v => inject_Z v / 255)%Q mask) grad))) r c = Some a ->
  exists m g, cell mask r c = Some m /\ cell grad r c = Some g /\
              a = to_uint8 (inject_Z m / 255 * g * opacity * 255).
Proof.
  rewrite !cell_gmap2.
  destruct (cell (zip_with _ _ _) r c) as [v|] eqn:E; [|done].
  simpl. intros [= <-].
  apply cell_zip_with in E as (m' & g & Hm & Hg & ->).
  rewrite cell_gmap2 in Hm.
  destruct (cell mask r c) as [m|]; [|done]. simpl in Hm. inversion Hm; subst.
  by exists m, g.
Qed.

Lemma to_uint8_zero (q : Q) : (q == 0)%Q -> to_uint8 q = 0.
Proof.
  intros Hq. unfold to_uint8. rewrite py_int_nonneg.
  - by rewrite Hq.
  - rewrite Hq. discriminate.
Qed.

Lemma fade_end_le (h : Z) (fade_height : Q) :
  0 <= h -> (fade_height <= 1)%Q -> py_int (inject_Z h * fade_height) <= h.
Proof.
  intros Hh Hf.
  assert (0 <= inject_Z h)%Q as Hh' by (change 0%Q with (inject_Z 0); by rewrite <- Zle_Qle).
  assert (inject_Z h * fade_height <= inject_Z h)%Q as Hle.
  { rewrite <- (Qmult_1_r (inject_Z h)) at 2.
    rewrite (Qmult_comm (inject_Z h) fade_height), (Qmult_comm (inject_Z h) 1).
    by apply Qmult_le_compat_r. }
  apply py_int_mono in Hle. rewrite (py_int_nonneg (inject_Z h)) in Hle by done.
  by rewrite Qfloor_Z in Hle.
Qed.

Lemma rect_nonneg {A} (h w : Z) (g : grid A) : rect h w g -> 0 <= h.
Proof. intros [Hn _]. unfold nrows in Hn. lia. Qed.

(** The shape used to allocate the gradient is the shape of the image. *)
Lemma np_zeros_like {A B} (zero : B) (h w : Z) (g : grid A) :
  rect h w g ->
  exists z, np_zeros zero (nrows g) (ncols g) = Ok z /\ rect h w z /\
            z = replicate (Z.to_nat (nrows g)) (replicate (Z.to_nat (ncols g)) zero).
Proof.
  intros Hg. rewrite np_zeros_ok by (apply nrows_nonneg || apply ncols_nonneg).
  eexists. split; [done|]. split; [|done]. by apply zeros_like_shape.
Qed.
Lemma rect_of_like {A B} (h w : Z) (img : grid A) (g : grid B) :
  rect h w img -> rect (nrows img) (ncols img) g -> rect h w g.
Proof.
  intros Himg Hg. destruct (decide (0 < h)) as [Hh | Hh].
  - by rewrite <- (rect_nrows _ _ _ Himg), <- (rect_ncols _ _ _ Himg Hh).
  - pose proof (rect_nrows _ _ _ Himg) as Hn. pose proof (nrows_nonneg img).
    destruct Hg as [Hgn _]. unfold nrows in *.
    destruct g; [|simpl in Hgn; lia]. split; [unfold nrows; simpl in *; lia | constructor].
Qed.

(** ** Reflection synthesis *)

(** [create_reflection] on an image and a mask of one shape, with
    [fade_height <= 1]: nothing raises, and the result is the flipped
    image and the faded alpha, each passed through the optional blur and the
    optional shift. *)
Lemma create_reflection_run `{L : ImageLib} (img : grid pixel) (mask : grid Z)
    (h w : Z) (opacity fade_height : Q) (blur gap : Z) :
  rect h w img -> rect h w mask -> (fade_height <= 1)%Q ->
  exists grad,
    rect h w grad /\
    (forall r c v, cell grad r c = Some v ->
       v = fade_value (py_int (inject_Z h * fade_height)) (Z.of_nat r)) /\
    create_reflection img mask opacity fade_height blur gap =
    let alpha :=
      gmap2 (fun v => to_uint8 (v * 255))
        (gmap2 (fun v => v * opacity)%Q
           (zip_with (zip_with Qmult)
              (gmap2 (fun v => inject_Z v / 255)%Q (cv_flip0 mask)) grad)) in
    let '(r1, m1) :=
      if 0 <? blur
      then (GaussianBlur3 (cv_flip0 img) (blur * 2 + 1),
            GaussianBlur1 alpha (blur * 2 + 1))
      else (cv_flip0 img, alpha) in
    let r2 := _desaturate r1 (2 # 10) in
    let '(r3, m3) :=
      if 0 <? gap
      then (warp_shift_down (0, 0, 0) gap r2, warp_shift_down 0 gap m1)
      else (r2, m1) in
    Ok (r3, m3).
Proof.
  intros Himg Hmask Hfh.
  pose proof (rect_nonneg _ _ _ Himg) as Hh.
  pose proof (rect_nrows _ _ _ Himg) as Hn.
  destruct (fade_gradient_loop (nrows img) (ncols img)
              (py_int (inject_Z (nrows img) * fade_height)))
    as (grad & Hloop & Hgrad & Hcells);
    [apply nrows_nonneg | apply ncols_nonneg | apply fade_end_le; [apply nrows_nonneg | done] |].
  exists grad. rewrite <- Hn. split; [|split; [exact Hcells|]].
  { rewrite Hn. by apply (rect_of_like h w img). }
  unfold create_reflection.
  rewrite np_zeros_ok by (apply nrows_nonneg || apply ncols_nonneg). simpl.
  rewrite Hloop. simpl.
  destruct (zip2_ok Qmult h w
              (gmap2 (fun v => inject_Z v / 255)%Q (cv_flip0 mask)) grad) as [-> _].
  - by apply rect_gmap2, rect_reverse.
  - by apply (rect_of_like h w img).
  - simpl. reflexivity.
Qed.
Lemma inject_Z_nonneg (z : Z) : 0 <= z -> (0 <= inject_Z z)%Q.
Proof. intros Hz. change 0%Q with (inject_Z 0). by rewrite <- Zle_Qle. Qed.

Lemma inject_Z_pos (z : Z) : 0 < z -> (0 < inject_Z z)%Q.
Proof. intros Hz. change 0%Q with (inject_Z 0). by rewrite <- Zlt_Qlt. Qed.

Lemma fade_value_range (fade_end y : Z) : (0 <= fade_value fade_end y <= 1)%Q.
Proof.
  unfold fade_value. case_bool_decide as Hy; [|split; discriminate].
  unfold _ease_out.
  set (t := (inject_Z y / inject_Z fade_end)%Q).
  assert (0 <= t)%Q as Ht0.
  { apply Qle_shift_div_l; [apply inject_Z_pos; lia|].
    rewrite Qmult_0_l. apply inject_Z_nonneg. lia. }
  assert (t <= 1)%Q as Ht1.
  { apply Qle_shift_div_r; [apply inject_Z_pos; lia|].
    rewrite Qmult_1_l. rewrite <- Zle_Qle. lia. }
  split; nra.
Qed.


Lemma fade_value_zero (fade_end y : Z) : fade_end <= y -> fade_value fade_end y = 0%Q.
Proof. intros Hy. unfold fade_value. by rewrite bool_decide_eq_false_2 by lia. Qed.

Lemma to_uint8_floor (q : Q) : (0 <= q <= 255)%Q -> to_uint8 q = Qfloor q.
Proof.
  intros [H0 H1]. unfold to_uint8. rewrite py_int_nonneg by done.
  apply Z.mod_small. split.
  - change 0 with (Qfloor 0). by apply Qfloor_resp_le.
  - apply Z.le_lt_trans with (Qfloor 255); [by apply Qfloor_resp_le | done].
Qed.


(** C6, as stated, fails for [create_reflection]: for a one-pixel white
    image with an all-zero mask (no blur, no gap) the reflection image is the
    white pixel again, whatever the image library is; only the mask is
    zero. *)
Lemma create_reflection_keeps_image :
  ~ (exists (L : ImageLib) (refl : grid pixel) (rmask : grid Z),
       create_reflection (L := L) [[(255, 255, 255)]] [[0]] (2 # 10) (1 # 2) 0 0
       = Ok (refl, rmask) /\
       all_cells (fun p => p = (0, 0, 0)) refl).
Proof.
  intros (L & refl & rmask & Hrun & Hzero).
  vm_compute in Hrun. inversion Hrun; subst.
  apply (all_cells_cell _ _ 0%nat 0%nat (255, 255, 255)) in Hzero; [|reflexivity].
  discriminate.
Qed.

(** C6, amended: when the subject mask has no pixel above zero (image and
    mask of one shape, [fade_height <= 1]), [create_reflection] raises
    nothing and returns a reflection image and an all-zero reflection mask,
    both of the shape of the input; the image is the flipped, blurred and
    desaturated subject image and is not zeroed.
    [create_reflection_extended] returns the all-zero image, the all-zero
    mask and position 0. *)
Theorem reflection_empty_mask `{L : ImageLib} `{!ImageLibLaws L}
    (img : grid pixel) (mask : grid Z) (h w : Z)
    (opacity fade_height : Q) (blur gap : Z)
    (background_height car_y_position : Z) (opacity' max_reflection_height : Q) :
  rect h w img -> rect h w mask ->
  all_cells (fun v => v = 0) mask ->
  (fade_height <= 1)%Q ->
  (exists refl rmask,
     create_reflection img mask opacity fade_height blur gap = Ok (refl, rmask) /\
     rect h w refl /\ rect h w rmask /\ all_cells (fun v => v = 0) rmask) /\
  (exists refl rmask,
     create_reflection_extended img mask background_height car_y_position
       opacity' max_reflection_height = Ok (refl, rmask, 0) /\
     rect h w refl /\ all_cells (fun p => p = (0, 0, 0)) refl /\
     rect h w rmask /\ all_cells (fun v => v = 0) rmask).
Proof.
  intros Himg Hmask Hzero Hfh. split.
  - destruct (create_reflection_run img mask h w opacity fade_height blur gap)
      as (grad & Hgrad & _ & ->); [done..|].
    set (alpha := gmap2 (fun v => to_uint8 (v * 255)) _).
    assert (rect h w alpha) as Halpha.
    { unfold alpha. do 2 apply rect_gmap2.
      apply (zip2_ok Qmult h w); [|done]. by apply rect_gmap2, rect_reverse. }
    assert (all_cells (fun v => v = 0) alpha) as Hazero.
    { apply all_cells_intro. intros r c a Ha.
      apply reflection_alpha_cell in Ha as (m & g & Hm & _ & ->).
      apply (all_cells_cell _ _ _ _ _ (all_cells_reverse _ _ Hzero)) in Hm.
      subst m. apply to_uint8_zero. unfold Qdiv. ring. }
    cbv zeta.
    assert (exists r1 m1,
      (if 0 <? blur
       then (GaussianBlur3 (cv_flip0 img) (blur * 2 + 1),
             GaussianBlur1 alpha (blur * 2 + 1))
       else (cv_flip0 img, alpha)) = (r1, m1) /\
      rect h w r1 /\ rect h w m1 /\ all_cells (fun v => v = 0) m1)
      as (r1 & m1 & -> & Hr1 & Hm1 & Hz1).
    { destruct (0 <? blur); eexists _, _; (split; [reflexivity|]).
      - split; [by apply GaussianBlur3_shape, rect_reverse|].
        split; [by apply GaussianBlur1_shape | by apply GaussianBlur1_zero].
      - split; [by apply rect_reverse | done]. }
    destruct (0 <? gap); eexists _, _; (split; [reflexivity|]).
    + split; [by apply rect_warp_shift_down, rect_gmap2|].
      split; [by apply rect_warp_shift_down | by apply all_cells_warp_shift_down].
    + split; [by apply rect_gmap2 | done].
  - unfold create_reflection_extended.
    rewrite np_where_pos_empty.
    2:{ eapply Forall_impl; [exact Hzero|]. intros row Hrow.
        eapply Forall_impl; [exact Hrow|]. simpl. lia. }
    simpl. rewrite np_zeros_ok by (apply nrows_nonneg || apply ncols_nonneg). simpl.
    eexists _, _. split; [reflexivity|]. split; [by apply rect_gmap2|]. split.
    { apply all_cells_intro. intros r c a. rewrite cell_gmap2.
      destruct (cell img r c); [|done]. by intros [= <-]. }
    split; [by apply zeros_like_shape | by apply all_cells_replicate].
Qed.

Lemma reflection_empty_mask_witness :
  rect 1 1 [[(255, 255, 255)]] /\ rect 1 1 [[0]] /\
  all_cells (fun v => v = 0) [[0]] /\ (1 # 2 <= 1)%Q /\
  exists refl rmask,
    create_reflection (L := PlainLib) [[(255, 255, 255)]] [[0]] (2 # 10) (1 # 2) 2 0
    = Ok (refl, rmask) /\ all_cells (fun v => v = 0) rmask.
Proof.
  assert (rect 1 1 [[(255, 255, 255)]]) as Hi by (split; [reflexivity | repeat constructor]).
  assert (rect 1 1 [[0]]) as Hm by (split; [reflexivity | repeat constructor]).
  assert (all_cells (fun v => v = 0) [[0]]) as Hz by repeat constructor.
  assert (1 # 2 <= 1)%Q as Hf by discriminate.
  split; [exact Hi|]. split; [exact Hm|]. split; [exact Hz|]. split; [exact Hf|].
  destruct (reflection_empty_mask (L := PlainLib) [[(255, 255, 255)]] [[0]] 1 1
              (2 # 10) (1 # 2) 2 0 0 0 (2 # 10) (4 # 10) Hi Hm Hz Hf)
    as [(refl & rmask & Hrun & _ & _ & Hzero) _].
  by exists refl, rmask.
Defined.




(** ** Slices within bounds *)

Lemma py_slice_bound_id (n i : Z) : 0 <= i <= n -> py_slice_bound n i = i.
Proof.
  intros Hi. unfold py_slice_bound.
  rewrite (proj2 (Z.ltb_ge i 0)) by lia. lia.
Qed.

Lemma py_slice_in_range {A} (l : list A) (i j : Z) :
  0 <= i <= j -> j <= Z.of_nat (length l) ->
  py_slice i j l = take (Z.to_nat (j - i)) (drop (Z.to_nat i) l).
Proof.
  intros Hij Hj. unfold py_slice. by rewrite !py_slice_bound_id by lia.
Qed.

Lemma py_slice_length {A} (l : list A) (i j : Z) :
  0 <= i <= j -> j <= Z.of_nat (length l) ->
  length (py_slice i j l) = Z.to_nat (j - i).
Proof.
  intros Hij Hj. rewrite py_slice_in_range by done.
  rewrite length_take, length_drop. lia.
Qed.

Lemma py_slice_lookup {A} (l : list A) (i j : Z) (k : nat) :
  0 <= i <= j -> j <= Z.of_nat (length l) ->
  py_slice i j l !! k =
  if bool_decide (Z.of_nat k < j - i) then l !! (Z.to_nat i + k)%nat else None.
Proof.
  intros Hij Hj. rewrite py_slice_in_range by done. case_bool_decide as Hk.
  - rewrite lookup_take_lt by lia. apply lookup_drop.
  - apply lookup_take_ge. lia.
Qed.

Lemma slice2_rect {A} (g : grid A) (h w r1 r2 c1 c2 : Z) :
  rect h w g -> 0 <= r1 <= r2 -> r2 <= h -> 0 <= c1 <= c2 -> c2 <= w ->
  rect (r2 - r1) (c2 - c1) (slice2 r1 r2 c1 c2 g).
Proof.
  intros [Hn Hrows] Hr1 Hr2 Hc1 Hc2. unfold nrows in Hn. unfold slice2. split.
  - unfold nrows. rewrite length_map, py_slice_length by lia. lia.
  - apply Forall_map. apply Forall_lookup. intros k row Hk. simpl.
    rewrite py_slice_lookup in Hk by lia. case_bool_decide; [|done].
    rewrite Forall_lookup in Hrows. specialize (Hrows _ _ Hk). simpl in Hrows.
    rewrite py_slice_length by lia. lia.
Qed.

Lemma slice2_cell {A} (g : grid A) (h w r1 r2 c1 c2 : Z) (i j : nat) :
  rect h w g -> 0 <= r1 <= r2 -> r2 <= h -> 0 <= c1 <= c2 -> c2 <= w ->
  cell (slice2 r1 r2 c1 c2 g) i j =
  if bool_decide (Z.of_nat i < r2 - r1 /\ Z.of_nat j < c2 - c1)
  then cell g (Z.to_nat r1 + i) (Z.to_nat c1 + j) else None.
Proof.
  intros [Hn Hrows] Hr1 Hr2 Hc1 Hc2. unfold nrows in Hn.
  unfold cell, slice2. rewrite list_lookup_fmap.
  rewrite py_slice_lookup by lia.
  destruct (bool_decide (Z.of_nat i < r2 - r1)) eqn:Ei.
  - apply bool_decide_eq_true in Ei.
    destruct (g !! (Z.to_nat r1 + i)%nat) as [row|] eqn:Erow; simpl.
    + rewrite Forall_lookup in Hrows. specialize (Hrows _ _ Erow). simpl in Hrows.
      rewrite py_slice_lookup by lia.
      destruct (bool_decide (Z.of_nat j < c2 - c1)) eqn:Ej.
      * apply bool_decide_eq_true in Ej. by rewrite bool_decide_eq_true_2.
      * apply bool_decide_eq_false in Ej. rewrite bool_decide_eq_false_2; [done|tauto].
    + by case_bool_decide.
  - apply bool_decide_eq_false in Ei. simpl.
    rewrite bool_decide_eq_false_2; [done|tauto].
Qed.

Lemma splice_length {A} (row new : list A) (c1 c2 : Z) :
  0 <= c1 <= c2 -> c2 <= Z.of_nat (length row) ->
  length new = Z.to_nat (c2 - c1) ->
  length (splice c1 c2 new row) = length row.
Proof.
  intros Hc1 Hc2 Hnew. unfold splice. rewrite !py_slice_bound_id by lia.
  rewrite !length_app, length_take, length_drop. lia.
Qed.

Lemma splice_lookup {A} (row new : list A) (c1 c2 : Z) (j : nat) :
  0 <= c1 <= c2 -> c2 <= Z.of_nat (length row) ->
  length new = Z.to_nat (c2 - c1) ->
  splice c1 c2 new row !! j =
  if bool_decide (c1 <= Z.of_nat j < c2) then new !! (j - Z.to_nat c1)%nat
  else row !! j.
Proof.
  intros Hc1 Hc2 Hnew. unfold splice. rewrite !py_slice_bound_id by lia.
  replace (Z.max c1 c2) with c2 by lia.
  destruct (decide (Z.of_nat j < c1)) as [Hlt | Hge].
  - rewrite bool_decide_eq_false_2 by lia.
    rewrite lookup_app_l by (rewrite length_take; lia).
    apply lookup_take_lt. lia.
  - rewrite lookup_app_r by (rewrite length_take; lia).
    rewrite length_take. replace (Z.to_nat c1 `min` length row)%nat with (Z.to_nat c1) by lia.
    case_bool_decide as Hin.
    + apply lookup_app_l. lia.
    + rewrite lookup_app_r by lia. rewrite lookup_drop. f_equal. lia.
Qed.

Lemma set_slice2_spec {A} (g v : grid A) (h w r1 r2 c1 c2 : Z) :
  rect h w g -> 0 <= r1 <= r2 -> r2 <= h -> 0 <= c1 <= c2 -> c2 <= w ->
  rect (r2 - r1) (c2 - c1) v ->
  exists g',
    set_slice2 r1 r2 c1 c2 v g = Ok g' /\ rect h w g' /\
    forall i j : nat,
      cell g' i j =
      if bool_decide ((r1 <= Z.of_nat i < r2) /\ (c1 <= Z.of_nat j < c2))
      then cell v (i - Z.to_nat r1) (j - Z.to_nat c1)
      else cell g i j.
Proof.
  intros Hg Hr1 Hr2 Hc1 Hc2 Hv. unfold set_slice2.
  rewrite (rect_same_shape (r2 - r1) (c2 - c1)); [|by apply (slice2_rect g h w)|done].
  pose proof Hg as [Hn Hrows]. pose proof Hv as [Hvn Hvrows]. unfold nrows in Hn, Hvn.
  rewrite !py_slice_bound_id by lia. replace (Z.max r1 r2) with r2 by lia.
  set (mid := zip_with (splice c1 c2) v (py_slice r1 r2 g)).
  assert (length mid = Z.to_nat (r2 - r1)) as Hmid.
  { unfold mid. rewrite length_zip_with, py_slice_length by lia. lia. }
  assert (forall k row, mid !! k = Some row ->
            exists vrow grow, v !! k = Some vrow /\ g !! (Z.to_nat r1 + k)%nat = Some grow /\
                              row = splice c1 c2 vrow grow /\
                              length vrow = Z.to_nat (c2 - c1) /\
                              Z.of_nat (length grow) = w) as Hmidrow.
  { intros k row Hk. unfold mid in Hk.
    apply lookup_zip_with_Some in Hk as (vrow & grow & -> & Hvk & Hgk).
    rewrite py_slice_lookup in Hgk by lia. case_bool_decide; [|done].
    exists vrow, grow. repeat split; try done.
    - rewrite Forall_lookup in Hvrows. specialize (Hvrows _ _ Hvk). simpl in Hvrows. lia.
    - rewrite Forall_lookup in Hrows. by specialize (Hrows _ _ Hgk). }
  eexists. split; [reflexivity|]. split.
  - split.
    + unfold nrows. rewrite !length_app, length_take, length_drop, Hmid. lia.
    + apply Forall_app. split; [by apply Forall_take|].
      apply Forall_app. split; [|by apply Forall_drop].
      apply Forall_lookup. intros k row Hk. simpl.
      destruct (Hmidrow k row Hk) as (vrow & grow & _ & _ & -> & Hlv & Hlg).
      rewrite splice_length by lia. done.
  - intros i j. unfold cell.
    destruct (decide (Z.of_nat i < r1)) as [Hlt | Hge].
    { rewrite lookup_app_l by (rewrite length_take; lia).
      rewrite lookup_take_lt by lia.
      rewrite bool_decide_eq_false_2; [done | lia]. }
    rewrite lookup_app_r by (rewrite length_take; lia).
    rewrite length_take. replace (Z.to_nat r1 `min` length g)%nat with (Z.to_nat r1) by lia.
    destruct (decide (Z.of_nat i < r2)) as [Hin | Hout].
    + rewrite lookup_app_l by lia.
      destruct (mid !! (i - Z.to_nat r1)%nat) as [row|] eqn:Erow.
      2:{ apply lookup_ge_None_1 in Erow. lia. }
      destruct (Hmidrow _ _ Erow) as (vrow & grow & Hvk & Hgk & -> & Hlv & Hlg).
      replace (Z.to_nat r1 + (i - Z.to_nat r1))%nat with i in Hgk by lia.
      rewrite Hvk, Hgk. simpl. rewrite splice_lookup by lia.
      destruct (bool_decide (c1 <= Z.of_nat j < c2)) eqn:Ej.
      * apply bool_decide_eq_true in Ej. by rewrite bool_decide_eq_true_2 by lia.
      * apply bool_decide_eq_false in Ej. rewrite bool_decide_eq_false_2; [done | tauto].
    + rewrite lookup_app_r by lia. rewrite lookup_drop, Hmid.
      rewrite bool_decide_eq_false_2 by lia. do 2 f_equal. lia.
Qed.
Lemma rect_cell {A} (g : grid A) (h w : Z) (r c : nat) :
  rect h w g -> Z.of_nat r < h -> Z.of_nat c < w -> exists a, cell g r c = Some a.
Proof.
  intros [Hn Hrows] Hr Hc. unfold nrows in Hn.
  destruct (lookup_lt_is_Some_2 g r) as [row Hrow]; [lia|].
  rewrite Forall_lookup in Hrows. pose proof (Hrows _ _ Hrow) as Hlen. simpl in Hlen.
  destruct (lookup_lt_is_Some_2 row c) as [a Ha]; [lia|].
  exists a. apply cell_Some. eauto.
Qed.

(** The common core of [_blend_layer] and [add_reflection_to_composite]:
    blending a layer region and a mask region of the shape of the target
    region into that region of the base. *)
Lemma blend_region_spec (base : grid fpixel) (lr : grid pixel) (mr : grid Z)
    (bh bw r1 r2 c1 c2 : Z) :
  rect bh bw base -> 0 <= r1 <= r2 -> r2 <= bh -> 0 <= c1 <= c2 -> c2 <= bw ->
  rect (r2 - r1) (c2 - c1) lr -> rect (r2 - r1) (c2 - c1) mr ->
  exists base',
    (lm ← zip2 pair lr mr;
     v ← zip2 (fun b '(l, m) => alpha_blend b l m) (slice2 r1 r2 c1 c2 base) lm;
     set_slice2 r1 r2 c1 c2 v base) = Ok base' /\
    rect bh bw base' /\
    forall i j : nat,
      if bool_decide ((r1 <= Z.of_nat i < r2) /\ (c1 <= Z.of_nat j < c2))
      then exists b l m,
             cell base i j = Some b /\
             cell lr (i - Z.to_nat r1) (j - Z.to_nat c1) = Some l /\
             cell mr (i - Z.to_nat r1) (j - Z.to_nat c1) = Some m /\
             cell base' i j = Some (alpha_blend b l m)
      else cell base' i j = cell base i j.
Proof.
  intros Hbase Hr1 Hr2 Hc1 Hc2 Hlr Hmr.
  destruct (zip2_ok pair _ _ lr mr Hlr Hmr) as [-> Hlm]. simpl.
  pose proof (slice2_rect base bh bw r1 r2 c1 c2 Hbase Hr1 Hr2 Hc1 Hc2) as Hbr.
  destruct (zip2_ok (fun b '(l, m) => alpha_blend b l m) _ _ _ _ Hbr Hlm) as [-> Hv].
  simpl.
  destruct (set_slice2_spec base _ bh bw r1 r2 c1 c2 Hbase Hr1 Hr2 Hc1 Hc2 Hv)
    as (base' & -> & Hrect' & Hcells).
  exists base'. split; [done|]. split; [done|].
  intros i j. rewrite Hcells. case_bool_decide as Hin; [|done].
  destruct Hin as [Hi Hj].
  set (i' := (i - Z.to_nat r1)%nat). set (j' := (j - Z.to_nat c1)%nat).
  destruct (rect_cell _ _ _ i' j' Hbr) as [b Hb]; [lia..|].
  destruct (rect_cell _ _ _ i' j' Hlm) as [[l m] Hl]; [lia..|].
  apply cell_zip_with in Hl as (l0 & m0 & Hl0 & Hm0 & [= -> ->]).
  exists b, l0, m0. split; [|split; [done|split; [done|]]].
  - rewrite (slice2_cell base bh bw) in Hb by done.
    rewrite bool_decide_eq_true_2 in Hb by lia.
    by replace (Z.to_nat r1 + i')%nat with i in Hb by lia;
       replace (Z.to_nat c1 + j')%nat with j in Hb by lia.
  - apply cell_zip_with. exists b, (l0, m0). split; [done|]. split; [|done].
    apply cell_zip_with. eauto.
Qed.
Lemma clip_cast_u8 (v : Z) : is_u8 v -> to_uint8 (np_clip 0 255 (inject_Z v)) = v.
Proof.
  intros [H0 H1]. unfold np_clip.
  rewrite (proj2 (Qltb_ge (inject_Z v) 0)) by (by apply inject_Z_nonneg).
  rewrite (proj2 (Qltb_ge 255 (inject_Z v))).
  2:{ change 255%Q with (inject_Z 255). rewrite <- Zle_Qle. lia. }
  rewrite to_uint8_floor.
  - apply Qfloor_Z.
  - split; [by apply inject_Z_nonneg|].
    change 255%Q with (inject_Z 255). rewrite <- Zle_Qle. lia.
Qed.

Lemma clip_cast_pixel (p : pixel) :
  pixel_u8 p -> pmap3 (fun v => to_uint8 (np_clip 0 255 v)) (pmap3 inject_Z p) = p.
Proof.
  destruct p as [[a b] c]. intros (Ha & Hb & Hc). simpl.
  by rewrite !clip_cast_u8.
Qed.

Lemma clip_to_uint8_to_float (g : grid pixel) :
  all_cells pixel_u8 g -> clip_to_uint8 (to_float g) = g.
Proof.
  intros Hg. unfold clip_to_uint8, to_float, gmap2.
  rewrite map_map. rewrite <- (map_id g) at 2. apply map_ext_Forall.
  eapply Forall_impl; [exact Hg|]. intros row Hrow. simpl.
  rewrite map_map. rewrite <- (map_id row) at 2. apply map_ext_Forall.
  eapply Forall_impl; [exact Hrow|]. intros p Hp. by apply clip_cast_pixel.
Qed.

(** ** Clipping *)

(** C2: a layer (image and alpha mask of one shape) blended at any integer
    position [(x, y)], by [_blend_layer] or by
    [add_reflection_to_composite], raises nothing and returns a canvas of
    unchanged shape.  Every cell outside the intersection of the layer's
    rectangle with the canvas is left as it was; every cell [(r, c)] inside
    it is the alpha composite of the old cell with the layer cell
    [(r - y, c - x)], which lies within the layer and its mask: no index
    wraps around and nothing outside the arrays is read. *)
Theorem blend_clipped (base : grid fpixel) (background layer : grid pixel)
    (mask : grid Z) (bh bw lh lw x y : Z) :
  rect bh bw base -> rect bh bw background -> all_cells pixel_u8 background ->
  rect lh lw layer -> rect lh lw mask ->
  (exists base',
     _blend_layer base layer mask x y = Ok base' /\ rect bh bw base' /\
     forall r c,
       blended_cell (cell base r c) (cell base' r c) id id cvtColor_BGR2RGB
                    layer mask bh bw lh lw x y r c) /\
  (exists out,
     add_reflection_to_composite background layer mask x y = Ok out /\
     rect bh bw out /\
     forall r c,
       blended_cell (cell background r c) (cell out r c) (pmap3 inject_Z)
                    (pmap3 (fun v => to_uint8 (np_clip 0 255 v))) id
                    layer mask bh bw lh lw x y r c).
Proof.
  intros Hbase Hbg Hu8 Hlayer Hmask.
  pose proof (rect_nrows _ _ _ Hbase) as Hbn. pose proof (rect_nrows _ _ _ Hbg) as Hgn.
  pose proof (rect_nrows _ _ _ Hlayer) as Hln.
  pose proof (rect_nonneg _ _ _ Hbase) as Hbh. pose proof (rect_nonneg _ _ _ Hlayer) as Hlh.
  pose proof (ncols_nonneg base) as Hbc. pose proof (ncols_nonneg background) as Hgc.
  pose proof (ncols_nonneg layer) as Hlc.
  split.
  - unfold _blend_layer. rewrite Hbn, Hln.
    destruct ((Z.min (ncols base) (x + ncols layer) <=? Z.max 0 x)
              || (Z.min bh (y + lh) <=? Z.max 0 y)) eqn:Hcond.
    + exists base. split; [done|]. split; [done|]. intros r c. split; [|done].
      intros [[Hr Hc] [Hy Hx]]. exfalso.
      rewrite (rect_ncols _ _ _ Hbase) in Hcond by lia.
      rewrite (rect_ncols _ _ _ Hlayer) in Hcond by lia.
      apply orb_true_iff in Hcond as [Hcond | Hcond]; apply Z.leb_le in Hcond; lia.
    + apply orb_false_iff in Hcond as [Hx Hy].
      apply Z.leb_gt in Hx. apply Z.leb_gt in Hy.
      assert (0 < bh) as Hbh' by lia. assert (0 < lh) as Hlh' by lia.
      rewrite (rect_ncols _ _ _ Hbase) in * by done.
      rewrite (rect_ncols _ _ _ Hlayer) in * by done.
      set (y1 := Z.max 0 y) in *. set (y2 := Z.min bh (y + lh)) in *.
      set (x1 := Z.max 0 x) in *. set (x2 := Z.min bw (x + lw)) in *.
      set (ly1 := Z.max 0 (- y)). set (lx1 := Z.max 0 (- x)).
      assert (rect (y2 - y1) (x2 - x1)
                (slice2 ly1 (ly1 + (y2 - y1)) lx1 (lx1 + (x2 - x1)) layer)) as Hlr.
      { replace (y2 - y1) with ((ly1 + (y2 - y1)) - ly1) at 1 by lia.
        replace (x2 - x1) with ((lx1 + (x2 - x1)) - lx1) at 1 by lia.
        apply (slice2_rect layer lh lw); [done | lia..]. }
      assert (rect (y2 - y1) (x2 - x1)
                (slice2 ly1 (ly1 + (y2 - y1)) lx1 (lx1 + (x2 - x1)) mask)) as Hmr.
      { replace (y2 - y1) with ((ly1 + (y2 - y1)) - ly1) at 1 by lia.
        replace (x2 - x1) with ((lx1 + (x2 - x1)) - lx1) at 1 by lia.
        apply (slice2_rect mask lh lw); [done | lia..]. }
      destruct (blend_region_spec base
                  (gmap2 cvtColor_BGR2RGB
                     (slice2 ly1 (ly1 + (y2 - y1)) lx1 (lx1 + (x2 - x1)) layer))
                  (slice2 ly1 (ly1 + (y2 - y1)) lx1 (lx1 + (x2 - x1)) mask)
                  bh bw y1 y2 x1 x2)
        as (base' & -> & Hrect' & Hcells);
        [done | lia | lia | lia | lia | by apply rect_gmap2 | done |].
      exists base'. split; [done|]. split; [done|]. intros r c.
      specialize (Hcells r c). split.
      * intros [[Hr Hc] [Hyr Hxc]].
        rewrite bool_decide_eq_true_2 in Hcells by lia.
        destruct Hcells as (b & l & m & Hb & Hl & Hm & Hnew).
        split; [lia|]. split; [lia|].
        rewrite cell_gmap2, (slice2_cell layer lh lw) in Hl by (done || lia).
        rewrite (slice2_cell mask lh lw) in Hm by (done || lia).
        rewrite bool_decide_eq_true_2 in Hl, Hm by lia.
        replace (Z.to_nat ly1 + (r - Z.to_nat y1))%nat
          with (Z.to_nat (Z.of_nat r - y)) in Hl, Hm by lia.
        replace (Z.to_nat lx1 + (c - Z.to_nat x1))%nat
          with (Z.to_nat (Z.of_nat c - x)) in Hl, Hm by lia.
        destruct (cell layer _ _) as [l0|] eqn:El0; [|done].
        simpl in Hl. inversion Hl; subst l.
        exists b, l0, m. by repeat split.
      * intros Hout. rewrite bool_decide_eq_false_2 in Hcells; [done|].
        intros [Hr Hc]. apply Hout. unfold in_overlap. lia.
  - unfold add_reflection_to_composite. rewrite Hgn, Hln.
    destruct ((Z.min bh (y + lh) <=? Z.max 0 y)
              || (Z.min (ncols background) (x + ncols layer) <=? Z.max 0 x)) eqn:Hcond.
    + exists background. split; [done|]. split; [done|]. intros r c. split; [|done].
      intros [[Hr Hc] [Hy Hx]]. exfalso.
      rewrite (rect_ncols _ _ _ Hbg) in Hcond by lia.
      rewrite (rect_ncols _ _ _ Hlayer) in Hcond by lia.
      apply orb_true_iff in Hcond as [Hcond | Hcond]; apply Z.leb_le in Hcond; lia.
    + apply orb_false_iff in Hcond as [Hy Hx].
      apply Z.leb_gt in Hx. apply Z.leb_gt in Hy.
      assert (0 < bh) as Hbh' by lia. assert (0 < lh) as Hlh' by lia.
      rewrite (rect_ncols _ _ _ Hbg) in * by done.
      rewrite (rect_ncols _ _ _ Hlayer) in * by done.
      set (y1 := Z.max 0 y) in *. set (y2 := Z.min bh (y + lh)) in *.
      set (x1 := Z.max 0 x) in *. set (x2 := Z.min bw (x + lw)) in *.
      set (ry1 := Z.max 0 (- y)). set (ry2 := Z.min lh (bh - y)).
      set (rx1 := Z.max 0 (- x)). set (rx2 := Z.min lw (bw - x)).
      assert (rect (y2 - y1) (x2 - x1) (slice2 ry1 ry2 rx1 rx2 layer)) as Hlr.
      { replace (y2 - y1) with (ry2 - ry1) by lia.
        replace (x2 - x1) with (rx2 - rx1) by lia.
        apply (slice2_rect layer lh lw); [done | lia..]. }
      assert (rect (y2 - y1) (x2 - x1) (slice2 ry1 ry2 rx1 rx2 mask)) as Hmr.
      { replace (y2 - y1) with (ry2 - ry1) by lia.
        replace (x2 - x1) with (rx2 - rx1) by lia.
        apply (slice2_rect mask lh lw); [done | lia..]. }
      destruct (blend_region_spec (to_float background)
                  (slice2 ry1 ry2 rx1 rx2 layer) (slice2 ry1 ry2 rx1 rx2 mask)
                  bh bw y1 y2 x1 x2)
        as (base' & Hrun & Hrect' & Hcells);
        [by apply rect_gmap2 | lia | lia | lia | lia | done | done |].
      destruct (zip2 pair _ _) as [lm|e] eqn:Elm; [|done]. simpl in *.
      destruct (zip2 _ (slice2 y1 y2 x1 x2 (to_float background)) lm) as [v|e] eqn:Ev;
        [|done]. simpl in *. rewrite Hrun. simpl.
      eexists. split; [reflexivity|]. split; [by apply rect_gmap2|]. intros r c.
      specialize (Hcells r c). unfold clip_to_uint8. rewrite cell_gmap2. split.
      * intros [[Hr Hc] [Hyr Hxc]].
        rewrite bool_decide_eq_true_2 in Hcells by lia.
        destruct Hcells as (b & l & m & Hb & Hl & Hm & Hnew).
        split; [lia|]. split; [lia|].
        rewrite (slice2_cell layer lh lw) in Hl by (done || lia).
        rewrite (slice2_cell mask lh lw) in Hm by (done || lia).
        rewrite bool_decide_eq_true_2 in Hl, Hm by lia.
        replace (Z.to_nat ry1 + (r - Z.to_nat y1))%nat
          with (Z.to_nat (Z.of_nat r - y)) in Hl, Hm by lia.
        replace (Z.to_nat rx1 + (c - Z.to_nat x1))%nat
          with (Z.to_nat (Z.of_nat c - x)) in Hl, Hm by lia.
        unfold to_float in Hb. rewrite cell_gmap2 in Hb.
        destruct (rect_cell background bh bw r c Hbg) as [b0 Eb0]; [lia..|].
        rewrite Eb0 in Hb |- *. simpl in Hb. inversion Hb; subst b.
        exists b0, l, m. rewrite Hnew. by repeat split.
      * intros Hout. rewrite bool_decide_eq_false_2 in Hcells.
        2:{ intros [Hr Hc]. apply Hout. unfold in_overlap. lia. }
        rewrite Hcells. unfold to_float. rewrite cell_gmap2.
        destruct (cell background r c) as [p|] eqn:Ep; [|done]. simpl.
        f_equal. apply clip_cast_pixel. by apply (all_cells_cell _ background r c).
Qed.
Lemma blend_clipped_witness :
  rect 2 2 [[(200, 100, 50); (200, 100, 50)]; [(200, 100, 50); (200, 100, 50)]] /\
  rect 2 2 [[(1, 2, 3); (4, 5, 6)]; [(7, 8, 9); (10, 11, 12)]] /\
  rect 2 2 [[255; 255]; [255; 255]] /\
  exists out,
    add_reflection_to_composite
      [[(200, 100, 50); (200, 100, 50)]; [(200, 100, 50); (200, 100, 50)]]
      [[(1, 2, 3); (4, 5, 6)]; [(7, 8, 9); (10, 11, 12)]]
      [[255; 255]; [255; 255]] 1 (-1) = Ok out /\
    cell out 1 1 = Some (200, 100, 50).
Proof.
  assert (rect 2 2 [[(200, 100, 50); (200, 100, 50)]; [(200, 100, 50); (200, 100, 50)]])
    as Hb by (split; [reflexivity | repeat constructor]).
  assert (rect 2 2 [[(1, 2, 3); (4, 5, 6)]; [(7, 8, 9); (10, 11, 12)]])
    as Hl by (split; [reflexivity | repeat constructor]).
  assert (rect 2 2 [[255; 255]; [255; 255]])
    as Hm by (split; [reflexivity | repeat constructor]).
  split; [exact Hb|]. split; [exact Hl|]. split; [exact Hm|].
  destruct (blend_clipped
              (to_float [[(200, 100, 50); (200, 100, 50)]; [(200, 100, 50); (200, 100, 50)]])
              _ _ _ 2 2 2 2 1 (-1) (rect_gmap2 _ _ _ _ Hb) Hb
              ltac:(repeat constructor; unfold is_u8; lia) Hl Hm)
    as [_ (out & Hout & _ & Hcells)].
  exists out. split; [exact Hout|].
  destruct (Hcells 1%nat 1%nat) as [_ Hkeep].
  apply Hkeep. unfold in_overlap. lia.
Defined.
(** ** Channel loops *)

Lemma same_shape_zip_with {A B C} (f : A -> B -> C) (g1 : grid A) (g2 : grid B) :
  same_shape g1 g2 = true -> same_shape (zip_with (zip_with f) g1 g2) g2 = true.
Proof.
  unfold same_shape. rewrite !bool_decide_eq_true. revert g2.
  induction g1 as [|r1 g1 IH]; intros [|r2 g2] Heq; try done.
  rewrite !fmap_cons in Heq. injection Heq as Hlen Hrest.
  change (zip_with (zip_with f) (r1 :: g1) (r2 :: g2))
    with (zip_with f r1 r2 :: zip_with (zip_with f) g1 g2).
  rewrite !fmap_cons. f_equal.
  - rewrite length_zip_with. lia.
  - by apply IH.
Qed.

Lemma zip_with_twice {A B} (f g : A -> B -> A) (l : list A) (k : list B) :
  zip_with f (zip_with g l k) k = zip_with (fun a b => f (g a b) b) l k.
Proof.
  revert k. induction l as [|a l IH]; intros [|b k]; simpl; try done.
  by rewrite IH.
Qed.

Lemma zip_with_twice2 {A B} (f g : A -> B -> A) (g1 : grid A) (g2 : grid B) :
  zip_with (zip_with f) (zip_with (zip_with g) g1 g2) g2
  = zip_with (zip_with (fun a b => f (g a b) b)) g1 g2.
Proof.
  revert g2. induction g1 as [|r1 g1 IH]; intros [|r2 g2]; simpl; try done.
  by rewrite IH, zip_with_twice.
Qed.

Lemma bind_Ok {A B} (a : A) (k : A -> result B) : (Ok a ≫= k) = k a.
Proof. reflexivity. Qed.

Lemma bind_Raise {A B} (e : exn) (k : A -> result B) : (Raise e ≫= k) = Raise e.
Proof. reflexivity. Qed.

Lemma zip_with_ext2 {A B C} (f g : A -> B -> C) (g1 : grid A) (g2 : grid B) :
  (forall a b, f a b = g a b) ->
  zip_with (zip_with f) g1 g2 = zip_with (zip_with g) g1 g2.
Proof.
  intros Hfg. apply zip_with_ext; [|done..]. intros r1 r2.
  by apply zip_with_ext.
Qed.

(** Three passes, one per channel, amount to one pass that applies the
    operation to every channel of a cell. *)
Lemma channel_loop {B} (op : Q -> B -> Q) (base : grid fpixel) (s : grid B) :
  for_each (py_range 0 3)
    (fun base c => zip2 (fun p v => set_chan c (op (get_chan c p) v) p) base s)
    base
  = zip2 (fun p v => pmap3 (fun ch => op ch v) p) base s.
Proof.
  change (py_range 0 3) with [0; 1; 2]. rewrite for_each_cons.
  unfold zip2. destruct (same_shape base s) eqn:E; [|done].
  rewrite bind_Ok, for_each_cons, same_shape_zip_with by done.
  rewrite bind_Ok, for_each_cons.
  rewrite same_shape_zip_with by (by apply same_shape_zip_with).
  rewrite bind_Ok. simpl. rewrite !zip_with_twice2. f_equal.
  apply zip_with_ext2. by intros [[a b] c] v.
Qed.

Lemma zip2_gmap2_r {A B B' C} (f : A -> B' -> C) (h : B -> B')
    (g1 : grid A) (g2 : grid B) :
  zip2 f g1 (gmap2 h g2) = zip2 (fun a b => f a (h b)) g1 g2.
Proof.
  unfold zip2, same_shape, gmap2.
  assert (length <$> map (map h) g2 = length <$> g2) as ->.
  { induction g2 as [|r g2 IH]; [done|]. simpl. rewrite length_map.
    f_equal. apply IH. }
  case_bool_decide as Hs; [|done]. f_equal.
  clear Hs. revert g2. induction g1 as [|r1 g1 IH]; intros [|r2 g2]; simpl; try done.
  f_equal; [|apply IH]. apply zip_with_fmap_r.
Qed.

(** ** The layer order *)

Lemma blend_shadow_darken `{L : ImageLib} (base : grid fpixel) (shadow : grid Z)
    (x y : Z) :
  _blend_shadow base shadow x y = apply_layer base (Darken shadow).
Proof.
  unfold _blend_shadow, apply_layer, darken.
  destruct (if negb (nrows shadow =? nrows base) || negb (ncols shadow =? ncols base)
            then _ else _) as [s|e]; [|done].
  rewrite !bind_Ok. unfold darken_channel.
  rewrite (channel_loop (fun ch s => ch * (1 - s))%Q).
  by rewrite zip2_gmap2_r.
Qed.

Lemma for_each_present_shadow `{L : ImageLib}
    (shadows : gmap string (option (grid Z))) (name : string) (base : grid fpixel) :
  match shadows !! name with
  | None => Ok base
  | Some None => Ok base
  | Some (Some shadow) =>
      if is_empty shadow then Ok base else _blend_shadow base shadow 0 0
  end
  = for_each (present_shadow shadows name) apply_layer base.
Proof.
  unfold present_shadow. destruct (shadows !! name) as [[s|]|]; try done.
  destruct (is_empty s); [done|].
  rewrite blend_shadow_darken, for_each_cons.
  by destruct (apply_layer base (Darken s)).
Qed.

Lemma for_each_concat_map {A B S} (F : A -> list B)
    (body : S -> A -> result S) (step : S -> B -> result S) (xs : list A) (s : S) :
  (forall s x, body s x = for_each (F x) step s) ->
  for_each xs body s = for_each (concat (map F xs)) step s.
Proof.
  intros Hbody. revert s. induction xs as [|x xs IH]; intros s; [done|].
  simpl. rewrite for_each_app, Hbody.
  destruct (for_each (F x) step s) as [s'|e]; [|done]. simpl. apply IH.
Qed.

Lemma composite_final_shadow_loop `{L : ImageLib}
    (shadows : gmap string (option (grid Z))) (base : grid fpixel) :
  for_each ["drop"; "ambient"; "contact"]
    (fun result shadow_type =>
       match shadows !! shadow_type with
       | None => Ok result
       | Some None => Ok result
       | Some (Some shadow) =>
           if is_empty shadow then Ok result
           else _blend_shadow result shadow 0 0
       end) base
  = for_each (present_shadow shadows "drop" ++ present_shadow shadows "ambient"
              ++ present_shadow shadows "contact") apply_layer base.
Proof.
  rewrite (for_each_concat_map (present_shadow shadows) _ apply_layer).
  - simpl. by rewrite app_nil_r.
  - intros s x. apply for_each_present_shadow.
Qed.

Lemma composite_shadows_loop
    (step : grid fpixel -> grid Z -> result (grid fpixel))
    (shadows : gmap string (grid Z)) (base : grid fpixel) :
  for_each ["drop"; "ambient"; "contact"]
    (fun result shadow_type =>
       match shadows !! shadow_type with
       | None => Ok result
       | Some shadow => step result shadow
       end) base
  = for_each (shadow_stack shadows) step base.
Proof.
  rewrite (for_each_concat_map (fun name => option_list (shadows !! name)) _ step).
  - f_equal. unfold shadow_stack. simpl.
    by destruct (shadows !! "drop"), (shadows !! "ambient"), (shadows !! "contact").
  - intros s x. destruct (shadows !! x) as [sh|]; [|done]. simpl.
    by destruct (step s sh).
Qed.
(** C1, as stated, fails for [composite_shadows]: with blend mode
    ['overlay'] a drop shadow of intensity 255 over a background cell of
    value 200 leaves 100 on every channel, where the darken rule
    [200 * (1 - 255 / 255)] gives 0. *)
Lemma composite_shadows_overlay_subtracts :
  composite_shadows [[(200, 200, 200)]] {["drop" := [[255]]]} "overlay"
  = Ok [[(100, 100, 100)]] /\
  (result ← darken (to_float [[(200, 200, 200)]]) [[255]];
   Ok (clip_to_uint8 result)) = Ok [[(0, 0, 0)]].
Proof. split; reflexivity. Qed.

(** C1, amended: [composite_final] applies the layers bottom to top in the
    fixed order background, reflection, drop shadow, ambient shadow, contact
    shadow, subject (a missing, [None] or empty layer is skipped); every
    shadow layer, resized to the canvas when its shape differs, is blended
    by the darken rule [result * (1 - intensity / 255)] on every channel.
    [composite_shadows] applies the darken rule in the order drop, ambient,
    contact when the blend mode is ['multiply']; for any other blend mode it
    subtracts [(intensity / 255) * 100] from every channel instead. *)
Theorem compositing_order `{L : ImageLib}
    (background car_image : grid pixel) (car_mask : grid Z)
    (shadows : gmap string (option (grid Z)))
    (reflection : option (grid pixel)) (reflection_mask : option (grid Z))
    (car_position : option (Z * Z)) (output_size : option (Z * Z))
    (layers : gmap string (grid Z)) (blend_mode : string) :
  composite_final background car_image car_mask shadows reflection
    reflection_mask car_position output_size
  = ('(out_w, out_h, bg) ←
       match output_size with
       | Some (out_w, out_h) =>
           bg ← cv_resize (resize3 INTER_LINEAR) background out_w out_h;
           Ok (out_w, out_h, bg)
       | None => Ok (ncols background, nrows background, background)
       end;
     let '(x, y) :=
       match car_position with
       | None => default_car_position out_w out_h (ncols car_image) (nrows car_image)
       | Some p => p
       end in
     result ← for_each
                (layer_stack shadows reflection reflection_mask car_image car_mask x y)
                apply_layer (to_float bg);
     Ok (clip_to_uint8 result)) /\
  (forall base intensity base' r c p v,
     darken base intensity = Ok base' ->
     cell base r c = Some p -> cell intensity r c = Some v ->
     cell base' r c = Some (pmap3 (fun ch => ch * (1 - inject_Z v / 255))%Q p)) /\
  composite_shadows background layers "multiply"
  = (result ← for_each (shadow_stack layers) darken (to_float background);
     Ok (clip_to_uint8 result)) /\
  (String.eqb blend_mode "multiply" = false ->
   composite_shadows background layers blend_mode
   = (result ← for_each (shadow_stack layers) (zip2 subtract_rule)
                 (to_float background);
      Ok (clip_to_uint8 result))).
Proof.
  split; [|split; [|split]].
  - unfold composite_final.
    destruct (match output_size with Some _ => _ | None => _ end)
      as [[[out_w out_h] bg]|e]; [|done].
    rewrite !bind_Ok. cbv beta iota zeta.
    destruct (match car_position with None => _ | Some p => p end) as [x y].
    unfold layer_stack. rewrite for_each_app.
    assert (match reflection, reflection_mask with
            | Some reflection0, Some reflection_mask0 =>
                _blend_layer (to_float bg) reflection0 reflection_mask0 x
                  (y + nrows car_image)
            | _, _ => Ok (to_float bg)
            end
            = for_each
                match reflection, reflection_mask with
                | Some r, Some m => [Over r m x (y + nrows car_image)]
                | _, _ => []
                end apply_layer (to_float bg)) as ->.
    { destruct reflection as [r|], reflection_mask as [m|]; try done.
      rewrite for_each_cons. simpl. by destruct (_blend_layer _ _ _ _ _). }
    destruct (for_each _ apply_layer (to_float bg)) as [b1|e]; [|done].
    rewrite !bind_Ok. rewrite composite_final_shadow_loop.
    replace (present_shadow shadows "drop" ++ present_shadow shadows "ambient"
             ++ present_shadow shadows "contact" ++ [Over car_image car_mask x y])
      with ((present_shadow shadows "drop" ++ present_shadow shadows "ambient"
             ++ present_shadow shadows "contact") ++ [Over car_image car_mask x y])
      by (by rewrite <- !app_assoc).
    rewrite (for_each_app _ [Over car_image car_mask x y]).
    destruct (for_each _ apply_layer b1) as [b2|e]; [|done].
    rewrite !bind_Ok, for_each_cons. simpl.
    by destruct (_blend_layer b2 car_image car_mask x y).
  - intros base intensity base' r c p v Hd Hp Hv. unfold darken, zip2 in Hd.
    destruct (same_shape base intensity); [|done]. inversion Hd; subst base'.
    apply cell_zip_with. exists p, v. by repeat split.
  - unfold composite_shadows.
    rewrite <- (composite_shadows_loop darken).
    f_equal. apply for_each_ext. intros s name _.
    destruct (layers !! name) as [sh|]; [|done].
    change (String.eqb "multiply" "multiply") with true. cbv iota zeta.
    unfold darken_channel.
    rewrite (channel_loop (fun ch s => ch * (1 - s))%Q).
    by rewrite zip2_gmap2_r.
  - intros Hmode. unfold composite_shadows. rewrite Hmode.
    rewrite <- (composite_shadows_loop (zip2 subtract_rule)).
    f_equal. apply for_each_ext. intros s name _.
    destruct (layers !! name) as [sh|]; [|done]. cbv iota zeta.
    unfold subtract_channel.
    rewrite (channel_loop (fun ch s => ch - s * 100)%Q).
    by rewrite zip2_gmap2_r.
Qed.

Lemma compositing_order_witness :
  String.eqb "overlay" "multiply" = false /\
  composite_shadows [[(200, 200, 200)]] {["drop" := [[255]]]} "overlay"
  = (result ← for_each (shadow_stack {["drop" := [[255]]]}) (zip2 subtract_rule)
                (to_float [[(200, 200, 200)]]);
     Ok (clip_to_uint8 result)).
Proof.
  split; [reflexivity|].
  destruct (compositing_order (L := PlainLib) [[(200, 200, 200)]] [] [] ∅ None None
              None None {["drop" := [[255]]]} "overlay") as (_ & _ & _ & Hsub).
  by apply Hsub.
Defined.
(** * Further properties *)

(** ** The studio background in closed form *)

Lemma seqZ_lookup_of_nat (n : Z) (i : nat) :
  Z.of_nat i < n -> seqZ 0 n !! i = Some (Z.of_nat i).
Proof. intros Hi. by rewrite lookup_seqZ_lt by lia. Qed.

Lemma create_studio_background_rows (width height : Z) (preset : string)
    (custom_config : option bg_config) (config : bg_config) :
  select_bg_config preset custom_config = Ok config ->
  0 <= width -> 0 <= height ->
  0 <= py_int (inject_Z height * horizon_position config) <= height ->
  create_studio_background width height preset custom_config
  = Ok ((fun y => replicate (Z.to_nat width) (background_row config height y))
        <$> seqZ 0 height).
Proof.
  intros Hcfg Hw Hh Hhor. unfold create_studio_background.
  rewrite Hcfg, bind_Ok. cbv beta zeta. rewrite np_zeros_ok, bind_Ok by done.
  cbv beta.
  set (hy := py_int (inject_Z height * horizon_position config)) in *.
  set (g0 := replicate (Z.to_nat height) (replicate (Z.to_nat width) (0, 0, 0))).
  set (wall := fun y : Z =>
    lerp_color (top_color config) (horizon_color config)
      (_ease_in_out (inject_Z y / inject_Z hy))).
  set (floor := fun y : Z =>
    lerp_color (horizon_color config) (floor_color config)
      (_ease_in_out (inject_Z (y - hy) / inject_Z (height - hy)
                     * default (3 # 10) (floor_gradient config)
                     + (1 - default (3 # 10) (floor_gradient config))))%Q).
  rewrite (for_each_ext _ _ (fun g y => set_row g y (wall y))).
  2:{ intros g y Hy. apply py_range_spec in Hy. by rewrite py_truediv_ok by lia. }
  unfold py_range.
  destruct (for_each_set_row wall (Z.to_nat (hy - 0)) 0 g0)
    as (g1 & Hg1 & Hlen1 & Hrows1);
    [lia | unfold g0; rewrite length_replicate; lia |].
  rewrite Z2Nat.id in Hg1 by lia. rewrite Hg1, bind_Ok. cbv beta.
  rewrite (for_each_ext _ _ (fun g y => set_row g y (floor y))).
  2:{ intros g y Hy. apply elem_of_seqZ in Hy. by rewrite py_truediv_ok by lia. }
  destruct (for_each_set_row floor (Z.to_nat (height - hy)) hy g1)
    as (g2 & Hg2 & Hlen2 & Hrows2);
    [lia | rewrite Hlen1; unfold g0; rewrite length_replicate; lia |].
  rewrite Z2Nat.id in Hg2 by lia. rewrite Hg2, bind_Ok. cbv beta. f_equal.
  assert (length g0 = Z.to_nat height) as Hlen0
    by (unfold g0; by rewrite length_replicate).
  apply list_eq_same_length with (Z.to_nat height);
    [by rewrite length_fmap, length_seqZ | lia |].
  intros i r1 r2 Hi Hr1 Hr2.
  rewrite list_lookup_fmap, seqZ_lookup_of_nat in Hr2 by lia.
  simpl in Hr2. inversion Hr2; subst r2. clear Hr2.
  assert (g0 !! i = Some (replicate (Z.to_nat width) (0, 0, 0))) as H0
    by (apply lookup_replicate_2; lia).
  pose proof (Hrows1 i _ H0) as H1. rewrite length_replicate in H1.
  pose proof (Hrows2 i _ H1) as H2. rewrite Hr1 in H2. inversion H2 as [Heq].
  unfold background_row. fold hy.
  destruct (bool_decide (hy <= Z.of_nat i < hy + Z.of_nat (Z.to_nat (height - hy)))) eqn:E2.
  - apply bool_decide_eq_true in E2.
    rewrite (proj2 (Z.ltb_ge (Z.of_nat i) hy)) by lia.
    destruct (bool_decide _); by rewrite length_replicate.
  - apply bool_decide_eq_false in E2.
    rewrite (proj2 (Z.ltb_lt (Z.of_nat i) hy)) by lia.
    by rewrite bool_decide_eq_true_2 by lia.
Qed.
Lemma ease_in_out_range (t : Q) : (0 <= t <= 1)%Q -> (0 <= _ease_in_out t <= 1)%Q.
Proof.
  intros [H0 H1]. unfold _ease_in_out.
  assert (0 <= t * t)%Q by nra. assert (t * t <= 1)%Q by nra.
  assert (t * t <= t)%Q by nra.
  split; [nra|].
  assert (0 <= (1 - t) * (1 - t) * (1 + 2 * t))%Q.
  { apply Qmult_le_0_compat; [|lra]. nra. }
  assert ((1 - t) * (1 - t) * (1 + 2 * t) == 1 - t * t * (3 - 2 * t))%Q as Heq by ring.
  rewrite Heq in *. lra.
Qed.

Lemma ease_in_out_mono (t1 t2 : Q) :
  (0 <= t1)%Q -> (t1 <= t2)%Q -> (t2 <= 1)%Q -> (_ease_in_out t1 <= _ease_in_out t2)%Q.
Proof.
  intros H0 H12 H1. unfold _ease_in_out.
  assert ((t2 * t2 * (3 - 2 * t2) - t1 * t1 * (3 - 2 * t1)
           == (t2 - t1) * (3 * (t1 + t2) - 2 * (t1 * t1 + t1 * t2 + t2 * t2)))%Q) as Heq
    by ring.
  assert (0 <= (t2 - t1) * (3 * (t1 + t2) - 2 * (t1 * t1 + t1 * t2 + t2 * t2)))%Q.
  { apply Qmult_le_0_compat; [lra|].
    assert (t1 * t1 <= t1)%Q by nra. assert (t2 * t2 <= t2)%Q by nra.
    assert (t1 * t2 <= t1)%Q by nra. assert (t1 * t2 <= t2)%Q by nra.
    lra. }
  rewrite <- Heq in *. lra.
Qed.

Lemma get_chan_lerp_color (ch : Z) (a b : pixel) (t : Q) :
  get_chan ch (lerp_color a b t)
  = to_uint8 (inject_Z (get_chan ch a)
              + (inject_Z (get_chan ch b) - inject_Z (get_chan ch a)) * t).
Proof.
  destruct a as [[a0 a1] a2], b as [[b0 b1] b2]. unfold lerp_color. simpl.
  by destruct (ch =? 0), (ch =? 1).
Qed.

Lemma inject_Z_u8 (v : Z) : is_u8 v -> (0 <= inject_Z v <= 255)%Q.
Proof.
  intros [H0 H1]. split; [by apply inject_Z_nonneg|].
  change 255%Q with (inject_Z 255). rewrite <- Zle_Qle. lia.
Qed.

Lemma Qfloor_le_Z (q : Q) (z : Z) : (q <= inject_Z z)%Q -> Qfloor q <= z.
Proof. intros H. apply Qfloor_resp_le in H. by rewrite Qfloor_Z in H. Qed.

Lemma Z_le_Qfloor (q : Q) (z : Z) : (inject_Z z <= q)%Q -> z <= Qfloor q.
Proof. intros H. apply Qfloor_resp_le in H. by rewrite Qfloor_Z in H. Qed.

(** A blend [a + (b - a) * e] of two [uint8] values with [e] in [0, 1],
    truncated: it stays between the two values and moves from [a] towards
    [b] as [e] grows. *)
Lemma lerp_value_towards (a b : Z) (e1 e2 : Q) :
  is_u8 a -> is_u8 b -> (0 <= e1)%Q -> (e1 <= e2)%Q -> (e2 <= 1)%Q ->
  let v e := to_uint8 (inject_Z a + (inject_Z b - inject_Z a) * e) in
  (a <= b -> a <= v e1 <= v e2 /\ v e2 <= b) /\
  (b <= a -> b <= v e2 <= v e1 /\ v e1 <= a).
Proof.
  intros Ha Hb H0 H12 H1 v.
  pose proof (inject_Z_u8 a Ha) as [Ha0 Ha1].
  pose proof (inject_Z_u8 b Hb) as [Hb0 Hb1].
  assert (forall e, (0 <= e <= 1)%Q ->
            v e = Qfloor (inject_Z a + (inject_Z b - inject_Z a) * e)) as Hv.
  { intros e [He0 He1]. unfold v. apply to_uint8_floor.
    destruct (Z.le_ge_cases a b) as [Hab | Hab];
      rewrite Zle_Qle in Hab; split; nra. }
  rewrite !Hv by (split; lra).
  split; intros Hab; pose proof Hab as Hab'; rewrite Zle_Qle in Hab'.
  - split; [split|].
    + apply Z_le_Qfloor. nra.
    + apply Qfloor_resp_le. nra.
    + apply Qfloor_le_Z. nra.
  - split; [split|].
    + apply Z_le_Qfloor. nra.
    + apply Qfloor_resp_le. nra.
    + apply Qfloor_le_Z. nra.
Qed.

Lemma get_chan_u8 (ch : Z) (p : pixel) : pixel_u8 p -> is_u8 (get_chan ch p).
Proof.
  destruct p as [[a b] c]. intros (Ha & Hb & Hc). simpl.
  by destruct (ch =? 0), (ch =? 1).
Qed.

Lemma Qdiv_nonneg_lt_1 (a b : Z) : 0 <= a < b -> (0 <= inject_Z a / inject_Z b < 1)%Q.
Proof.
  intros Hab. split.
  - apply Qle_shift_div_l; [apply inject_Z_pos; lia|].
    rewrite Qmult_0_l. apply inject_Z_nonneg. lia.
  - apply Qlt_shift_div_r; [apply inject_Z_pos; lia|].
    rewrite Qmult_1_l. rewrite <- Zlt_Qlt. lia.
Qed.

Lemma Qdiv_mono_num (a1 a2 b : Z) :
  a1 <= a2 -> 0 < b -> (inject_Z a1 / inject_Z b <= inject_Z a2 / inject_Z b)%Q.
Proof.
  intros Ha Hb. unfold Qdiv. apply Qmult_le_compat_r.
  - by rewrite <- Zle_Qle.
  - apply Qlt_le_weak, Qinv_lt_0_compat, inject_Z_pos. done.
Qed.
#[global] Instance py_int_proper : Proper (Qeq ==> eq) py_int.
Proof.
  intros x y Hxy. unfold py_int. rewrite Hxy.
  destruct (Qle_bool 0 y); by rewrite Hxy.
Qed.

#[global] Instance to_uint8_proper : Proper (Qeq ==> eq) to_uint8.
Proof. intros x y Hxy. unfold to_uint8. by rewrite Hxy. Qed.

#[global] Instance np_clip_proper : Proper (Qeq ==> Qeq ==> Qeq ==> Qeq) np_clip.
Proof.
  intros lo lo' Hlo hi hi' Hhi x y Hxy. unfold np_clip, Qltb.
  rewrite (Qleb_comp lo lo' Hlo x y Hxy), (Qleb_comp x y Hxy hi hi' Hhi).
  destruct (Qle_bool lo' y); simpl; [|done].
  destruct (Qle_bool y hi'); simpl; done.
Qed.

Lemma to_uint8_inject_Z (v : Z) : is_u8 v -> to_uint8 (inject_Z v) = v.
Proof.
  intros Hv. rewrite to_uint8_floor by (by apply inject_Z_u8). apply Qfloor_Z.
Qed.

Lemma lerp_color_start (a b : pixel) (t : Q) :
  pixel_u8 a -> (t == 0)%Q -> lerp_color a b t = a.
Proof.
  destruct a as [[a0 a1] a2], b as [[b0 b1] b2]. intros (H0 & H1 & H2) Ht.
  unfold lerp_color. simpl.
  assert (forall x y : Z, is_u8 x ->
            to_uint8 (inject_Z x + (inject_Z y - inject_Z x) * t) = x) as Hx.
  { intros x y Hx. transitivity (to_uint8 (inject_Z x));
      [|by apply to_uint8_inject_Z].
    apply to_uint8_proper. rewrite Ht. ring. }
  by rewrite !Hx.
Qed.

Lemma cell_rows {A} (F : Z -> A) (w h : Z) (y x : nat) (p : A) :
  cell ((fun y => replicate (Z.to_nat w) (F y)) <$> seqZ 0 h) y x = Some p ->
  p = F (Z.of_nat y) /\ Z.of_nat y < h /\ Z.of_nat x < w.
Proof.
  intros Hc. apply cell_Some in Hc as (row & Hrow & Hp).
  rewrite list_lookup_fmap in Hrow.
  destruct (seqZ 0 h !! y) as [z|] eqn:Ez; [|done].
  apply lookup_seqZ in Ez as [-> Hy]. simpl in Hrow. inversion Hrow; subst row.
  apply lookup_replicate in Hp as [-> Hx]. split; [f_equal; lia|]. lia.
Qed.

(** ** Extra properties of the background generator *)


(** X2: along the wall the gradient moves monotonically from the top colour
    to the horizon colour and never overshoots either.  For [uint8] top and
    horizon colours and a horizon position in [0, 1]: row 0 is exactly the
    top colour, and for rows [y1 <= y2] above the horizon row every channel
    of row [y2] lies between the channel of row [y1] and the horizon
    colour's. *)
Theorem studio_background_wall_monotone (width height : Z) (preset : string)
    (custom_config : option bg_config) (config : bg_config) (bg : grid pixel)
    (ch : Z) (x y1 y2 : nat) (p1 p2 : pixel) :
  select_bg_config preset custom_config = Ok config ->
  pixel_u8 (top_color config) -> pixel_u8 (horizon_color config) ->
  0 <= width -> 0 <= height ->
  (0 <= horizon_position config <= 1)%Q ->
  create_studio_background width height preset custom_config = Ok bg ->
  (y1 <= y2)%nat ->
  Z.of_nat y2 < py_int (inject_Z height * horizon_position config) ->
  cell bg y1 x = Some p1 -> cell bg y2 x = Some p2 ->
  let top := get_chan ch (top_color config) in
  let hor := get_chan ch (horizon_color config) in
  (y1 = 0%nat -> p1 = top_color config) /\
  (top <= hor -> top <= get_chan ch p1 <= get_chan ch p2 /\ get_chan ch p2 <= hor) /\
  (hor <= top -> hor <= get_chan ch p2 <= get_chan ch p1 /\ get_chan ch p1 <= top).
Proof.
  intros Hcfg Htop Hhor Hw Hh Hhp Hbg Hy Hy2 Hc1 Hc2 top hor.
  pose proof (horizon_row_in_canvas height _ Hh Hhp) as Hrow.
  rewrite (create_studio_background_rows _ _ _ _ config) in Hbg by done.
  inversion Hbg; subst bg. clear Hbg.
  apply cell_rows in Hc1 as (-> & _ & _). apply cell_rows in Hc2 as (-> & _ & _).
  unfold background_row.
  set (hy := py_int (inject_Z height * horizon_position config)) in *.
  rewrite !(proj2 (Z.ltb_lt _ hy)) by lia.
  split.
  - intros ->. apply lerp_color_start; [done|].
    unfold _ease_in_out. change (inject_Z (Z.of_nat 0)) with 0%Q. unfold Qdiv. ring.
  - rewrite !get_chan_lerp_color. fold top hor.
    pose proof (Qdiv_nonneg_lt_1 (Z.of_nat y1) hy ltac:(lia)) as [H10 H11].
    pose proof (Qdiv_nonneg_lt_1 (Z.of_nat y2) hy ltac:(lia)) as [H20 H21].
    pose proof (Qdiv_mono_num (Z.of_nat y1) (Z.of_nat y2) hy ltac:(lia) ltac:(lia)) as H12.
    apply (lerp_value_towards top hor).
    + by apply get_chan_u8.
    + by apply get_chan_u8.
    + apply ease_in_out_range. split; [done | by apply Qlt_le_weak].
    + apply ease_in_out_mono; [done | done | by apply Qlt_le_weak].
    + apply ease_in_out_range. split; [done | by apply Qlt_le_weak].
Qed.

Lemma studio_background_wall_monotone_witness :
  exists bg p1 p2,
    create_studio_background 2 10 "studio_dark" None = Ok bg /\
    cell bg 1 0 = Some p1 /\ cell bg 4 0 = Some p2 /\
    60 <= get_chan 0 p2 <= get_chan 0 p1 /\ get_chan 0 p1 <= 90.
Proof.
  assert (select_bg_config "studio_dark" None
          = Ok (mk_preset (90, 90, 90) (60, 60, 60) (35, 35, 35) (65 # 100) (4 # 10)))
    as Hsel by reflexivity.
  destruct (create_studio_background_ok 2 10 "studio_dark" None _ Hsel)
    as (bg & Hbg & Hrect & _); [lia | lia | vm_compute; split; discriminate |].
  destruct (rect_cell bg 10 2 1 0 Hrect) as [p1 H1]; [lia | lia |].
  destruct (rect_cell bg 10 2 4 0 Hrect) as [p2 H2]; [lia | lia |].
  exists bg, p1, p2. split; [exact Hbg|]. split; [exact H1|]. split; [exact H2|].
  assert (pixel_u8 (90, 90, 90)) as Hu1 by (repeat split; unfold is_u8; lia).
  assert (pixel_u8 (60, 60, 60)) as Hu2 by (repeat split; unfold is_u8; lia).
  assert (0 <= 65 # 100 <= 1)%Q as Hhp by (split; discriminate).
  assert (Z.of_nat 4 < py_int (inject_Z 10 * (65 # 100))) as Hrow by reflexivity.
  destruct (studio_background_wall_monotone 2 10 "studio_dark" None _ bg 0 0 1 4 p1 p2
              Hsel Hu1 Hu2 ltac:(lia) ltac:(lia) Hhp Hbg ltac:(lia) Hrow H1 H2)
    as (_ & _ & Hdown).
  apply Hdown. simpl. lia.
Defined.

(** X3: along the floor the gradient moves monotonically towards the floor
    colour and stays between the horizon and the floor colour.  For [uint8]
    horizon and floor colours, a horizon position in [0, 1] and a floor
    gradient intensity in [0, 1]: for rows [y1 <= y2] from the horizon row
    on, every channel of row [y2] lies between the channel of row [y1] and
    the floor colour's. *)
Theorem studio_background_floor_monotone (width height : Z) (preset : string)
    (custom_config : option bg_config) (config : bg_config) (bg : grid pixel)
    (ch : Z) (x y1 y2 : nat) (p1 p2 : pixel) :
  select_bg_config preset custom_config = Ok config ->
  pixel_u8 (horizon_color config) -> pixel_u8 (floor_color config) ->
  0 <= width -> 0 <= height ->
  (0 <= horizon_position config <= 1)%Q ->
  (0 <= default (3 # 10) (floor_gradient config) <= 1)%Q ->
  create_studio_background width height preset custom_config = Ok bg ->
  py_int (inject_Z height * horizon_position config) <= Z.of_nat y1 ->
  (y1 <= y2)%nat ->
  cell bg y1 x = Some p1 -> cell bg y2 x = Some p2 ->
  let hor := get_chan ch (horizon_color config) in
  let flo := get_chan ch (floor_color config) in
  (hor <= flo -> hor <= get_chan ch p1 <= get_chan ch p2 /\ get_chan ch p2 <= flo) /\
  (flo <= hor -> flo <= get_chan ch p2 <= get_chan ch p1 /\ get_chan ch p1 <= hor).
Proof.
  intros Hcfg Hhor Hflo Hw Hh Hhp Hfg Hbg Hy1 Hy Hc1 Hc2 hor flo.
  pose proof (horizon_row_in_canvas height _ Hh Hhp) as Hrow.
  rewrite (create_studio_background_rows _ _ _ _ config) in Hbg by done.
  inversion Hbg; subst bg. clear Hbg.
  apply cell_rows in Hc1 as (-> & Hy1h & _). apply cell_rows in Hc2 as (-> & Hy2h & _).
  unfold background_row.
  set (hy := py_int (inject_Z height * horizon_position config)) in *.
  set (fg := default (3 # 10) (floor_gradient config)) in *.
  rewrite !(proj2 (Z.ltb_ge _ hy)) by lia.
  rewrite !get_chan_lerp_color. fold hor flo.
  pose proof (Qdiv_nonneg_lt_1 (Z.of_nat y1 - hy) (height - hy) ltac:(lia)) as [H10 H11].
  pose proof (Qdiv_nonneg_lt_1 (Z.of_nat y2 - hy) (height - hy) ltac:(lia)) as [H20 H21].
  pose proof (Qdiv_mono_num (Z.of_nat y1 - hy) (Z.of_nat y2 - hy) (height - hy)
                ltac:(lia) ltac:(lia)) as H12.
  destruct Hfg as [Hfg0 Hfg1].
  set (t1 := (inject_Z (Z.of_nat y1 - hy) / inject_Z (height - hy))%Q) in *.
  set (t2 := (inject_Z (Z.of_nat y2 - hy) / inject_Z (height - hy))%Q) in *.
  apply (lerp_value_towards hor flo).
  - by apply get_chan_u8.
  - by apply get_chan_u8.
  - apply ease_in_out_range. split; nra.
  - apply ease_in_out_mono; nra.
  - apply ease_in_out_range. split; nra.
Qed.

Lemma studio_background_floor_monotone_witness :
  exists bg p1 p2,
    create_studio_background 2 10 "studio_dark" None = Ok bg /\
    cell bg 7 0 = Some p1 /\ cell bg 9 0 = Some p2 /\
    35 <= get_chan 2 p2 <= get_chan 2 p1 /\ get_chan 2 p1 <= 60.
Proof.
  assert (select_bg_config "studio_dark" None
          = Ok (mk_preset (90, 90, 90) (60, 60, 60) (35, 35, 35) (65 # 100) (4 # 10)))
    as Hsel by reflexivity.
  destruct (create_studio_background_ok 2 10 "studio_dark" None _ Hsel)
    as (bg & Hbg & Hrect & _); [lia | lia | vm_compute; split; discriminate |].
  destruct (rect_cell bg 10 2 7 0 Hrect) as [p1 H1]; [lia | lia |].
  destruct (rect_cell bg 10 2 9 0 Hrect) as [p2 H2]; [lia | lia |].
  exists bg, p1, p2. split; [exact Hbg|]. split; [exact H1|]. split; [exact H2|].
  assert (pixel_u8 (60, 60, 60)) as Hu1 by (repeat split; unfold is_u8; lia).
  assert (pixel_u8 (35, 35, 35)) as Hu2 by (repeat split; unfold is_u8; lia).
  assert (0 <= 65 # 100 <= 1)%Q as Hhp by (split; discriminate).
  assert (0 <= 4 # 10 <= 1)%Q as Hfg by (split; discriminate).
  assert (py_int (inject_Z 10 * (65 # 100)) <= Z.of_nat 7) as Hrow
    by (vm_compute; discriminate).
  destruct (studio_background_floor_monotone 2 10 "studio_dark" None _ bg 2 0 7 9 p1 p2
              Hsel Hu1 Hu2 ltac:(lia) ltac:(lia) Hhp Hfg Hbg Hrow ltac:(lia) H1 H2)
    as (_ & Hdown).
  apply Hdown. simpl. lia.
Defined.
(** ** Row updates and per-cell maps *)

Lemma for_each_alter_rows {A} (F : Z -> list A -> list A) (n : nat) :
  forall (a : Z) (g : grid A),
  0 <= a -> a + Z.of_nat n <= Z.of_nat (length g) ->
  exists g',
    for_each (seqZ a (Z.of_nat n))
      (fun g y => i ← py_index g y; Ok (alter (F y) i g)) g = Ok g' /\
    length g' = length g /\
    forall (i : nat) row, g !! i = Some row ->
      g' !! i = Some (if bool_decide (a <= Z.of_nat i < a + Z.of_nat n)
                      then F (Z.of_nat i) row else row).
Proof.
  induction n as [|n IH]; intros a g Ha Hlen.
  - exists g. split; [done|]. split; [done|]. intros i row Hrow.
    rewrite bool_decide_eq_false_2 by lia. done.
  - rewrite seqZ_cons by lia. rewrite for_each_cons.
    assert (py_index g a = Ok (Z.to_nat a)) as ->.
    { unfold py_index.
      by rewrite (proj2 (Z.leb_le 0 a)), (proj2 (Z.ltb_lt a _)) by lia. }
    rewrite bind_Ok. cbv beta. rewrite bind_Ok. cbv beta.
    set (g1 := alter (F a) (Z.to_nat a) g).
    destruct (IH (Z.succ a) g1) as (g' & Hg' & Hlen' & Hrows); [lia | |].
    { unfold g1. rewrite length_alter. lia. }
    replace (Z.pred (Z.of_nat (S n))) with (Z.of_nat n) by lia.
    exists g'. split; [exact Hg'|]. split.
    { rewrite Hlen'. unfold g1. by rewrite length_alter. }
    intros i row Hrow.
    destruct (decide (i = Z.to_nat a)) as [-> | Hne].
    + rewrite (Hrows (Z.to_nat a) (F a row)).
      * rewrite bool_decide_eq_false_2 by lia.
        rewrite bool_decide_eq_true_2 by lia.
        by rewrite Z2Nat.id by lia.
      * unfold g1. rewrite list_lookup_alter_eq, Hrow. done.
    + rewrite (Hrows i row).
      * destruct (bool_decide (Z.succ a <= Z.of_nat i < Z.succ a + Z.of_nat n)) eqn:E.
        -- apply bool_decide_eq_true in E. by rewrite bool_decide_eq_true_2 by lia.
        -- apply bool_decide_eq_false in E. by rewrite bool_decide_eq_false_2 by lia.
      * unfold g1. by rewrite list_lookup_alter_ne.
Qed.

Lemma np_clip_range (lo hi x : Q) : (lo <= hi)%Q -> (lo <= np_clip lo hi x <= hi)%Q.
Proof.
  intros Hlh. unfold np_clip.
  destruct (Qltb x lo) eqn:E1; [split; [apply Qle_refl | done]|].
  apply Qltb_ge in E1.
  destruct (Qltb hi x) eqn:E2; [split; [done | apply Qle_refl]|].
  apply Qltb_ge in E2. by split.
Qed.

Lemma np_clip_ge (lo hi x v : Q) :
  (lo <= hi)%Q -> (v <= x)%Q -> (v <= hi)%Q -> (v <= np_clip lo hi x)%Q.
Proof.
  intros Hlh Hx Hhi. unfold np_clip.
  destruct (Qltb x lo) eqn:E1.
  - apply Qltb_lt in E1. apply Qle_trans with x; [done | by apply Qlt_le_weak].
  - destruct (Qltb hi x) eqn:E2; done.
Qed.

Lemma np_clip_le (lo hi x v : Q) :
  (lo <= hi)%Q -> (x <= v)%Q -> (lo <= v)%Q -> (np_clip lo hi x <= v)%Q.
Proof.
  intros Hlh Hx Hlo. unfold np_clip.
  destruct (Qltb x lo) eqn:E1; [done|].
  destruct (Qltb hi x) eqn:E2; [|done].
  apply Qltb_lt in E2. apply Qle_trans with x; [by apply Qlt_le_weak | done].
Qed.

(** A [uint8] value scaled by a factor of at least 1, clipped and cast
    back, does not decrease. *)
Lemma brighten_u8 (v : Z) (factor : Q) :
  is_u8 v -> (1 <= factor)%Q ->
  v <= to_uint8 (np_clip 0 255 (inject_Z v * factor)) <= 255.
Proof.
  intros Hv Hf. pose proof (inject_Z_u8 v Hv) as [H0 H1].
  pose proof (np_clip_range 0 255 (inject_Z v * factor) ltac:(discriminate)) as Hr.
  rewrite to_uint8_floor by done. split.
  - apply Z_le_Qfloor. apply np_clip_ge; [discriminate | nra | done].
  - apply Qfloor_le_Z. apply Hr.
Qed.

(** A [uint8] value scaled by a factor in [0, 1] and cast back does not
    increase. *)
Lemma darken_u8 (v : Z) (factor : Q) :
  is_u8 v -> (0 <= factor <= 1)%Q -> 0 <= to_uint8 (inject_Z v * factor) <= v.
Proof.
  intros Hv [Hf0 Hf1]. pose proof (inject_Z_u8 v Hv) as [H0 H1].
  rewrite to_uint8_floor by (split; nra). split.
  - apply Z_le_Qfloor. change (inject_Z 0) with 0%Q. nra.
  - apply Qfloor_le_Z. nra.
Qed.

Lemma cell_imap2 {A B} (f : nat -> nat -> A -> B) (g : grid A) (r c : nat) :
  cell (imap (fun y row => imap (fun x p => f y x p) row) g) r c
  = f r c <$> cell g r c.
Proof.
  unfold cell. rewrite list_lookup_imap.
  destruct (g !! r) as [row|]; simpl; [|done]. by rewrite list_lookup_imap.
Qed.

Lemma rect_imap2 {A B} (f : nat -> nat -> A -> B) (h w : Z) (g : grid A) :
  rect h w g -> rect h w (imap (fun y row => imap (fun x p => f y x p) row) g).
Proof.
  intros [Hn Hrows]. split.
  - unfold nrows in *. by rewrite length_imap.
  - apply Forall_lookup. intros i row Hi. rewrite list_lookup_imap in Hi.
    destruct (g !! i) as [row0|] eqn:E; [|done]. simpl in Hi. inversion Hi; subst.
    rewrite length_imap. rewrite Forall_lookup in Hrows. by apply (Hrows i).
Qed.
Lemma to_float_cast (p : pixel) : pixel_u8 p -> pmap3 to_uint8 (pmap3 inject_Z p) = p.
Proof.
  destruct p as [[a b] c]. intros (Ha & Hb & Hc). simpl.
  by rewrite !to_uint8_inject_Z.
Qed.

Lemma get_chan_pmap3 {A B} (f : A -> B) (ch : Z) (p : A * A * A) :
  get_chan ch (pmap3 f p) = f (get_chan ch p).
Proof. destruct p as [[a b] c]. simpl. by destruct (ch =? 0), (ch =? 1). Qed.

Lemma pixel_u8_pmap3 {A} (f : A -> Z) (p : A * A * A) :
  (forall a, is_u8 (f a)) -> pixel_u8 (pmap3 f p).
Proof. destruct p as [[a b] c]. intros Hf. simpl. auto. Qed.

(** [add_floor_reflection_area] in closed form: the rows from the horizon
    row [int(h * 0.65)] on are scaled by their factor and clipped; the loop
    never raises. *)
Lemma add_floor_reflection_area_rows (background : grid pixel)
    (reflection_opacity : Q) :
  let h := nrows background in
  let horizon_y := py_int (inject_Z h * (65 # 100)) in
  0 <= horizon_y <= h /\
  exists out,
    add_floor_reflection_area background reflection_opacity = Ok out /\
    length out = length background /\
    forall (y : nat) (row : list pixel),
      background !! y = Some row ->
      out !! y =
      Some (map (fun p =>
                   if bool_decide (horizon_y <= Z.of_nat y) then
                     let t := (inject_Z (Z.of_nat y - horizon_y)
                               / inject_Z (h - horizon_y))%Q in
                     let factor := (1 + (1 - t) * reflection_opacity)%Q in
                     pmap3 (fun v => to_uint8 (np_clip 0 255 (inject_Z v * factor))) p
                   else pmap3 (fun v => to_uint8 (inject_Z v)) p) row).
Proof.
  intros h horizon_y.
  assert (0 <= horizon_y <= h) as Hhor.
  { apply horizon_row_in_canvas; [apply nrows_nonneg | split; discriminate]. }
  split; [exact Hhor|].
  assert (h = Z.of_nat (length background)) as Hh by reflexivity.
  unfold add_floor_reflection_area. fold h. fold horizon_y.
  set (F := fun (y : Z) (row : list fpixel) =>
    map (pmap3 (fun v => np_clip 0 255
                 (v * (1 + (1 - inject_Z (y - horizon_y) / inject_Z (h - horizon_y))
                          * reflection_opacity)))%Q) row).
  rewrite (for_each_ext _ _ (fun g y => i ← py_index g y; Ok (alter (F y) i g))).
  2:{ intros g y Hy. apply py_range_spec in Hy. by rewrite py_truediv_ok by lia. }
  unfold py_range.
  destruct (for_each_alter_rows F (Z.to_nat (h - horizon_y)) horizon_y
              (to_float background)) as (g' & Hg' & Hlen & Hrows); [lia | |].
  { unfold to_float, gmap2. rewrite length_map. lia. }
  rewrite Z2Nat.id in Hg' by lia. rewrite Hg', bind_Ok. cbv beta.
  eexists. split; [reflexivity|]. split.
  { unfold gmap2. rewrite length_map, Hlen. unfold to_float, gmap2.
    by rewrite length_map. }
  intros y row Hrow. unfold gmap2. rewrite list_lookup_fmap.
  rewrite (Hrows y (map (pmap3 inject_Z) row)).
  2:{ unfold to_float, gmap2. by rewrite list_lookup_fmap, Hrow. }
  simpl. f_equal.
  assert (Z.of_nat y < h) as Hy.
  { apply lookup_lt_Some in Hrow. lia. }
  destruct (bool_decide (horizon_y <= Z.of_nat y)) eqn:E.
  - apply bool_decide_eq_true in E. rewrite bool_decide_eq_true_2 by lia.
    unfold F. rewrite !map_map. apply map_ext. intros [[a b] c]. reflexivity.
  - apply bool_decide_eq_false in E. rewrite bool_decide_eq_false_2 by lia.
    rewrite map_map. apply map_ext. intros [[a b] c]. reflexivity.
Qed.

Lemma add_floor_reflection_area_cells (background : grid pixel)
    (h w : Z) (reflection_opacity : Q) :
  rect h w background -> all_cells pixel_u8 background ->
  let hy := py_int (inject_Z h * (65 # 100)) in
  exists out,
    add_floor_reflection_area background reflection_opacity = Ok out /\
    rect h w out /\ all_cells pixel_u8 out /\
    forall (y x : nat) (p : pixel), cell background y x = Some p ->
      cell out y x = Some
        (if bool_decide (hy <= Z.of_nat y) then
           pmap3 (fun v => to_uint8 (np_clip 0 255
              (inject_Z v * (1 + (1 - inject_Z (Z.of_nat y - hy) / inject_Z (h - hy))
                                 * reflection_opacity)))) p
         else p) /\ pixel_u8 p /\ hy <= h /\ Z.of_nat y < h.
Proof.
  intros Hrect Hu8 hy.
  pose proof (rect_nrows _ _ _ Hrect) as Hn.
  destruct (add_floor_reflection_area_rows background reflection_opacity)
    as (Hhor & out & Hout & Hlen & Hrows).
  rewrite Hn in *. fold hy in Hhor, Hrows.
  exists out. split; [exact Hout|]. split; [|split].
  - destruct Hrect as [_ Hrs]. split.
    + unfold nrows in *. lia.
    + apply Forall_lookup. intros y row' Hy.
      destruct (background !! y) as [row|] eqn:Erow.
      * rewrite (Hrows y row Erow) in Hy. inversion Hy; subst row'. simpl.
        rewrite length_map. rewrite Forall_lookup in Hrs. by apply (Hrs y).
      * apply lookup_ge_None_1 in Erow. apply lookup_lt_Some in Hy. lia.
  - apply all_cells_intro. intros y x q Hq.
    apply cell_Some in Hq as (row' & Hrow' & Hx).
    destruct (background !! y) as [row|] eqn:Erow.
    2:{ apply lookup_ge_None_1 in Erow. apply lookup_lt_Some in Hrow'. lia. }
    rewrite (Hrows y row Erow) in Hrow'. inversion Hrow'; subst row'.
    rewrite list_lookup_fmap in Hx.
    destruct (row !! x) as [p|]; [|done]. simpl in Hx. inversion Hx; subst q.
    case_bool_decide; apply pixel_u8_pmap3; intros a; apply to_uint8_range.
  - intros y x p Hc. pose proof (all_cells_cell _ _ _ _ _ Hu8 Hc) as Hp.
    apply cell_Some in Hc as (row & Hrow & Hx).
    assert (Z.of_nat y < h) as Hy.
    { apply lookup_lt_Some in Hrow. unfold nrows in Hn. lia. }
    split; [|split; [done | lia]].
    apply cell_Some. eexists. split; [by apply Hrows|].
    rewrite list_lookup_fmap, Hx. simpl. f_equal.
    case_bool_decide; [done|].
    destruct p as [[a b] c]. destruct Hp as (Ha & Hb & Hc). simpl.
    by rewrite !to_uint8_inject_Z.
Qed.

(** X4: [add_floor_reflection_area] never raises and keeps the shape of a
    [uint8] image; the rows above the horizon row [int(h * 0.65)] are left
    unchanged, and with a non-negative opacity no channel of any cell
    becomes darker (nor leaves [0, 255]). *)
Theorem add_floor_reflection_area_brightens (background : grid pixel)
    (h w : Z) (reflection_opacity : Q) :
  rect h w background -> all_cells pixel_u8 background ->
  exists out,
    add_floor_reflection_area background reflection_opacity = Ok out /\
    rect h w out /\ all_cells pixel_u8 out /\
    (forall (y x : nat) (p : pixel),
       Z.of_nat y < py_int (inject_Z h * (65 # 100)) ->
       cell background y x = Some p -> cell out y x = Some p) /\
    ((0 <= reflection_opacity)%Q ->
     forall (y x : nat) (p : pixel) (ch : Z),
       cell background y x = Some p ->
       exists q, cell out y x = Some q /\ get_chan ch p <= get_chan ch q).
Proof.
  intros Hrect Hu8.
  destruct (add_floor_reflection_area_cells background h w reflection_opacity Hrect Hu8)
    as (out & Hout & Hr & Hu & Hcell).
  set (hy := py_int (inject_Z h * (65 # 100))) in *.
  exists out. split; [exact Hout|]. split; [exact Hr|]. split; [exact Hu|]. split.
  - intros y x p Hy Hc. destruct (Hcell y x p Hc) as (-> & _ & _).
    by rewrite bool_decide_eq_false_2 by lia.
  - intros Hop y x p ch Hc. destruct (Hcell y x p Hc) as (Ho & Hp & Hhy & Hy).
    eexists. split; [exact Ho|].
    case_bool_decide as Hge; [|lia].
    rewrite get_chan_pmap3. apply brighten_u8; [by apply get_chan_u8|].
    pose proof (Qdiv_nonneg_lt_1 (Z.of_nat y - hy) (h - hy) ltac:(lia)) as [H0 H1].
    nra.
Qed.

Lemma add_floor_reflection_area_brightens_witness :
  exists out,
    add_floor_reflection_area [[(100, 100, 100)]; [(100, 100, 100)]; [(100, 100, 100)]]
      (5 # 100) = Ok out /\
    cell out 0 0 = Some (100, 100, 100).
Proof.
  assert (rect 3 1 [[(100, 100, 100)]; [(100, 100, 100)]; [(100, 100, 100)]])
    as Hr by (split; [reflexivity | repeat constructor]).
  assert (all_cells pixel_u8 [[(100, 100, 100)]; [(100, 100, 100)]; [(100, 100, 100)]])
    as Hu by (repeat constructor; unfold is_u8; lia).
  destruct (add_floor_reflection_area_brightens _ 3 1 (5 # 100) Hr Hu)
    as (out & Hout & _ & _ & Hkeep & _).
  exists out. split; [exact Hout|].
  apply Hkeep; [reflexivity | reflexivity].
Defined.
Lemma grid_eq_cells {A} (g1 g2 : grid A) :
  length <$> g1 = length <$> g2 ->
  (forall r c, cell g1 r c = cell g2 r c) -> g1 = g2.
Proof.
  intros Hshape Hcells. apply list_eq. intros r.
  pose proof (f_equal (fun l => l !! r) Hshape) as Hr. simpl in Hr.
  rewrite !list_lookup_fmap in Hr.
  destruct (g1 !! r) as [r1|] eqn:E1, (g2 !! r) as [r2|] eqn:E2; try done.
  simpl in Hr. inversion Hr as [Hlen]. f_equal. apply list_eq. intros c.
  specialize (Hcells r c). unfold cell in Hcells. by rewrite E1, E2 in Hcells.
Qed.

Lemma shape_imap2 {A B} (f : nat -> nat -> A -> B) (g : grid A) :
  length <$> imap (fun y row => imap (fun x p => f y x p) row) g = length <$> g.
Proof.
  apply list_eq. intros r. rewrite !list_lookup_fmap, list_lookup_imap.
  destruct (g !! r) as [row|]; [|done]. simpl. by rewrite length_imap.
Qed.

(** A per-cell map that fixes every cell of the image is the identity. *)
Lemma imap2_id {A} (f : nat -> nat -> A -> A) (g : grid A) :
  (forall r c p, cell g r c = Some p -> f r c p = p) ->
  imap (fun y row => imap (fun x p => f y x p) row) g = g.
Proof.
  intros Hf. apply grid_eq_cells; [apply shape_imap2|].
  intros r c. rewrite cell_imap2.
  destruct (cell g r c) as [p|] eqn:E; [|done]. simpl. f_equal. by apply Hf.
Qed.

Lemma rect_cell_bounds {A} (g : grid A) (h w : Z) (r c : nat) (a : A) :
  rect h w g -> cell g r c = Some a -> Z.of_nat r < h /\ Z.of_nat c < w.
Proof.
  intros [Hn Hrows] Hc. apply cell_Some in Hc as (row & Hrow & Ha).
  rewrite Forall_lookup in Hrows. pose proof (Hrows _ _ Hrow) as Hlen. simpl in Hlen.
  apply lookup_lt_Some in Hrow. apply lookup_lt_Some in Ha. unfold nrows in Hn. lia.
Qed.

(** ** Lighting passes *)

(** X5: [add_ambient_lighting] keeps the shape of the image and yields
    [uint8] cells; with intensity 0 it returns a [uint8] image unchanged,
    whatever the light position; and for the light position ['top'] (or an
    unknown one) with a non-negative intensity no channel becomes darker. *)
Theorem add_ambient_lighting_brightens `{M : MathLib} (image : grid pixel)
    (h w : Z) (light_position : string) (intensity : Q) :
  rect h w image -> all_cells pixel_u8 image ->
  rect h w (add_ambient_lighting image light_position intensity) /\
  all_cells pixel_u8 (add_ambient_lighting image light_position intensity) /\
  ((intensity == 0)%Q -> add_ambient_lighting image light_position intensity = image) /\
  ((0 <= intensity)%Q ->
   String.eqb light_position "top_left" = false ->
   String.eqb light_position "top_right" = false ->
   forall (y x : nat) (p : pixel) (ch : Z),
     cell image y x = Some p ->
     exists q, cell (add_ambient_lighting image light_position intensity) y x = Some q /\
               get_chan ch p <= get_chan ch q).
Proof.
  intros Hrect Hu8. unfold add_ambient_lighting.
  split; [by apply rect_imap2|]. split; [|split].
  - apply all_cells_intro. intros r c q. rewrite cell_imap2.
    destruct (cell image r c) as [p|]; [|done]. simpl. intros [= <-].
    apply pixel_u8_pmap3. intros a. apply to_uint8_range.
  - intros Hzero. apply imap2_id. intros r c p Hc.
    pose proof (all_cells_cell _ _ _ _ _ Hu8 Hc) as Hp.
    destruct p as [[a b] d]. destruct Hp as (Ha & Hb & Hd). cbv zeta. simpl.
    assert (forall v, is_u8 v ->
      to_uint8 (np_clip 0 255
        (inject_Z v * (1 + ambient_light light_position (nrows image)
                             (ncols image) r c * intensity))) = v) as Hv.
    { intros v Hv. rewrite <- (clip_cast_u8 v Hv) at 2.
      apply to_uint8_proper, np_clip_proper; [done | done |].
      rewrite Hzero. ring. }
    by rewrite !Hv.
  - intros Hint Hl Hr y x p ch Hc. rewrite cell_imap2, Hc. simpl.
    eexists. split; [reflexivity|].
    pose proof (all_cells_cell _ _ _ _ _ Hu8 Hc) as Hp.
    destruct (rect_cell_bounds _ _ _ _ _ _ Hrect Hc) as [Hy Hx].
    rewrite get_chan_pmap3. apply brighten_u8; [by apply get_chan_u8|].
    assert (0 <= ambient_light light_position (nrows image) (ncols image) y x)%Q
      as Hlight.
    { unfold ambient_light. rewrite Hl, Hr.
      destruct (String.eqb light_position "top"); [|discriminate].
      rewrite (rect_nrows _ _ _ Hrect).
      pose proof (Qdiv_nonneg_lt_1 (Z.of_nat y) h ltac:(lia)) as [H0 H1]. lra. }
    nra.
Qed.

Lemma add_ambient_lighting_brightens_witness :
  rect 2 1 [[(100, 150, 200)]; [(100, 150, 200)]] /\
  exists q,
    cell (add_ambient_lighting (M := PlainMath)
            [[(100, 150, 200)]; [(100, 150, 200)]] "top" (5 # 100)) 0 0 = Some q /\
    100 <= get_chan 0 q.
Proof.
  assert (rect 2 1 [[(100, 150, 200)]; [(100, 150, 200)]]) as Hr
    by (split; [reflexivity | repeat constructor]).
  assert (all_cells pixel_u8 [[(100, 150, 200)]; [(100, 150, 200)]]) as Hu
    by (repeat constructor; unfold is_u8; lia).
  split; [exact Hr|].
  destruct (add_ambient_lighting_brightens (M := PlainMath) _ 2 1 "top" (5 # 100) Hr Hu)
    as (_ & _ & _ & Hup).
  apply (Hup ltac:(discriminate) eq_refl eq_refl 0%nat 0%nat (100, 150, 200) 0 eq_refl).
Defined.

(** X6: [add_vignette] keeps the shape of the image; for a strength in
    [0, 1] and a positive radius it never brightens: every channel of the
    result lies between 0 and the input channel; with strength 0 a [uint8]
    image is returned unchanged.  This holds whatever the square root
    returns. *)
Theorem add_vignette_darkens `{M : MathLib} (image : grid pixel)
    (h w : Z) (strength radius : Q) :
  rect h w image -> all_cells pixel_u8 image ->
  (0 <= strength <= 1)%Q -> (0 < radius)%Q ->
  rect h w (add_vignette image strength radius) /\
  ((strength == 0)%Q -> add_vignette image strength radius = image) /\
  forall (y x : nat) (p : pixel) (ch : Z),
    cell image y x = Some p ->
    exists q, cell (add_vignette image strength radius) y x = Some q /\
              0 <= get_chan ch q <= get_chan ch p.
Proof.
  intros Hrect Hu8 Hs Hrad. unfold add_vignette.
  assert (forall y x, (0 <= vignette_factor (nrows image) (ncols image)
                              strength radius y x <= 1)%Q) as Hfac.
  { intros y x. unfold vignette_factor.
    match goal with |- context [np_clip 0 1 ?d] =>
      pose proof (np_clip_range 0 1 d ltac:(discriminate)) as [Hc0 Hc1];
      set (c := np_clip 0 1 d) in *
    end.
    destruct Hs as [Hs0 Hs1].
    assert (0 <= c * c)%Q by nra. assert (c * c <= 1)%Q by nra.
    split; nra. }
  split; [by apply rect_imap2|]. split.
  - intros Hzero. apply imap2_id. intros r c p Hc.
    pose proof (all_cells_cell _ _ _ _ _ Hu8 Hc) as Hp.
    destruct p as [[a b] d]. destruct Hp as (Ha & Hb & Hd). cbv zeta. simpl.
    assert (forall v, is_u8 v ->
      to_uint8 (inject_Z v * vignette_factor (nrows image) (ncols image)
                               strength radius r c) = v) as Hv.
    { intros v Hv. rewrite <- (to_uint8_inject_Z v Hv) at 2.
      apply to_uint8_proper. unfold vignette_factor. rewrite Hzero. ring. }
    by rewrite !Hv.
  - intros y x p ch Hc. rewrite cell_imap2, Hc. simpl.
    eexists. split; [reflexivity|].
    pose proof (all_cells_cell _ _ _ _ _ Hu8 Hc) as Hp.
    rewrite get_chan_pmap3. apply darken_u8; [by apply get_chan_u8 | apply Hfac].
Qed.

Lemma add_vignette_darkens_witness :
  rect 2 2 [[(100, 150, 200); (100, 150, 200)]; [(100, 150, 200); (100, 150, 200)]] /\
  (0 <= 15 # 100 <= 1)%Q /\ (0 < 12 # 10)%Q /\
  exists q,
    cell (add_vignette (M := PlainMath)
            [[(100, 150, 200); (100, 150, 200)]; [(100, 150, 200); (100, 150, 200)]]
            (15 # 100) (12 # 10)) 0 0 = Some q /\
    get_chan 1 q <= 150.
Proof.
  assert (rect 2 2 [[(100, 150, 200); (100, 150, 200)]; [(100, 150, 200); (100, 150, 200)]])
    as Hr by (split; [reflexivity | repeat constructor]).
  assert (all_cells pixel_u8
            [[(100, 150, 200); (100, 150, 200)]; [(100, 150, 200); (100, 150, 200)]])
    as Hu by (repeat constructor; unfold is_u8; lia).
  assert (0 <= 15 # 100 <= 1)%Q as Hs by (split; discriminate).
  assert (0 < 12 # 10)%Q as Hrad by reflexivity.
  split; [exact Hr|]. split; [exact Hs|]. split; [exact Hrad|].
  destruct (add_vignette_darkens (M := PlainMath) _ 2 2 (15 # 100) (12 # 10) Hr Hu Hs Hrad)
    as (_ & _ & Hdown).
  destruct (Hdown 0%nat 0%nat (100, 150, 200) 1 eq_refl) as (q & Hq & Hle).
  exists q. split; [exact Hq|]. apply Hle.
Defined.
(** ** The complete and the custom background *)

Lemma all_cells_imap2_u8 (f : nat -> nat -> Z -> Q) (g : grid pixel) :
  all_cells pixel_u8
    (imap (fun y row => imap (fun x p => pmap3 (fun v => to_uint8 (f y x v)) p) row) g).
Proof.
  apply all_cells_intro. intros r c a Ha.
  rewrite (cell_imap2 (fun y x p => pmap3 (fun v => to_uint8 (f y x v)) p)) in Ha.
  destruct (cell g r c) as [p|]; [|done]. simpl in Ha. inversion Ha; subst a.
  apply pixel_u8_pmap3. intros v. apply to_uint8_range.
Qed.

(** X7: the complete background is a [height] by [width] [uint8] image for
    every preset name (known or not), every combination of the three effect
    switches and every vignette strength, for non-negative sizes: the
    effects never change the shape and never raise. *)
Theorem create_complete_background_buffer `{M : MathLib} (width height : Z)
    (preset : string) (vignette : bool) (vignette_strength : Q)
    (ambient_light reflection_zone : bool) :
  0 <= width -> 0 <= height ->
  exists bg,
    create_complete_background width height preset vignette vignette_strength
      ambient_light reflection_zone = Ok bg /\
    rect height width bg /\ all_cells pixel_u8 bg.
Proof.
  intros Hw Hh.
  destruct (select_bg_config_preset preset) as (config & Hcfg & Hhp).
  pose proof (horizon_row_in_canvas height _ Hh Hhp) as Hhor.
  destruct (create_studio_background_ok width height preset None config Hcfg Hw Hh)
    as (bg0 & Hbg0 & Hr0 & Hu0); [lia|].
  unfold create_complete_background. rewrite Hbg0. simpl.
  assert (exists bg1,
            (if reflection_zone then add_floor_reflection_area bg0 (3 # 100)
             else Ok bg0) = Ok bg1 /\ rect height width bg1 /\
            all_cells pixel_u8 bg1) as (bg1 & -> & Hr1 & Hu1).
  { destruct reflection_zone; [|by exists bg0].
    destruct (add_floor_reflection_area_cells bg0 height width (3 # 100) Hr0 Hu0)
      as (out & Hout & Hr & Hu & _).
    by exists out. }
  simpl. eexists. split; [reflexivity|].
  destruct ambient_light, vignette; split;
    try done;
    try (apply rect_imap2; try apply rect_imap2; done);
    try apply all_cells_imap2_u8.
Qed.

Lemma create_complete_background_buffer_witness :
  exists bg,
    create_complete_background (M := PlainMath) 4 3 "no_such_preset" true (15 # 100)
      true true = Ok bg /\
    rect 3 4 bg /\ all_cells pixel_u8 bg.
Proof.
  apply (create_complete_background_buffer (M := PlainMath) 4 3 "no_such_preset"
           true (15 # 100) true true); lia.
Defined.
Lemma get_chan_pzip3 {A B C} (f : A -> B -> C) (ch : Z) (a : A * A * A) (b : B * B * B) :
  get_chan ch (pzip3 f a b) = f (get_chan ch a) (get_chan ch b).
Proof.
  destruct a as [[a0 a1] a2], b as [[b0 b1] b2]. simpl.
  by destruct (ch =? 0), (ch =? 1).
Qed.

(** The truncated mean of two [uint8] values lies between them. *)
Lemma mean_between (a b : Z) :
  is_u8 a -> is_u8 b ->
  Z.min a b <= py_int ((inject_Z a + inject_Z b) / 2) <= Z.max a b.
Proof.
  intros Ha Hb.
  pose proof (inject_Z_u8 a Ha) as [Ha0 Ha1].
  pose proof (inject_Z_u8 b Hb) as [Hb0 Hb1].
  assert (0 <= (inject_Z a + inject_Z b) / 2)%Q as H0.
  { apply Qle_shift_div_l; [reflexivity|]. lra. }
  rewrite py_int_nonneg by done.
  assert (inject_Z (Z.min a b) <= (inject_Z a + inject_Z b) / 2)%Q as Hlo.
  { apply Qle_shift_div_l; [reflexivity|].
    destruct (Z.le_ge_cases a b) as [Hab | Hab].
    - rewrite Z.min_l by done. rewrite Zle_Qle in Hab. lra.
    - rewrite Z.min_r by lia. rewrite Zle_Qle in Hab. lra. }
  assert ((inject_Z a + inject_Z b) / 2 <= inject_Z (Z.max a b))%Q as Hhi.
  { apply Qle_shift_div_r; [reflexivity|].
    destruct (Z.le_ge_cases a b) as [Hab | Hab].
    - rewrite Z.max_r by done. rewrite Zle_Qle in Hab. lra.
    - rewrite Z.max_l by lia. rewrite Zle_Qle in Hab. lra. }
  split; [by apply Z_le_Qfloor | by apply Qfloor_le_Z].
Qed.

(** A truncated blend of two [uint8] values with a weight in [0, 1] lies
    between them. *)
Lemma lerp_value_between (a b : Z) (e : Q) :
  is_u8 a -> is_u8 b -> (0 <= e <= 1)%Q ->
  Z.min a b <= to_uint8 (inject_Z a + (inject_Z b - inject_Z a) * e) <= Z.max a b.
Proof.
  intros Ha Hb [He0 He1].
  destruct (lerp_value_towards a b e e Ha Hb He0 ltac:(lra) He1) as [Hup Hdown].
  destruct (Z.le_ge_cases a b) as [Hab | Hab].
  - specialize (Hup Hab). simpl in Hup. lia.
  - specialize (Hdown Hab). simpl in Hdown. lia.
Qed.

(** X8: a custom background stays within its two colours.  For [uint8] top
    and floor colours, a horizon position in [0, 1] and non-negative sizes,
    [create_custom_background] returns a [height] by [width] image in which
    every channel of every cell lies between that channel of the top colour
    and of the floor colour. *)
Theorem create_custom_background_between (width height : Z)
    (top_color floor_color : pixel) (horizon_position : Q) :
  0 <= width -> 0 <= height -> (0 <= horizon_position <= 1)%Q ->
  pixel_u8 top_color -> pixel_u8 floor_color ->
  exists bg,
    create_custom_background width height top_color floor_color horizon_position
    = Ok bg /\
    rect height width bg /\
    forall (y x : nat) (p : pixel) (ch : Z),
      cell bg y x = Some p ->
      Z.min (get_chan ch top_color) (get_chan ch floor_color) <= get_chan ch p
      <= Z.max (get_chan ch top_color) (get_chan ch floor_color).
Proof.
  intros Hw Hh Hhp Htop Hflo. unfold create_custom_background.
  set (horizon := pzip3 (fun t f => py_int ((inject_Z t + inject_Z f) / 2))
                    top_color floor_color).
  set (config := {| top_color := top_color; horizon_color := horizon;
                    floor_color := floor_color;
                    horizon_position := horizon_position;
                    floor_gradient := Some (3 # 10) |}).
  assert (select_bg_config "studio_white" (Some config) = Ok config) as Hcfg
    by reflexivity.
  pose proof (horizon_row_in_canvas height _ Hh Hhp) as Hhor.
  destruct (create_studio_background_ok width height "studio_white" (Some config)
              config Hcfg Hw Hh) as (bg & Hbg & Hrect & _); [simpl; lia|].
  exists bg. split; [exact Hbg|]. split; [exact Hrect|].
  intros y x p ch Hc.
  rewrite (create_studio_background_rows _ _ _ _ config) in Hbg by done.
  inversion Hbg; subst bg. clear Hbg.
  apply cell_rows in Hc as (-> & Hy & _).
  pose proof (get_chan_u8 ch _ Htop) as Ht. pose proof (get_chan_u8 ch _ Hflo) as Hf.
  pose proof (mean_between _ _ Ht Hf) as Hmid.
  assert (get_chan ch horizon
          = py_int ((inject_Z (get_chan ch top_color)
                     + inject_Z (get_chan ch floor_color)) / 2)) as Hhc.
  { unfold horizon. by rewrite get_chan_pzip3. }
  assert (is_u8 (get_chan ch horizon)) as Hhu.
  { rewrite Hhc. unfold is_u8 in *. lia. }
  rewrite <- Hhc in Hmid.
  unfold background_row. simpl.
  set (hy := py_int (inject_Z height * horizon_position)) in *.
  destruct (Z.of_nat y <? hy) eqn:Hlt.
  - apply Z.ltb_lt in Hlt. rewrite get_chan_lerp_color.
    pose proof (Qdiv_nonneg_lt_1 (Z.of_nat y) hy ltac:(lia)) as [H0 H1].
    pose proof (lerp_value_between (get_chan ch top_color) (get_chan ch horizon)
                  (_ease_in_out (inject_Z (Z.of_nat y) / inject_Z hy)) Ht Hhu
                  (ease_in_out_range _ (conj H0 (Qlt_le_weak _ _ H1)))) as Hb.
    lia.
  - apply Z.ltb_ge in Hlt. rewrite get_chan_lerp_color.
    pose proof (Qdiv_nonneg_lt_1 (Z.of_nat y - hy) (height - hy) ltac:(lia)) as [H0 H1].
    set (t := (inject_Z (Z.of_nat y - hy) / inject_Z (height - hy))%Q) in *.
    assert (0 <= t * (3 # 10) + (1 - (3 # 10)) <= 1)%Q as Hr by (split; lra).
    pose proof (lerp_value_between (get_chan ch horizon) (get_chan ch floor_color)
                  _ Hhu Hf (ease_in_out_range _ Hr)) as Hb.
    lia.
Qed.

Lemma create_custom_background_between_witness :
  exists bg,
    create_custom_background 2 4 (200, 100, 0) (20, 100, 255) (1 # 2) = Ok bg /\
    rect 4 2 bg /\
    forall (y x : nat) (p : pixel) (ch : Z),
      cell bg y x = Some p ->
      Z.min (get_chan ch (200, 100, 0)) (get_chan ch (20, 100, 255)) <= get_chan ch p
      <= Z.max (get_chan ch (200, 100, 0)) (get_chan ch (20, 100, 255)).
Proof.
  apply (create_custom_background_between 2 4 (200, 100, 0) (20, 100, 255) (1 # 2)).
  - lia.
  - lia.
  - split; discriminate.
  - repeat split; unfold is_u8; lia.
  - repeat split; unfold is_u8; lia.
Defined.
(** ** Shadows onto a background *)

Lemma np_clip_id (lo hi x : Q) : (lo <= x <= hi)%Q -> np_clip lo hi x = x.
Proof.
  intros [Hlo Hhi]. unfold np_clip.
  destruct (Qltb x lo) eqn:E1.
  { apply Qltb_lt in E1. exfalso. exact (Qlt_not_le _ _ E1 Hlo). }
  destruct (Qltb hi x) eqn:E2; [|done].
  apply Qltb_lt in E2. exfalso. exact (Qlt_not_le _ _ E2 Hhi).
Qed.

(** A float between [0] and a [uint8] value is cast to a value between [0]
    and that value. *)
Lemma clip_cast_below (b : Q) (v : Z) :
  is_u8 v -> (0 <= b <= inject_Z v)%Q -> 0 <= to_uint8 (np_clip 0 255 b) <= v.
Proof.
  intros Hv [Hb0 Hb1]. pose proof (inject_Z_u8 v Hv) as [_ Hv1].
  rewrite np_clip_id by (split; lra).
  rewrite to_uint8_floor by (split; lra).
  split; [|by apply Qfloor_le_Z].
  apply (Z_le_Qfloor b 0). exact Hb0.
Qed.

Lemma shadow_factor_range (v : Z) : is_u8 v -> (0 <= 1 - inject_Z v / 255 <= 1)%Q.
Proof.
  intros Hv. pose proof (inject_Z_u8 v Hv) as [H0 H1].
  assert (0 <= inject_Z v / 255)%Q by (apply Qle_shift_div_l; [reflexivity | lra]).
  assert (inject_Z v / 255 <= 1)%Q by (apply Qle_shift_div_r; [reflexivity | lra]).
  split; lra.
Qed.

(** X9: in ['multiply'] mode [composite_shadows] never brightens.  For a
    [uint8] background and shadow layers of the background's shape with
    values in [0, 255] it returns an image of the same shape in which no
    channel of any cell exceeds the background's; entries under other keys
    than ['drop'], ['ambient'] and ['contact'] are never read. *)
Theorem composite_shadows_multiply_darkens (background : grid pixel)
    (shadows : gmap string (grid Z)) (h w : Z) :
  rect h w background -> all_cells pixel_u8 background ->
  (forall name s, name ∈ ["drop"; "ambient"; "contact"] ->
     shadows !! name = Some s -> rect h w s /\ all_cells is_u8 s) ->
  exists out,
    composite_shadows background shadows "multiply" = Ok out /\
    rect h w out /\
    forall (r c : nat) (p : pixel) (ch : Z),
      cell background r c = Some p ->
      exists q, cell out r c = Some q /\ 0 <= get_chan ch q <= get_chan ch p.
Proof.
  intros Hrect Hu8 Hsh. unfold composite_shadows.
  set (I := fun base : grid fpixel =>
         rect h w base /\
         forall r c p, cell background r c = Some p ->
           exists b, cell base r c = Some b /\
             forall ch, (0 <= get_chan ch b <= inject_Z (get_chan ch p))%Q).
  edestruct (for_each_inv I (fun name => name ∈ ["drop"; "ambient"; "contact"])
               ["drop"; "ambient"; "contact"]) as (res & -> & [Hres Hcells]).
  - split; [by apply rect_gmap2|]. intros r c p Hp.
    exists (pmap3 inject_Z p). unfold to_float. rewrite cell_gmap2, Hp.
    split; [done|]. intros ch. rewrite get_chan_pmap3.
    pose proof (inject_Z_u8 _ (get_chan_u8 ch p (all_cells_cell _ _ _ _ _ Hu8 Hp))).
    split; lra.
  - apply Forall_forall. auto.
  - intros base name [Hb Hc] Hname. cbv beta.
    destruct (shadows !! name) as [s|] eqn:Es; [|by exists base].
    destruct (Hsh name s Hname Es) as [Hs Hsu].
    change (String.eqb "multiply" "multiply") with true. cbv iota.
    unfold darken_channel.
    rewrite (channel_loop (fun v sn => v * (1 - sn))%Q), zip2_gmap2_r.
    destruct (zip2_ok (fun (p : fpixel) (v : Z) =>
                         pmap3 (fun ch => ch * (1 - inject_Z v / 255))%Q p)
                h w base s Hb Hs) as [-> Hr'].
    eexists. split; [reflexivity|]. split; [exact Hr'|].
    intros r c p Hp. destruct (Hc r c p Hp) as (b & Hbc & Hbnd).
    destruct (rect_cell_bounds _ _ _ _ _ _ Hrect Hp) as [Hrh Hcw].
    destruct (rect_cell s h w r c Hs Hrh Hcw) as [v Hv].
    eexists. split.
    + apply cell_zip_with. exists b, v. by repeat split.
    + intros ch. rewrite get_chan_pmap3.
      pose proof (shadow_factor_range v (all_cells_cell _ _ _ _ _ Hsu Hv)) as [Hf0 Hf1].
      specialize (Hbnd ch). destruct Hbnd as [Hb0 Hb1]. split; nra.
  - simpl. eexists. split; [reflexivity|]. split; [by apply rect_gmap2|].
    intros r c p ch Hp. destruct (Hcells r c p Hp) as (b & Hbc & Hbnd).
    exists (pmap3 (fun v => to_uint8 (np_clip 0 255 v)) b).
    unfold clip_to_uint8. rewrite cell_gmap2, Hbc. split; [done|].
    rewrite get_chan_pmap3. apply clip_cast_below; [|by apply Hbnd].
    apply get_chan_u8. by apply (all_cells_cell _ _ _ _ _ Hu8 Hp).
Qed.

Lemma composite_shadows_multiply_darkens_witness :
  exists out,
    composite_shadows [[(200, 100, 50); (10, 20, 30)]]
      {["drop" := [[128; 0]]; "glow" := [[1; 2; 3]]]} "multiply" = Ok out /\
    rect 1 2 out /\
    forall (r c : nat) (p : pixel) (ch : Z),
      cell [[(200, 100, 50); (10, 20, 30)]] r c = Some p ->
      exists q, cell out r c = Some q /\ 0 <= get_chan ch q <= get_chan ch p.
Proof.
  apply (composite_shadows_multiply_darkens [[(200, 100, 50); (10, 20, 30)]]
           {["drop" := [[128; 0]]; "glow" := [[1; 2; 3]]]} 1 2).
  - split; [reflexivity|]. repeat constructor.
  - unfold all_cells. repeat constructor; unfold is_u8; simpl; lia.
  - intros name s Hname Hs.
    assert (s = [[128; 0]]) as ->.
    { set_unfold in Hname.
      destruct Hname as [-> | [-> | [-> | []]]]; vm_compute in Hs; congruence. }
    split; [split; [reflexivity | repeat constructor]|].
    unfold all_cells. repeat constructor; unfold is_u8; lia.
Defined.
(** ** The shadow gradient *)

(** X10: the edge gradient of a soft shadow only attenuates.  On a [uint8]
    shadow, with a power function that maps [0, 1] into [0, 1],
    [_apply_shadow_gradient] keeps the shape, never raises a value, and
    keeps at least 15 percent of it (the product of the smallest horizontal
    weight 0.5 and the smallest vertical weight 0.3). *)
Theorem apply_shadow_gradient_attenuates `{L : ImageLib} (shadow : grid Z) (h w : Z) :
  rect h w shadow -> all_cells is_u8 shadow ->
  (forall d, (0 <= d <= 1)%Q -> (0 <= float_pow d (3 # 2) <= 1)%Q) ->
  rect h w (_apply_shadow_gradient shadow) /\
  forall (y x : nat) (v : Z),
    cell shadow y x = Some v ->
    exists v', cell (_apply_shadow_gradient shadow) y x = Some v' /\
      Qfloor (inject_Z v * (15 # 100)) <= v' <= v.
Proof.
  intros Hrect Hu8 Hpow. unfold _apply_shadow_gradient. cbv zeta.
  split; [by apply (rect_imap2 (fun y x v => to_uint8 _))|].
  intros y x v Hv.
  rewrite (cell_imap2 (fun y x v => to_uint8 _)), Hv.
  eexists. split; [reflexivity|].
  destruct (rect_cell_bounds _ _ _ _ _ _ Hrect Hv) as [Hy Hx].
  pose proof (all_cells_cell _ _ _ _ _ Hu8 Hv) as Hvu.
  rewrite (rect_nrows _ _ _ Hrect), (rect_ncols _ _ _ Hrect) by lia.
  set (cx := (inject_Z w / 2)%Q).
  assert (0 < inject_Z w)%Q as Hw by (apply inject_Z_pos; lia).
  assert (0 < cx)%Q as Hcx by (unfold cx; apply Qlt_shift_div_l; [reflexivity | lra]).
  assert (0 <= inject_Z (Z.of_nat x))%Q as Hx0 by (apply inject_Z_nonneg; lia).
  assert (inject_Z (Z.of_nat x) < inject_Z w)%Q as Hx1 by (rewrite <- Zlt_Qlt; lia).
  assert (cx * 2 == inject_Z w)%Q as Hcx2 by (unfold cx; field).
  clearbody cx.
  assert (0 <= Qabs (inject_Z (Z.of_nat x) - cx) / cx <= 1)%Q as Hd.
  { split.
    - apply Qle_shift_div_l; [done|]. rewrite Qmult_0_l. apply Qabs_nonneg.
    - apply Qle_shift_div_r; [done|]. rewrite Qmult_1_l.
      apply Qabs_Qle_condition. split; lra. }
  pose proof (Hpow _ Hd) as [Hp0 Hp1].
  set (pw := float_pow (Qabs (inject_Z (Z.of_nat x) - cx) / cx) (3 # 2)) in *.
  pose proof (Qdiv_nonneg_lt_1 (Z.of_nat y) h ltac:(lia)) as [Ht0 Ht1].
  set (t := (inject_Z (Z.of_nat y) / inject_Z h)%Q) in *.
  set (f := ((1 - pw * (1 # 2)) * (1 - t * (7 # 10)))%Q).
  assert (15 # 100 <= f)%Q as Hf0 by (unfold f; nra).
  assert (f <= 1)%Q as Hf1 by (unfold f; nra).
  pose proof (inject_Z_u8 v Hvu) as [Hv0 Hv1].
  change (Qfloor (inject_Z v * (15 # 100)) <= to_uint8 (inject_Z v * f) <= v).
  split.
  - rewrite to_uint8_floor by (split; nra).
    apply Qfloor_resp_le. nra.
  - apply darken_u8; [done|]. split; lra.
Qed.

Lemma apply_shadow_gradient_attenuates_witness :
  rect 2 2 (_apply_shadow_gradient (L := PlainLib) [[255; 200]; [100; 0]]) /\
  forall (y x : nat) (v : Z),
    cell [[255; 200]; [100; 0]] y x = Some v ->
    exists v', cell (_apply_shadow_gradient (L := PlainLib) [[255; 200]; [100; 0]]) y x
               = Some v' /\
      Qfloor (inject_Z v * (15 # 100)) <= v' <= v.
Proof.
  apply (apply_shadow_gradient_attenuates (L := PlainLib) [[255; 200]; [100; 0]] 2 2).
  - split; [reflexivity|]. repeat constructor.
  - unfold all_cells. repeat constructor; unfold is_u8; lia.
  - intros d Hd. simpl. unfold plain_pow.
    change (py_int (3 # 2)) with 1. simpl. lra.
Defined.
(** ** The subject's bounding box *)

Lemma elem_of_np_where_pos (mask : grid Z) (r c : Z) :
  (r, c) ∈ np_where_pos mask <->
  exists (i j : nat) (v : Z),
    r = Z.of_nat i /\ c = Z.of_nat j /\ cell mask i j = Some v /\ 0 < v.
Proof.
  unfold np_where_pos. rewrite list_elem_of_In, in_concat. split.
  - intros (l & Hl & Hin).
    apply list_elem_of_In, elem_of_lookup_imap in Hl as (i & row & -> & Hrow).
    apply list_elem_of_In, list_elem_of_omap in Hin as (o & Ho & Hid).
    simpl in Hid. subst o.
    apply elem_of_lookup_imap in Ho as (j & v & Hv & Hj).
    destruct (0 <? v) eqn:Hpos; [|done]. apply Z.ltb_lt in Hpos.
    inversion Hv; subst r c.
    exists i, j, v. repeat split; [|done]. apply cell_Some. by exists row.
  - intros (i & j & v & -> & -> & Hc & Hv).
    apply cell_Some in Hc as (row & Hrow & Hj).
    eexists. split.
    + apply list_elem_of_In. by apply (elem_of_lookup_imap_2 _ mask row i).
    + apply list_elem_of_In, list_elem_of_omap. exists (Some (Z.of_nat i, Z.of_nat j)).
      split; [|done].
      pose proof (elem_of_lookup_imap_2
                    (fun (c : nat) (v : Z) =>
                       if 0 <? v then Some (Z.of_nat i, Z.of_nat c) else None)
                    row v j Hj) as Hin.
      cbv beta in Hin. by rewrite (proj2 (Z.ltb_lt 0 v) Hv) in Hin.
Qed.

Lemma foldl_max_spec (cs : list (Z * Z)) (a : Z * Z) :
  let m := foldl (fun '(a, b) '(r, k) => (Z.max a r, Z.max b k)) a cs in
  (fst a <= fst m /\ snd a <= snd m) /\
  (forall p, p ∈ cs -> fst p <= fst m /\ snd p <= snd m) /\
  (fst m = fst a \/ exists p, p ∈ cs /\ fst p = fst m) /\
  (snd m = snd a \/ exists p, p ∈ cs /\ snd p = snd m).
Proof.
  revert a. induction cs as [|[r k] cs IH]; intros [a b]; simpl.
  { split; [lia|]. split; [|by split; left]. intros p Hp. by apply elem_of_nil in Hp. }
  specialize (IH (Z.max a r, Z.max b k)). simpl in IH.
  set (m := foldl _ _ cs) in *.
  destruct IH as ((H1 & H2) & Hall & Hf & Hs).
  split; [lia|]. split; [|split].
  - intros p Hp. apply elem_of_cons in Hp as [-> | Hp]; [simpl; lia | by apply Hall].
  - destruct Hf as [Hf | (p & Hp & Hf)].
    + destruct (Z.max_spec a r) as [[_ Hm] | [_ Hm]].
      * right. exists (r, k). split; [by left | simpl; lia].
      * left. lia.
    + right. exists p. split; [by right | done].
  - destruct Hs as [Hs | (p & Hp & Hs)].
    + destruct (Z.max_spec b k) as [[_ Hm] | [_ Hm]].
      * right. exists (r, k). split; [by left | simpl; lia].
      * left. lia.
    + right. exists p. split; [by right | done].
Qed.

Lemma foldl_min_spec (cs : list (Z * Z)) (a : Z * Z) :
  let m := foldl (fun '(a, b) '(r, k) => (Z.min a r, Z.min b k)) a cs in
  (fst m <= fst a /\ snd m <= snd a) /\
  (forall p, p ∈ cs -> fst m <= fst p /\ snd m <= snd p) /\
  (fst m = fst a \/ exists p, p ∈ cs /\ fst p = fst m) /\
  (snd m = snd a \/ exists p, p ∈ cs /\ snd p = snd m).
Proof.
  revert a. induction cs as [|[r k] cs IH]; intros [a b]; simpl.
  { split; [lia|]. split; [|by split; left]. intros p Hp. by apply elem_of_nil in Hp. }
  specialize (IH (Z.min a r, Z.min b k)). simpl in IH.
  set (m := foldl _ _ cs) in *.
  destruct IH as ((H1 & H2) & Hall & Hf & Hs).
  split; [lia|]. split; [|split].
  - intros p Hp. apply elem_of_cons in Hp as [-> | Hp]; [simpl; lia | by apply Hall].
  - destruct Hf as [Hf | (p & Hp & Hf)].
    + destruct (Z.min_spec a r) as [[_ Hm] | [_ Hm]].
      * left. lia.
      * right. exists (r, k). split; [by left | simpl; lia].
    + right. exists p. split; [by right | done].
  - destruct Hs as [Hs | (p & Hp & Hs)].
    + destruct (Z.min_spec b k) as [[_ Hm] | [_ Hm]].
      * left. lia.
      * right. exists (r, k). split; [by left | simpl; lia].
    + right. exists p. split; [by right | done].
Qed.

(** The bounding box of a non-empty coordinate list: both corners are
    attained by members, and every member lies inside. *)
Lemma coords_box (coords : list (Z * Z)) :
  coords <> [] ->
  (forall p, p ∈ coords ->
     fst (coords_min coords) <= fst p <= fst (coords_max coords) /\
     snd (coords_min coords) <= snd p <= snd (coords_max coords)) /\
  (exists p, p ∈ coords /\ fst p = fst (coords_min coords)) /\
  (exists p, p ∈ coords /\ snd p = snd (coords_min coords)) /\
  (exists p, p ∈ coords /\ fst p = fst (coords_max coords)) /\
  (exists p, p ∈ coords /\ snd p = snd (coords_max coords)).
Proof.
  destruct coords as [|c cs]; [done|]. intros _. unfold coords_min, coords_max.
  destruct (foldl_max_spec cs c) as ((Ha1 & Ha2) & Hall & Hf & Hs).
  destruct (foldl_min_spec cs c) as ((Hb1 & Hb2) & Hall' & Hf' & Hs').
  split; [|repeat split].
  - intros p Hp. apply elem_of_cons in Hp as [-> | Hp]; [lia|].
    specialize (Hall p Hp). specialize (Hall' p Hp). lia.
  - destruct Hf' as [Hf' | (p & Hp & Hf')];
      [exists c; split; [by left | congruence] | exists p; split; [by right | done]].
  - destruct Hs' as [Hs' | (p & Hp & Hs')];
      [exists c; split; [by left | congruence] | exists p; split; [by right | done]].
  - destruct Hf as [Hf | (p & Hp & Hf)];
      [exists c; split; [by left | congruence] | exists p; split; [by right | done]].
  - destruct Hs as [Hs | (p & Hp & Hs)];
      [exists c; split; [by left | congruence] | exists p; split; [by right | done]].
Qed.

(** The bounding box of the positive cells of a mask lies in the mask. *)
Lemma coords_in_canvas (mask : grid Z) (h w : Z) :
  rect h w mask -> np_where_pos mask <> [] ->
  let coords := np_where_pos mask in
  0 <= fst (coords_min coords) <= fst (coords_max coords) /\
  fst (coords_max coords) < h /\
  0 <= snd (coords_min coords) <= snd (coords_max coords) /\
  snd (coords_max coords) < w.
Proof.
  intros Hrect Hne coords.
  destruct (coords_box coords Hne) as (Hall & (p1 & Hp1 & E1) & (p2 & Hp2 & E2)
                                       & (p3 & Hp3 & E3) & (p4 & Hp4 & E4)).
  assert (forall p, p ∈ coords -> 0 <= fst p < h /\ 0 <= snd p < w) as Hin.
  { intros [r c] Hp. apply elem_of_np_where_pos in Hp as (i & j & v & -> & -> & Hc & _).
    destruct (rect_cell_bounds _ _ _ _ _ _ Hrect Hc). simpl. lia. }
  pose proof (Hin p1 Hp1). pose proof (Hin p2 Hp2).
  pose proof (Hin p3 Hp3). pose proof (Hin p4 Hp4).
  pose proof (Hall p1 Hp1). pose proof (Hall p2 Hp2). lia.
Qed.
(** ** The directional shadow *)

Lemma seqZ_lookup_nat (n : Z) (i : nat) : Z.of_nat i < n -> seqZ 0 n !! i = Some (Z.of_nat i).
Proof. intros Hi. rewrite lookup_seqZ. split; lia. Qed.

Lemma rect_warp_translate {A} (zero : A) (dx dy w h : Z) (g : grid A) :
  0 <= h -> 0 <= w -> rect h w (warp_translate zero dx dy w h g).
Proof.
  intros Hh Hw. unfold warp_translate. split.
  - unfold nrows. rewrite length_fmap, length_seqZ. lia.
  - apply Forall_fmap, Forall_forall. intros r _. simpl.
    rewrite length_fmap, length_seqZ. lia.
Qed.

Lemma cell_warp_translate {A} (zero : A) (dx dy w h : Z) (g : grid A) (r c : nat) :
  Z.of_nat r < h -> Z.of_nat c < w ->
  cell (warp_translate zero dx dy w h g) r c
  = Some (if (0 <=? Z.of_nat r - dy) && (0 <=? Z.of_nat c - dx)
          then default zero (cell g (Z.to_nat (Z.of_nat r - dy))
                                    (Z.to_nat (Z.of_nat c - dx)))
          else zero).
Proof.
  intros Hr Hc. apply cell_Some. eexists. split.
  - unfold warp_translate. rewrite list_lookup_fmap, seqZ_lookup_nat by done.
    reflexivity.
  - rewrite list_lookup_fmap, seqZ_lookup_nat by done. reflexivity.
Qed.

(** X11: the directional shadow is the subject mask moved by the offset the
    angle gives and scaled by the opacity.  For a [uint8] mask it always
    returns a mask-shaped [uint8] layer; an all-zero mask gives an all-zero
    layer; and without blur every mask cell that stays on the canvas after
    the move appears at its new place with its value times the opacity,
    truncated.  The offset is proportional to the subject's height in rows,
    so a subject spanning a single row casts its shadow onto itself. *)
Theorem create_directional_shadow_translates `{L : ImageLib} `{!ImageLibLaws L}
    `{M : MathLib} (mask : grid Z) (h w : Z) (angle length : Q) (blur : Z)
    (opacity : Q) :
  rect h w mask -> all_cells is_u8 mask ->
  let coords := np_where_pos mask in
  let car_height := fst (coords_max coords) - fst (coords_min coords) in
  let dx := py_int (cos_deg angle * inject_Z car_height * length) in
  let dy := py_int (sin_deg angle * inject_Z car_height * length) in
  exists out,
    create_directional_shadow mask angle length blur opacity = Ok out /\
    rect h w out /\ all_cells is_u8 out /\
    (all_cells (fun v => v = 0) mask -> all_cells (fun v => v = 0) out) /\
    (blur <= 0 ->
     forall (r c : nat) (v : Z),
       cell mask r c = Some v ->
       0 <= Z.of_nat r + dy < h -> 0 <= Z.of_nat c + dx < w ->
       cell out (Z.to_nat (Z.of_nat r + dy)) (Z.to_nat (Z.of_nat c + dx))
       = Some (to_uint8 (inject_Z v * opacity))).
Proof.
  intros Hrect Hu8 coords car_height dx dy.
  pose proof (rect_nrows _ _ _ Hrect) as Hn.
  pose proof (rect_nonneg _ _ _ Hrect) as Hh.
  unfold create_directional_shadow. fold coords. rewrite Hn.
  destruct (List.length coords =? 0)%nat eqn:Hlen.
  - apply Nat.eqb_eq, nil_length_inv in Hlen.
    rewrite np_zeros_ok by (done || apply ncols_nonneg).
    eexists. split; [reflexivity|].
    assert (forall r c a,
              cell (replicate (Z.to_nat h)
                      (replicate (Z.to_nat (ncols mask)) 0)) r c = Some a ->
              a = 0) as Hz.
    { intros r c a Ha. apply cell_Some in Ha as (row & Hrow & Ha).
      apply lookup_replicate in Hrow as [-> _].
      by apply lookup_replicate in Ha as [-> _]. }
    split; [|split; [|split]].
    + destruct (Z.eq_dec h 0) as [-> | Hh0].
      * split; [done|]. simpl. constructor.
      * rewrite (rect_ncols _ _ _ Hrect) by lia.
        apply rect_replicate; [done|]. rewrite <- (rect_ncols _ _ _ Hrect) by lia.
        apply ncols_nonneg.
    + apply all_cells_intro. intros r c a Ha. rewrite (Hz r c a Ha). unfold is_u8. lia.
    + intros _. apply all_cells_intro. exact Hz.
    + intros _ r c v Hv Hr Hc.
      destruct (rect_cell_bounds _ _ _ _ _ _ Hrect Hv) as [Hrh Hcw].
      rewrite (rect_ncols _ _ _ Hrect) by lia.
      assert (v = 0) as ->.
      { pose proof (all_cells_cell _ _ _ _ _ Hu8 Hv) as [Hv0 _].
        destruct (Z.eq_dec v 0) as [-> | Hne]; [done|]. exfalso.
        assert ((Z.of_nat r, Z.of_nat c) ∈ coords) as Hin.
        { apply elem_of_np_where_pos. exists r, c, v. repeat split; [done | lia]. }
        rewrite Hlen in Hin. by apply elem_of_nil in Hin. }
      rewrite to_uint8_zero by (change (inject_Z 0) with 0%Q; ring).
      apply cell_Some. eexists. split; apply lookup_replicate_2; lia.
  - apply Nat.eqb_neq in Hlen.
    assert (coords <> []) as Hne by (intros E; by rewrite E in Hlen).
    assert (0 < h) as Hh0.
    { destruct (coords_in_canvas mask h w Hrect Hne) as (? & ? & _). lia. }
    rewrite (rect_ncols _ _ _ Hrect) by done.
    assert (0 <= w) as Hw.
    { rewrite <- (rect_ncols _ _ _ Hrect) by done. apply ncols_nonneg. }
    fold car_height. fold dx dy.
    pose proof (rect_warp_translate 0 dx dy w h mask Hh Hw) as Hwarp.
    eexists. split; [reflexivity|].
    split; [|split; [|split]].
    + apply rect_gmap2. destruct (0 <? blur); [|done].
      by apply GaussianBlur1_shape.
    + apply all_cells_intro. intros r c a Ha. rewrite cell_gmap2 in Ha.
      destruct (cell _ r c); [|done]. simpl in Ha. inversion Ha.
      apply to_uint8_range.
    + intros Hzero. exfalso. apply Hne. apply np_where_pos_empty.
      apply all_cells_intro. intros r c a Ha.
      rewrite (all_cells_cell _ _ _ _ _ Hzero Ha). lia.
    + intros Hblur r c v Hv Hr Hc.
      rewrite (proj2 (Z.ltb_ge 0 blur)) by lia.
      rewrite cell_gmap2, cell_warp_translate by lia.
      rewrite !Z2Nat.id by lia.
      replace (Z.of_nat r + dy - dy) with (Z.of_nat r) by lia.
      replace (Z.of_nat c + dx - dx) with (Z.of_nat c) by lia.
      rewrite !(proj2 (Z.leb_le 0 _)) by lia. rewrite !Nat2Z.id, Hv. reflexivity.
Qed.

Lemma create_directional_shadow_translates_witness :
  exists out,
    create_directional_shadow (L := PlainLib) (M := PlainMath)
      [[0; 255; 0]; [0; 200; 0]; [0; 0; 0]] 90 (1 # 1) 0 (1 # 2) = Ok out /\
    rect 3 3 out /\
    cell out 1 1 = Some 127 /\ cell out 2 1 = Some 100.
Proof.
  assert (rect 3 3 [[0; 255; 0]; [0; 200; 0]; [0; 0; 0]]) as Hrect
    by (split; [reflexivity | repeat constructor]).
  assert (all_cells is_u8 [[0; 255; 0]; [0; 200; 0]; [0; 0; 0]]) as Hu8
    by (unfold all_cells; repeat constructor; unfold is_u8; lia).
  destruct (create_directional_shadow_translates (L := PlainLib) (M := PlainMath)
              [[0; 255; 0]; [0; 200; 0]; [0; 0; 0]] 3 3 90 (1 # 1) 0 (1 # 2)
              Hrect Hu8) as (out & Hout & Hr & _ & _ & Hcells).
  exists out. split; [exact Hout|]. split; [exact Hr|]. split.
  - apply (Hcells ltac:(lia) 0%nat 1%nat 255 eq_refl);
      vm_compute; split; congruence.
  - apply (Hcells ltac:(lia) 1%nat 1%nat 200 eq_refl);
      vm_compute; split; congruence.
Defined.
(** ** The shadow layer of a narrow subject *)

(** X12: a subject too narrow for its shadow makes [create_shadow_layer]
    fail.  When the mask has a positive cell, the shadow width
    [int(car_width * scale_x)] is not positive and [scale_y < 1] (as in all
    three built-in configurations), the second [cv2.resize] is asked for a
    target of non-positive width and raises; no layer is returned.  With
    the built-in configurations this is the case for every subject whose
    positive cells lie in a single column. *)
Theorem create_shadow_layer_narrow_subject `{L : ImageLib} (mask : grid Z)
    (shadow_type : string) (custom_config : option shadow_config)
    (config : shadow_config) :
  select_shadow_config shadow_type custom_config = Ok config ->
  np_where_pos mask <> [] ->
  let coords := np_where_pos mask in
  let car_width := snd (coords_max coords) - snd (coords_min coords) in
  py_int (inject_Z car_width * scale_x config) <= 0 ->
  (scale_y config < 1)%Q ->
  create_shadow_layer mask shadow_type custom_config = Raise CvError.
Proof.
  intros Hcfg Hne coords car_width Hsw Hsy.
  unfold create_shadow_layer. rewrite Hcfg. simpl. fold coords.
  destruct (length coords =? 0)%nat eqn:Hlen.
  { apply Nat.eqb_eq, nil_length_inv in Hlen. done. }
  destruct (coords_min coords) as [y_min x_min] eqn:Emin.
  destruct (coords_max coords) as [y_max x_max] eqn:Emax.
  simpl in car_width. fold car_width.
  set (sw := py_int (inject_Z car_width * scale_x config)) in *.
  set (sh := py_int (inject_Z (y_max - y_min) * scale_y config)).
  rewrite (proj2 (Z.ltb_ge 0 sw)) by lia. rewrite andb_false_r.
  rewrite (np_zeros_ok 0 (Z.max 1 sh) (Z.max 1 sw)) by lia. cbn [mbind result_bind].
  rewrite (proj2 (Qltb_lt _ _) Hsy).
  unfold cv_resize.
  rewrite (proj2 (Z.leb_le sw 0)) by lia.
  by rewrite orb_true_r.
Qed.

Lemma create_shadow_layer_narrow_subject_witness :
  create_shadow_layer (L := PlainLib) [[0; 0; 0]; [0; 255; 0]; [0; 255; 0]] "drop" None
  = Raise CvError.
Proof.
  apply (create_shadow_layer_narrow_subject (L := PlainLib)
           [[0; 0; 0]; [0; 255; 0]; [0; 255; 0]] "drop" None
           (mk_shadow 80 (15 # 100) 15 (20 # 100) (13 # 10) true)).
  - reflexivity.
  - discriminate.
  - vm_compute. discriminate.
  - reflexivity.
Defined.
(** ** The shadow layer in general *)

Lemma cell_replicate {A} (n m : nat) (z a : A) (r c : nat) :
  cell (replicate n (replicate m z)) r c = Some a -> a = z.
Proof.
  intros Ha. apply cell_Some in Ha as (row & Hrow & Ha).
  apply lookup_replicate in Hrow as [-> _].
  by apply lookup_replicate in Ha as [-> _].
Qed.

(** The last steps of [create_shadow_layer]: the shadow patch is pasted on
    an empty canvas at [(shadow_x, shadow_y)], clipped to the canvas, and
    the canvas is scaled by the opacity and cast. *)
Lemma paste_shadow (shadow : grid Z) (h w sh sw shadow_y shadow_x : Z) (op : Q) :
  0 <= h -> 0 <= w -> rect sh sw shadow -> 0 < sh ->
  exists layer,
    (shadow_full ← np_zeros 0%Q h w;
     let sy1 := Z.max 0 shadow_y in
     let sy2 := Z.min h (shadow_y + nrows shadow) in
     let sx1 := Z.max 0 shadow_x in
     let sx2 := Z.min w (shadow_x + ncols shadow) in
     let oy1 := Z.max 0 (- shadow_y) in
     let oy2 := oy1 + (sy2 - sy1) in
     let ox1 := Z.max 0 (- shadow_x) in
     let ox2 := ox1 + (sx2 - sx1) in
     shadow_full ←
       (if (sy1 <? sy2) && (sx1 <? sx2)
           && (oy2 <=? nrows shadow) && (ox2 <=? ncols shadow)
        then set_slice2 sy1 sy2 sx1 sx2
               (gmap2 inject_Z (slice2 oy1 oy2 ox1 ox2 shadow)) shadow_full
        else Ok shadow_full);
     let shadow_full := gmap2 (fun v => v * op)%Q shadow_full in
     Ok (gmap2 to_uint8 shadow_full)) = Ok layer /\
    rect h w layer /\ all_cells is_u8 layer /\
    forall (r c : nat) (v : Z),
      cell layer r c = Some v -> v <> 0 ->
      shadow_y <= Z.of_nat r < shadow_y + sh /\
      shadow_x <= Z.of_nat c < shadow_x + sw.
Proof.
  intros Hh Hw Hs Hsh.
  rewrite np_zeros_ok by done. cbn [mbind result_bind]. cbv zeta.
  rewrite (rect_nrows _ _ _ Hs), (rect_ncols _ _ _ Hs) by done.
  set (zeros := replicate (Z.to_nat h) (replicate (Z.to_nat w) 0%Q)).
  pose proof (rect_replicate h w 0%Q Hh Hw) as Hz. fold zeros in Hz.
  set (sy1 := Z.max 0 shadow_y). set (sy2 := Z.min h (shadow_y + sh)).
  set (sx1 := Z.max 0 shadow_x). set (sx2 := Z.min w (shadow_x + sw)).
  set (oy1 := Z.max 0 (- shadow_y)). set (ox1 := Z.max 0 (- shadow_x)).
  assert (forall g : grid Q,
            all_cells is_u8 (gmap2 to_uint8 (gmap2 (fun v => v * op)%Q g))) as Hu8.
  { intros g. apply all_cells_intro. intros r c a Ha. rewrite !cell_gmap2 in Ha.
    destruct (cell g r c); [|done]. simpl in Ha. inversion Ha. apply to_uint8_range. }
  assert (forall (g : grid Q) r c v,
            cell g r c = Some 0%Q ->
            cell (gmap2 to_uint8 (gmap2 (fun v => v * op)%Q g)) r c = Some v ->
            v = 0) as Hzero.
  { intros g r c v Hg Hv. rewrite !cell_gmap2, Hg in Hv. simpl in Hv.
    inversion Hv. apply to_uint8_zero. ring. }
  destruct ((sy1 <? sy2) && (sx1 <? sx2) && (oy1 + (sy2 - sy1) <=? sh)
            && (ox1 + (sx2 - sx1) <=? sw)) eqn:Hcond.
  - apply andb_true_iff in Hcond as [Hcond Hox]. apply andb_true_iff in Hcond as [Hcond Hoy].
    apply andb_true_iff in Hcond as [Hy Hx].
    apply Z.ltb_lt in Hy, Hx. apply Z.leb_le in Hoy, Hox.
    destruct (set_slice2_spec zeros
                (gmap2 inject_Z (slice2 oy1 (oy1 + (sy2 - sy1)) ox1 (ox1 + (sx2 - sx1)) shadow))
                h w sy1 sy2 sx1 sx2) as (g' & -> & Hg' & Hcells);
      [done | lia | lia | lia | lia | |].
    { apply rect_gmap2.
      replace (sy2 - sy1) with ((oy1 + (sy2 - sy1)) - oy1) at 1 by lia.
      replace (sx2 - sx1) with ((ox1 + (sx2 - sx1)) - ox1) at 1 by lia.
      apply (slice2_rect shadow sh sw); [done | lia..]. }
    cbn [mbind result_bind]. eexists. split; [reflexivity|].
    split; [by do 2 apply rect_gmap2|]. split; [by apply Hu8|].
    intros r c v Hv Hne.
    destruct (bool_decide ((sy1 <= Z.of_nat r < sy2) /\ (sx1 <= Z.of_nat c < sx2)))
      eqn:Hbox.
    + apply bool_decide_eq_true_1 in Hbox. lia.
    + exfalso. apply Hne. apply (Hzero g' r c v); [|done].
      rewrite Hcells, Hbox.
      assert (is_Some (cell g' r c)) as [q Hq].
      { rewrite !cell_gmap2 in Hv. destruct (cell g' r c); [by eexists | done]. }
      destruct (rect_cell_bounds _ _ _ _ _ _ Hg' Hq) as [Hr Hc].
      destruct (rect_cell zeros h w r c Hz Hr Hc) as [z Ez]. rewrite Ez.
      by rewrite (cell_replicate _ _ _ _ _ _ Ez).
  - cbn [mbind result_bind]. eexists. split; [reflexivity|].
    split; [by do 2 apply rect_gmap2|]. split; [by apply Hu8|].
    intros r c v Hv Hne. exfalso. apply Hne. apply (Hzero zeros r c v); [|done].
    assert (is_Some (cell zeros r c)) as [q Hq].
    { rewrite !cell_gmap2 in Hv. destruct (cell zeros r c); [by eexists | done]. }
    by rewrite Hq, (cell_replicate _ _ _ _ _ _ Hq).
Qed.
Lemma py_int_pos_factor (n : Z) (s : Q) : 0 <= n -> 0 < py_int (inject_Z n * s) -> 0 < n.
Proof.
  intros Hn Hpos. destruct (Z.eq_dec n 0) as [-> | Hne]; [|lia].
  exfalso. assert (py_int (inject_Z 0 * s) = 0) as E; [|lia].
  transitivity (py_int 0); [|reflexivity]. apply py_int_proper. ring.
Qed.

Lemma is_empty_false {A} (g : grid A) : is_empty g = false -> 0 < nrows g /\ 0 < ncols g.
Proof.
  unfold is_empty. intros H. apply orb_false_iff in H as [H1 H2].
  apply Z.eqb_neq in H1, H2. pose proof (ncols_nonneg g). unfold nrows in *. lia.
Qed.

(** X13: for a subject wide enough ([int(car_width * scale_x) > 0])
    [create_shadow_layer] always returns a [uint8] layer of the mask's
    shape, and the shadow is confined to its patch: every non-zero cell lies
    in the [max(1, shadow_height)] rows that start [offset_y] rows below the
    subject's lowest row and in the [shadow_width] columns centred on the
    subject.  In particular nothing is drawn above the subject's lowest
    row for a non-negative [offset_y]. *)
Theorem create_shadow_layer_confined `{L : ImageLib} `{!ImageLibLaws L}
    (mask : grid Z) (h w : Z) (shadow_type : string)
    (custom_config : option shadow_config) (config : shadow_config) :
  rect h w mask ->
  select_shadow_config shadow_type custom_config = Ok config ->
  np_where_pos mask <> [] ->
  let coords := np_where_pos mask in
  let y_min := fst (coords_min coords) in
  let x_min := snd (coords_min coords) in
  let y_max := fst (coords_max coords) in
  let x_max := snd (coords_max coords) in
  let car_height := y_max - y_min in
  let car_width := x_max - x_min in
  let shadow_height := py_int (inject_Z car_height * scale_y config) in
  let shadow_width := py_int (inject_Z car_width * scale_x config) in
  0 < shadow_width ->
  exists layer,
    create_shadow_layer mask shadow_type custom_config = Ok layer /\
    rect h w layer /\ all_cells is_u8 layer /\
    forall (r c : nat) (v : Z),
      cell layer r c = Some v -> v <> 0 ->
      y_max + offset_y config <= Z.of_nat r
        < y_max + offset_y config + Z.max 1 shadow_height /\
      x_min + (car_width - shadow_width) / 2 <= Z.of_nat c
        < x_min + (car_width - shadow_width) / 2 + shadow_width.
Proof.
  intros Hrect Hcfg Hne coords y_min x_min y_max x_max car_height car_width sh sw Hsw.
  destruct (coords_in_canvas mask h w Hrect Hne) as (Hy & Hyh & Hx & Hxw).
  fold coords in Hy, Hyh, Hx, Hxw. fold y_min y_max in Hy, Hyh. fold x_min x_max in Hx, Hxw.
  assert (0 < h) as Hh by lia.
  assert (0 < car_width) as Hcw.
  { apply (py_int_pos_factor _ (scale_x config)); [unfold car_width; lia | done]. }
  assert (coords_min coords = (y_min, x_min)) as Emin by apply surjective_pairing.
  assert (coords_max coords = (y_max, x_max)) as Emax by apply surjective_pairing.
  clearbody y_min x_min y_max x_max.
  unfold create_shadow_layer. rewrite Hcfg. cbn [mbind result_bind]. cbv zeta.
  fold coords.
  destruct (length coords =? 0)%nat eqn:Hlen.
  { apply Nat.eqb_eq, nil_length_inv in Hlen. done. }
  rewrite Emin, Emax.
  fold car_height car_width. fold sh sw.
  rewrite (rect_nrows _ _ _ Hrect), (rect_ncols _ _ _ Hrect) by done.
  set (strip := if is_empty (slice2 (y_max - sh) y_max x_min x_max mask)
                then slice2 (Z.max 0 (y_max - 20)) y_max x_min x_max mask
                else slice2 (y_max - sh) y_max x_min x_max mask).
  assert (exists s1,
            (if (0 <? sh) && (0 <? sw)
             then cv_resize (resize1 INTER_LINEAR) strip sw sh
             else np_zeros 0 (Z.max 1 sh) (Z.max 1 sw)) = Ok s1 /\
            rect (Z.max 1 sh) sw s1) as (s1 & -> & Hs1).
  { destruct (0 <? sh) eqn:Hsh; simpl.
    - apply Z.ltb_lt in Hsh. rewrite (proj2 (Z.ltb_lt 0 sw)) by done.
      assert (0 < car_height) as Hch.
      { apply (py_int_pos_factor _ (scale_y config)); [unfold car_height; lia | done]. }
      assert (0 < nrows strip /\ 0 < ncols strip) as [Hsr Hsc].
      { unfold strip.
        destruct (is_empty (slice2 (y_max - sh) y_max x_min x_max mask)) eqn:Hemp;
          [|by apply is_empty_false].
        assert (rect (y_max - Z.max 0 (y_max - 20)) (x_max - x_min)
                  (slice2 (Z.max 0 (y_max - 20)) y_max x_min x_max mask)) as Hr2.
        { apply (slice2_rect mask h w); [done | unfold car_height in Hch; lia..]. }
        rewrite (rect_nrows _ _ _ Hr2), (rect_ncols _ _ _ Hr2);
          unfold car_height, car_width in *; lia. }
      unfold cv_resize.
      rewrite (proj2 (Z.leb_gt _ _) Hsr), (proj2 (Z.leb_gt _ _) Hsc),
        (proj2 (Z.leb_gt _ _) Hsw), (proj2 (Z.leb_gt _ _) Hsh). simpl.
      eexists. split; [reflexivity|].
      rewrite Z.max_r by lia. by apply resize1_shape.
    - apply Z.ltb_ge in Hsh. rewrite np_zeros_ok by lia.
      eexists. split; [reflexivity|].
      rewrite (Z.max_r 1 sw) by lia. apply rect_replicate; lia. }
  cbn [mbind result_bind].
  assert (exists s2,
            (if Qltb (scale_y config) 1
             then cv_resize (resize1 INTER_LINEAR) s1 sw (Z.max 1 sh)
             else Ok s1) = Ok s2 /\
            rect (Z.max 1 sh) sw s2) as (s2 & -> & Hs2).
  { destruct (Qltb (scale_y config) 1); [|by exists s1].
    unfold cv_resize.
    rewrite (rect_nrows _ _ _ Hs1), (rect_ncols _ _ _ Hs1) by lia.
    rewrite (proj2 (Z.leb_gt (Z.max 1 sh) 0)) by lia.
    rewrite (proj2 (Z.leb_gt sw 0)) by lia. simpl.
    eexists. split; [reflexivity|]. apply resize1_shape; lia. }
  cbn [mbind result_bind].
  set (s3 := if default false (gradient config) then _apply_shadow_gradient s2 else s2).
  assert (rect (Z.max 1 sh) sw s3) as Hs3.
  { unfold s3. destruct (default false (gradient config)); [|done].
    by apply (rect_imap2 (fun y x v => to_uint8 _)). }
  set (s4 := if 0 <? blur_radius config
             then GaussianBlur1 s3 (blur_radius config * 2 + 1) else s3).
  assert (rect (Z.max 1 sh) sw s4) as Hs4.
  { unfold s4. destruct (0 <? blur_radius config); [|done].
    by apply GaussianBlur1_shape. }
  apply (paste_shadow s4 h w (Z.max 1 sh) sw (y_max + offset_y config)
           (x_min + (car_width - sw) / 2) (opacity config)); [lia | lia | done | lia].
Qed.

Lemma create_shadow_layer_confined_witness :
  exists layer,
    create_shadow_layer (L := PlainLib)
      [[0; 255; 255; 255; 0]; [0; 255; 255; 255; 0]; [0; 0; 0; 0; 0]; [0; 0; 0; 0; 0]]
      "contact" None = Ok layer /\
    rect 4 5 layer /\
    forall (r c : nat) (v : Z),
      cell layer r c = Some v -> v <> 0 -> 1 <= Z.of_nat r < 2 /\ 1 <= Z.of_nat c < 2.
Proof.
  destruct (create_shadow_layer_confined (L := PlainLib)
              [[0; 255; 255; 255; 0]; [0; 255; 255; 255; 0]; [0; 0; 0; 0; 0]; [0; 0; 0; 0; 0]]
              4 5 "contact" None
              (mk_shadow 5 (45 # 100) 0 (15 # 1000) (95 # 100) false))
    as (layer & Hlayer & Hr & _ & Hbox).
  - split; [reflexivity | repeat constructor].
  - reflexivity.
  - discriminate.
  - reflexivity.
  - exists layer. split; [exact Hlayer|]. split; [exact Hr|]. exact Hbox.
Defined.
(** ** The reflection *)

(** X14: a fade height that reaches past the image makes [create_reflection]
    fail.  When [int(h * fade_height)] exceeds the image height [h], the
    gradient loop writes row [h] of an [h]-row array and raises
    [IndexError]; the fade height is not clamped. *)
Theorem create_reflection_fade_overflow `{L : ImageLib} (car_image : grid pixel)
    (car_mask : grid Z) (h w : Z) (opacity fade_height : Q) (blur gap : Z) :
  rect h w car_image ->
  h < py_int (inject_Z h * fade_height) ->
  create_reflection car_image car_mask opacity fade_height blur gap
  = Raise IndexError.
Proof.
  intros Hrect Hover. unfold create_reflection.
  pose proof (rect_nonneg _ _ _ Hrect) as Hh.
  rewrite (rect_nrows _ _ _ Hrect).
  rewrite np_zeros_ok by (done || apply ncols_nonneg). cbn [mbind result_bind].
  set (fade_end := py_int (inject_Z h * fade_height)) in *.
  set (zeros := replicate (Z.to_nat h) (replicate (Z.to_nat (ncols car_image)) 0%Q)).
  rewrite (py_range_split 0 h fade_end) by lia. rewrite for_each_app.
  edestruct (for_each_inv (fun g : grid Q => length g = Z.to_nat h)
               (fun y => 0 <= y < h) (py_range 0 h)) as (g1 & -> & Hg1).
  - unfold zeros. apply length_replicate.
  - apply py_range_Forall.
  - intros g y Hg Hy. cbv beta. fold fade_end.
    rewrite py_truediv_ok by lia. cbn [mbind result_bind].
    rewrite set_row_in_range by lia.
    eexists. split; [reflexivity|]. by rewrite length_alter.
  - cbn [mbind result_bind]. rewrite (py_range_cons h fade_end) by lia.
    rewrite for_each_cons. cbv beta. rewrite py_truediv_ok by lia.
    cbn [mbind result_bind]. unfold set_row. by rewrite py_index_raise by lia.
Qed.

Lemma create_reflection_fade_overflow_witness :
  create_reflection (L := PlainLib) [[(1, 2, 3)]; [(4, 5, 6)]] [[255]; [255]]
    (2 # 10) (2 # 1) 2 0 = Raise IndexError.
Proof.
  apply (create_reflection_fade_overflow (L := PlainLib)
           [[(1, 2, 3)]; [(4, 5, 6)]] [[255]; [255]] 2 1).
  - split; [reflexivity | repeat constructor].
  - reflexivity.
Defined.

Lemma cell_flip0 {A} (g : grid A) (h : Z) (r c : nat) :
  nrows g = h -> Z.of_nat r < h ->
  cell (cv_flip0 g) r c = cell g (Z.to_nat (h - 1 - Z.of_nat r)) c.
Proof.
  intros Hn Hr. unfold cell, cv_flip0. unfold nrows in Hn.
  rewrite reverse_lookup by lia. do 2 f_equal. lia.
Qed.

Lemma rect_desaturate (image : grid pixel) (amount : Q) (h w : Z) :
  rect h w image -> rect h w (_desaturate image amount).
Proof. apply rect_gmap2. Qed.

(** X15: the reflection is never more opaque than the subject it mirrors.
    For a [uint8] mask, an opacity in [0, 1] and a fade height of at most 1,
    [create_reflection] returns an image and an alpha mask of the subject's
    shape; without blur and gap the alpha at row [r] is at most the mask
    value at the mirrored row [h - 1 - r] of the same column, and it is 0
    from row [int(h * fade_height)] on. *)
Theorem create_reflection_alpha_bounded `{L : ImageLib} `{!ImageLibLaws L}
    (car_image : grid pixel) (car_mask : grid Z) (h w : Z)
    (opacity fade_height : Q) (blur gap : Z) :
  rect h w car_image -> rect h w car_mask -> all_cells is_u8 car_mask ->
  (0 <= opacity <= 1)%Q -> (fade_height <= 1)%Q ->
  exists reflection reflection_mask,
    create_reflection car_image car_mask opacity fade_height blur gap
    = Ok (reflection, reflection_mask) /\
    rect h w reflection /\ rect h w reflection_mask /\
    (blur <= 0 -> gap <= 0 ->
     forall (r c : nat) (a : Z),
       cell reflection_mask r c = Some a ->
       exists m,
         cell car_mask (Z.to_nat (h - 1 - Z.of_nat r)) c = Some m /\
         0 <= a <= m /\
         (py_int (inject_Z h * fade_height) <= Z.of_nat r -> a = 0)).
Proof.
  intros Himg Hmask Hu8 [Hop0 Hop1] Hfh.
  destruct (create_reflection_run car_image car_mask h w opacity fade_height blur gap
              Himg Hmask Hfh) as (grad & Hgrad & Hgv & ->).
  cbv zeta.
  set (alpha := gmap2 (fun v => to_uint8 (v * 255))
                  (gmap2 (fun v => (v * opacity)%Q)
                     (zip_with (zip_with Qmult)
                        (gmap2 (fun v => (inject_Z v / 255)%Q) (cv_flip0 car_mask))
                        grad))).
  assert (rect h w alpha) as Halpha.
  { unfold alpha. do 2 apply rect_gmap2.
    apply (zip2_ok Qmult h w); [|done]. by apply rect_gmap2, rect_reverse. }
  assert (forall (r c : nat) (a : Z),
            cell alpha r c = Some a ->
            exists m,
              cell car_mask (Z.to_nat (h - 1 - Z.of_nat r)) c = Some m /\
              0 <= a <= m /\
              (py_int (inject_Z h * fade_height) <= Z.of_nat r -> a = 0)) as Hcells.
  { intros r c a Ha.
    destruct (rect_cell_bounds _ _ _ _ _ _ Halpha Ha) as [Hr Hc].
    unfold alpha in Ha. rewrite !cell_gmap2 in Ha.
    destruct (cell (zip_with _ _ _) r c) as [q|] eqn:Eq; [|done].
    simpl in Ha. inversion Ha; subst a. clear Ha.
    apply cell_zip_with in Eq as (mv & gv & Hmv & Hgv' & ->).
    rewrite cell_gmap2, (cell_flip0 car_mask h) in Hmv
      by (done || apply (rect_nrows _ _ _ Hmask)).
    destruct (cell car_mask _ c) as [m|] eqn:Em; [|done].
    simpl in Hmv. inversion Hmv; subst mv. clear Hmv.
    exists m. split; [done|].
    rewrite (Hgv r c gv Hgv').
    pose proof (fade_value_range (py_int (inject_Z h * fade_height)) (Z.of_nat r))
      as [Hf0 Hf1].
    set (fv := fade_value _ _) in *.
    pose proof (inject_Z_u8 m (all_cells_cell _ _ _ _ _ Hu8 Em)) as [Hm0 Hm1].
    assert (inject_Z m / 255 * fv * opacity * 255 == inject_Z m * (fv * opacity))%Q
      as Heq by field.
    rewrite (to_uint8_proper _ _ Heq).
    split.
    - apply darken_u8; [by apply (all_cells_cell _ _ _ _ _ Hu8 Em)|]. split; nra.
    - intros Hr'. unfold fv. rewrite fade_value_zero by done.
      apply to_uint8_zero. ring. }
  destruct (0 <? blur) eqn:Hblur, (0 <? gap) eqn:Hgap;
    (eexists _, _; split; [reflexivity|]; split; [|split]);
    try (intros Hb Hg; apply Z.ltb_lt in Hblur; lia);
    try (intros Hb Hg; apply Z.ltb_lt in Hgap; lia);
    try exact (fun _ _ => Hcells);
    repeat first [ apply rect_warp_shift_down | apply rect_desaturate
                 | apply GaussianBlur3_shape | apply GaussianBlur1_shape
                 | apply rect_reverse | assumption ].
Qed.

Lemma create_reflection_alpha_bounded_witness :
  exists reflection reflection_mask,
    create_reflection (L := PlainLib) [[(1, 2, 3)]; [(4, 5, 6)]] [[0]; [255]]
      (1 # 2) (1 # 1) 0 0 = Ok (reflection, reflection_mask) /\
    rect 2 1 reflection /\ rect 2 1 reflection_mask /\
    forall (r c : nat) (a : Z),
      cell reflection_mask r c = Some a ->
      exists m,
        cell [[0]; [255]] (Z.to_nat (2 - 1 - Z.of_nat r)) c = Some m /\
        0 <= a <= m /\ (py_int (inject_Z 2 * (1 # 1)) <= Z.of_nat r -> a = 0).
Proof.
  destruct (create_reflection_alpha_bounded (L := PlainLib)
              [[(1, 2, 3)]; [(4, 5, 6)]] [[0]; [255]] 2 1 (1 # 2) (1 # 1) 0 0)
    as (refl & rmask & Hrun & Hr1 & Hr2 & Hcells).
  - split; [reflexivity | repeat constructor].
  - split; [reflexivity | repeat constructor].
  - unfold all_cells. repeat constructor; unfold is_u8; lia.
  - split; discriminate.
  - discriminate.
  - exists refl, rmask. split; [exact Hrun|]. split; [exact Hr1|]. split; [exact Hr2|].
    apply Hcells; lia.
Defined.
(** ** The extended reflection *)

(** A loop that fills row [y] of an empty [h] by [w] array with [F (y / n)]
    for [y] below [n]. *)
Lemma row_gradient_loop (F : Q -> Q) (h w n : Z) :
  0 <= h -> 0 <= w -> 0 <= n <= h ->
  exists grad,
    for_each (py_range 0 n)
      (fun gradient y => t ← py_truediv y n; set_row gradient y (F t))
      (replicate (Z.to_nat h) (replicate (Z.to_nat w) 0%Q)) = Ok grad /\
    rect h w grad /\
    forall (r c : nat) (v : Q),
      cell grad r c = Some v ->
      v = if bool_decide (Z.of_nat r < n)
          then F (inject_Z (Z.of_nat r) / inject_Z n)%Q else 0%Q.
Proof.
  intros Hh Hw Hn.
  set (g0 := replicate (Z.to_nat h) (replicate (Z.to_nat w) 0%Q)).
  rewrite (for_each_ext _ _
             (fun g y => set_row g y (F (inject_Z y / inject_Z n))%Q)).
  2:{ intros g y Hy. apply py_range_spec in Hy. by rewrite py_truediv_ok by lia. }
  unfold py_range.
  destruct (for_each_set_row (fun y => F (inject_Z y / inject_Z n)%Q)
              (Z.to_nat (n - 0)) 0 g0) as (grad & Hgrad & Hlen & Hrows);
    [lia | unfold g0; rewrite length_replicate; lia |].
  rewrite Z2Nat.id in Hgrad by lia.
  exists grad. split; [exact Hgrad|].
  assert (forall i row, grad !! i = Some row ->
            row = replicate (Z.to_nat w)
                    (if bool_decide (Z.of_nat i < n)
                     then F (inject_Z (Z.of_nat i) / inject_Z n)%Q else 0%Q)) as Hrow.
  { intros i row Hi.
    assert (i < length g0)%nat as Hlt by (rewrite <- Hlen; by eapply lookup_lt_Some).
    assert (g0 !! i = Some (replicate (Z.to_nat w) 0%Q)) as H0.
    { unfold g0. apply lookup_replicate_2. unfold g0 in Hlt.
      by rewrite length_replicate in Hlt. }
    rewrite (Hrows i _ H0) in Hi. inversion Hi as [Heq]. clear Hi.
    rewrite length_replicate.
    destruct (bool_decide (0 <= Z.of_nat i < 0 + Z.of_nat (Z.to_nat (n - 0)))) eqn:E.
    - apply bool_decide_eq_true in E. by rewrite bool_decide_eq_true_2 by lia.
    - apply bool_decide_eq_false in E. by rewrite bool_decide_eq_false_2 by lia. }
  split.
  - split.
    + unfold nrows. rewrite Hlen. unfold g0. rewrite length_replicate. lia.
    + apply Forall_lookup. intros i row Hi. rewrite (Hrow i row Hi).
      rewrite length_replicate. lia.
  - intros r c v Hc. apply cell_Some in Hc as (row & Hi & Hv).
    rewrite (Hrow r row Hi) in Hv. by apply lookup_replicate in Hv as [-> _].
Qed.

Lemma rect_py_slice {A} (g : grid A) (h w i j : Z) :
  rect h w g -> 0 <= i <= j -> j <= h -> rect (j - i) w (py_slice i j g).
Proof.
  intros [Hn Hrows] Hij Hj. unfold nrows in Hn. split.
  - unfold nrows. rewrite py_slice_length by lia. lia.
  - rewrite py_slice_in_range by lia. by apply Forall_take, Forall_drop.
Qed.

Lemma cell_py_slice {A} (g : grid A) (i j : Z) (k c : nat) :
  0 <= i <= j -> j <= nrows g -> Z.of_nat k < j - i ->
  cell (py_slice i j g) k c = cell g (Z.to_nat i + k) c.
Proof.
  intros Hij Hj Hk. unfold cell, nrows in *.
  rewrite py_slice_lookup by lia. by rewrite bool_decide_eq_true_2 by lia.
Qed.

Lemma py_slice_crossed {A} (l : list A) (i j : Z) : 0 <= j <= i -> py_slice i j l = [].
Proof.
  intros Hij. unfold py_slice, py_slice_bound.
  rewrite (proj2 (Z.ltb_ge i 0)), (proj2 (Z.ltb_ge j 0)) by lia.
  replace (Z.to_nat _) with 0%nat by lia. apply take_0.
Qed.

(** X16: the extended reflection.  For a mask with a positive cell let
    [y_min], [y_max] be its first and last positive row and
    [reflection_height = int((y_max - y_min) * max_reflection_height)].
    When that height is not positive (for example a subject confined to one
    row) the function returns all-zero arrays of the image's shape and
    position 0.  When it is positive and at most [y_max], it returns
    [reflection_height] rows of the image's width, placed at
    [car_y_position + car_h]; and, for an opacity in [0, 1] and a power
    function that maps [0, 1] into [0, 1], the alpha at row [i] is at most
    the mask value at row [y_max - 1 - i]: the subject's rows just above
    its lowest row, mirrored; the lowest row itself is not part of the
    reflection. *)
Theorem create_reflection_extended_spec `{L : ImageLib} `{!ImageLibLaws L}
    (car_image : grid pixel) (car_mask : grid Z) (h w : Z)
    (background_height car_y_position : Z) (opacity max_reflection_height : Q) :
  rect h w car_image -> rect h w car_mask -> all_cells is_u8 car_mask ->
  np_where_pos car_mask <> [] ->
  let coords := np_where_pos car_mask in
  let y_max := fst (coords_max coords) in
  let actual_height := y_max - fst (coords_min coords) in
  let reflection_height := py_int (inject_Z actual_height * max_reflection_height) in
  (reflection_height <= 0 ->
   exists reflection reflection_mask,
     create_reflection_extended car_image car_mask background_height car_y_position
       opacity max_reflection_height = Ok (reflection, reflection_mask, 0) /\
     rect h w reflection /\ all_cells (fun p => p = (0, 0, 0)) reflection /\
     rect h w reflection_mask /\ all_cells (fun v => v = 0) reflection_mask) /\
  (0 < reflection_height <= y_max ->
   exists reflection reflection_mask,
     create_reflection_extended car_image car_mask background_height car_y_position
       opacity max_reflection_height
     = Ok (reflection, reflection_mask, car_y_position + h) /\
     rect reflection_height w reflection /\
     rect reflection_height w reflection_mask /\
     ((0 <= opacity <= 1)%Q ->
      (forall t, (0 <= t <= 1)%Q -> (0 <= float_pow t (8 # 10) <= 1)%Q) ->
      forall (i c : nat) (a : Z),
        cell reflection_mask i c = Some a ->
        exists v,
          cell car_mask (Z.to_nat (y_max - 1 - Z.of_nat i)) c = Some v /\
          0 <= a <= v)).
Proof.
  intros Himg Hmask Hu8 Hne coords y_max actual_height rh.
  destruct (coords_in_canvas car_mask h w Hmask Hne) as (Hy & Hyh & Hx & Hxw).
  fold coords in Hy, Hyh, Hx, Hxw. fold y_max in Hy, Hyh.
  assert (0 < h) as Hh by lia. assert (0 < w) as Hw by lia.
  pose proof (rect_nrows _ _ _ Himg) as Hn.
  pose proof (rect_ncols _ _ _ Himg Hh) as Hc.
  unfold create_reflection_extended. fold coords.
  destruct (length coords =? 0)%nat eqn:Hlen.
  { apply Nat.eqb_eq, nil_length_inv in Hlen. done. }
  cbv zeta. fold y_max. fold actual_height. fold rh. rewrite Hn, Hc.
  split.
  - intros Hrh. rewrite (py_slice_crossed car_image) by lia.
    change (is_empty []) with true. cbv iota.
    rewrite np_zeros_ok by lia. cbn [mbind result_bind].
    eexists _, _. split; [reflexivity|].
    split; [by apply rect_gmap2|]. split.
    { apply all_cells_intro. intros r c a Ha. rewrite cell_gmap2 in Ha.
      destruct (cell car_image r c); [|done]. simpl in Ha. by inversion Ha. }
    split; [apply rect_replicate; lia|]. by apply all_cells_replicate.
  - intros [Hrh0 Hrh1].
    assert (rect rh w (py_slice (y_max - rh) y_max car_image)) as Hbp.
    { replace rh with (y_max - (y_max - rh)) at 1 by lia.
      apply (rect_py_slice car_image h w); [done | lia | lia]. }
    assert (rect rh w (py_slice (y_max - rh) y_max car_mask)) as Hbm.
    { replace rh with (y_max - (y_max - rh)) at 1 by lia.
      apply (rect_py_slice car_mask h w); [done | lia | lia]. }
    assert (is_empty (py_slice (y_max - rh) y_max car_image) = false) as ->.
    { unfold is_empty. rewrite (rect_nrows _ _ _ Hbp), (rect_ncols _ _ _ Hbp) by done.
      apply orb_false_iff. split; apply Z.eqb_neq; lia. }
    rewrite (rect_nrows _ _ _ (rect_reverse _ _ _ Hbp)).
    rewrite np_zeros_ok by lia. cbn [mbind result_bind].
    destruct (row_gradient_loop (fun t => (1 - float_pow t (8 # 10))%Q) rh w rh)
      as (grad & -> & Hgrad & Hgv); [lia | lia | lia |].
    cbn [mbind result_bind].
    destruct (zip2_ok (fun (v : Z) (gr : Q) =>
                         to_uint8 (inject_Z v / 255 * gr * opacity * 255)%Q)
                rh w (cv_flip0 (py_slice (y_max - rh) y_max car_mask)) grad)
      as [-> Hm]; [by apply rect_reverse | done |].
    cbn [mbind result_bind].
    eexists _, _. split; [reflexivity|].
    split; [by apply rect_desaturate, GaussianBlur3_shape, rect_reverse|].
    split; [exact Hm|].
    intros [Hop0 Hop1] Hpow i c a Ha.
    destruct (rect_cell_bounds _ _ _ _ _ _ Hm Ha) as [Hi Hcc].
    apply cell_zip_with in Ha as (v & gr & Hv & Hgr & ->).
    rewrite (cell_flip0 _ rh) in Hv by (done || apply (rect_nrows _ _ _ Hbm)).
    rewrite cell_py_slice in Hv by (rewrite ?(rect_nrows _ _ _ Hmask); lia).
    replace (Z.to_nat (y_max - rh) + Z.to_nat (rh - 1 - Z.of_nat i))%nat
      with (Z.to_nat (y_max - 1 - Z.of_nat i)) in Hv by lia.
    exists v. split; [exact Hv|].
    rewrite (Hgv i c gr Hgr), bool_decide_eq_true_2 by lia.
    pose proof (Qdiv_nonneg_lt_1 (Z.of_nat i) rh ltac:(lia)) as [Ht0 Ht1].
    destruct (Hpow (inject_Z (Z.of_nat i) / inject_Z rh)%Q) as [Hp0 Hp1];
      [split; lra|].
    set (pw := float_pow _ _) in *.
    pose proof (all_cells_cell _ _ _ _ _ Hu8 Hv) as Hvu.
    pose proof (inject_Z_u8 v Hvu) as [Hv0 Hv1].
    assert (inject_Z v / 255 * (1 - pw) * opacity * 255
            == inject_Z v * ((1 - pw) * opacity))%Q as Heq by field.
    rewrite (to_uint8_proper _ _ Heq).
    apply darken_u8; [done|]. split; nra.
Qed.

Lemma create_reflection_extended_spec_witness :
  exists reflection reflection_mask,
    create_reflection_extended (L := PlainLib)
      [[(9, 9, 9)]; [(8, 8, 8)]; [(7, 7, 7)]; [(6, 6, 6)]]
      [[255]; [200]; [100]; [0]] 100 10 (1 # 2) (1 # 2)
    = Ok (reflection, reflection_mask, 10 + 4) /\
    rect 1 1 reflection /\ rect 1 1 reflection_mask.
Proof.
  destruct (create_reflection_extended_spec (L := PlainLib)
              [[(9, 9, 9)]; [(8, 8, 8)]; [(7, 7, 7)]; [(6, 6, 6)]]
              [[255]; [200]; [100]; [0]] 4 1 100 10 (1 # 2) (1 # 2))
    as [_ Hpos].
  - split; [reflexivity | repeat constructor].
  - split; [reflexivity | repeat constructor].
  - unfold all_cells. repeat constructor; unfold is_u8; lia.
  - discriminate.
  - destruct Hpos as (refl & rmask & Hrun & Hr1 & Hr2 & _).
    + vm_compute. split; [reflexivity | discriminate].
    + by exists refl, rmask.
Defined.
(** ** The compositor as a whole *)

(** [_blend_layer] on well-formed arrays: it never raises, keeps the shape
    of the base, and changes exactly the cells of the overlap. *)
Lemma blend_layer_cells (base : grid fpixel) (layer : grid pixel)
    (mask : grid Z) (bh bw lh lw x y : Z) :
  rect bh bw base -> rect lh lw layer -> rect lh lw mask ->
  exists base',
    _blend_layer base layer mask x y = Ok base' /\ rect bh bw base' /\
    forall r c,
      blended_cell (cell base r c) (cell base' r c) id id cvtColor_BGR2RGB
                   layer mask bh bw lh lw x y r c.
Proof.
  intros Hbase Hlayer Hmask.
  pose proof (rect_nrows _ _ _ Hbase) as Hbn.
  pose proof (rect_nrows _ _ _ Hlayer) as Hln.
  pose proof (rect_nonneg _ _ _ Hbase) as Hbh. pose proof (rect_nonneg _ _ _ Hlayer) as Hlh.
  pose proof (ncols_nonneg base) as Hbc. pose proof (ncols_nonneg layer) as Hlc.
  unfold _blend_layer. rewrite Hbn, Hln.
  destruct ((Z.min (ncols base) (x + ncols layer) <=? Z.max 0 x)
            || (Z.min bh (y + lh) <=? Z.max 0 y)) eqn:Hcond.
  - exists base. split; [done|]. split; [done|]. intros r c. split; [|done].
    intros [[Hr Hc] [Hy Hx]]. exfalso.
    rewrite (rect_ncols _ _ _ Hbase) in Hcond by lia.
    rewrite (rect_ncols _ _ _ Hlayer) in Hcond by lia.
    apply orb_true_iff in Hcond as [Hcond | Hcond]; apply Z.leb_le in Hcond; lia.
  - apply orb_false_iff in Hcond as [Hx Hy].
    apply Z.leb_gt in Hx. apply Z.leb_gt in Hy.
    assert (0 < bh) as Hbh' by lia. assert (0 < lh) as Hlh' by lia.
    rewrite (rect_ncols _ _ _ Hbase) in * by done.
    rewrite (rect_ncols _ _ _ Hlayer) in * by done.
    set (y1 := Z.max 0 y) in *. set (y2 := Z.min bh (y + lh)) in *.
    set (x1 := Z.max 0 x) in *. set (x2 := Z.min bw (x + lw)) in *.
    set (ly1 := Z.max 0 (- y)). set (lx1 := Z.max 0 (- x)).
    assert (rect (y2 - y1) (x2 - x1)
              (slice2 ly1 (ly1 + (y2 - y1)) lx1 (lx1 + (x2 - x1)) layer)) as Hlr.
    { replace (y2 - y1) with ((ly1 + (y2 - y1)) - ly1) at 1 by lia.
      replace (x2 - x1) with ((lx1 + (x2 - x1)) - lx1) at 1 by lia.
      apply (slice2_rect layer lh lw); [done | lia..]. }
    assert (rect (y2 - y1) (x2 - x1)
              (slice2 ly1 (ly1 + (y2 - y1)) lx1 (lx1 + (x2 - x1)) mask)) as Hmr.
    { replace (y2 - y1) with ((ly1 + (y2 - y1)) - ly1) at 1 by lia.
      replace (x2 - x1) with ((lx1 + (x2 - x1)) - lx1) at 1 by lia.
      apply (slice2_rect mask lh lw); [done | lia..]. }
    destruct (blend_region_spec base
                (gmap2 cvtColor_BGR2RGB
                   (slice2 ly1 (ly1 + (y2 - y1)) lx1 (lx1 + (x2 - x1)) layer))
                (slice2 ly1 (ly1 + (y2 - y1)) lx1 (lx1 + (x2 - x1)) mask)
                bh bw y1 y2 x1 x2)
      as (base' & -> & Hrect' & Hcells);
      [done | lia | lia | lia | lia | by apply rect_gmap2 | done |].
    exists base'. split; [done|]. split; [done|]. intros r c.
    specialize (Hcells r c). split.
    + intros [[Hr Hc] [Hyr Hxc]].
      rewrite bool_decide_eq_true_2 in Hcells by lia.
      destruct Hcells as (b & l & m & Hb & Hl & Hm & Hnew).
      split; [lia|]. split; [lia|].
      rewrite cell_gmap2, (slice2_cell layer lh lw) in Hl by (done || lia).
      rewrite (slice2_cell mask lh lw) in Hm by (done || lia).
      rewrite bool_decide_eq_true_2 in Hl, Hm by lia.
      replace (Z.to_nat ly1 + (r - Z.to_nat y1))%nat
        with (Z.to_nat (Z.of_nat r - y)) in Hl, Hm by lia.
      replace (Z.to_nat lx1 + (c - Z.to_nat x1))%nat
        with (Z.to_nat (Z.of_nat c - x)) in Hl, Hm by lia.
      destruct (cell layer _ _) as [l0|] eqn:El0; [|done].
      simpl in Hl. inversion Hl; subst l.
      exists b, l0, m. by repeat split.
    + intros Hout. rewrite bool_decide_eq_false_2 in Hcells; [done|].
      intros [Hr Hc]. apply Hout. unfold in_overlap. lia.
Qed.

(** [_blend_shadow] on well-formed arrays: the shadow, resized to the base
    when its shape differs, multiplies every channel by
    [1 - intensity / 255]. *)
Lemma blend_shadow_cells `{L : ImageLib} `{!ImageLibLaws L} (base : grid fpixel)
    (shadow : grid Z) (bh bw sh sw x y : Z) :
  rect bh bw base -> rect sh sw shadow -> 0 < bh -> 0 < bw -> 0 < sh -> 0 < sw ->
  exists s',
    rect bh bw s' /\ (sh = bh -> sw = bw -> s' = shadow) /\
    _blend_shadow base shadow x y = Ok (zip_with (zip_with darken_rule) base s') /\
    rect bh bw (zip_with (zip_with darken_rule) base s').
Proof.
  intros Hbase Hs Hbh Hbw Hsh Hsw.
  rewrite blend_shadow_darken. unfold apply_layer.
  rewrite (rect_nrows _ _ _ Hbase), (rect_ncols _ _ _ Hbase) by done.
  rewrite (rect_nrows _ _ _ Hs), (rect_ncols _ _ _ Hs) by done.
  destruct (negb (sh =? bh) || negb (sw =? bw)) eqn:Hcond.
  - unfold cv_resize.
    rewrite (rect_nrows _ _ _ Hs), (rect_ncols _ _ _ Hs) by done.
    rewrite (proj2 (Z.leb_gt sh 0)), (proj2 (Z.leb_gt sw 0)),
      (proj2 (Z.leb_gt bw 0)), (proj2 (Z.leb_gt bh 0)) by lia.
    cbn [orb mbind result_bind].
    pose proof (resize1_shape INTER_LINEAR shadow bw bh Hbw Hbh) as Hr.
    exists (resize1 INTER_LINEAR shadow bw bh). split; [done|]. split.
    { intros -> ->. rewrite !Z.eqb_refl in Hcond. done. }
    unfold darken. by apply (zip2_ok darken_rule bh bw).
  - apply orb_false_iff in Hcond as [H1 H2].
    apply negb_false_iff, Z.eqb_eq in H1, H2. subst sh sw.
    cbn [mbind result_bind]. exists shadow. split; [done|]. split; [done|].
    unfold darken. by apply (zip2_ok darken_rule bh bw).
Qed.

(** The layers below the subject, under an invariant [I] of the canvas that
    the reflection step and every shadow step keep: [composite_final] is the
    subject blended onto a canvas that satisfies [I]. *)
Lemma composite_final_inv `{L : ImageLib} (I : grid fpixel -> Prop)
    (background car_image : grid pixel) (car_mask : grid Z)
    (shadows : gmap string (option (grid Z)))
    (reflection : option (grid pixel)) (reflection_mask : option (grid Z))
    (car_position : option (Z * Z)) :
  I (to_float background) ->
  (forall base r m x y,
     reflection = Some r -> reflection_mask = Some m -> I base ->
     exists base', _blend_layer base r m x y = Ok base' /\ I base') ->
  (forall base name s,
     name ∈ ["drop"; "ambient"; "contact"] ->
     shadows !! name = Some (Some s) -> is_empty s = false -> I base ->
     exists base', _blend_shadow base s 0 0 = Ok base' /\ I base') ->
  exists base,
    I base /\
    composite_final background car_image car_mask shadows reflection
      reflection_mask car_position None
    = (let '(x, y) :=
         match car_position with
         | None => default_car_position (ncols background) (nrows background)
                     (ncols car_image) (nrows car_image)
         | Some p => p
         end in
       result ← _blend_layer base car_image car_mask x y;
       Ok (clip_to_uint8 result)).
Proof.
  intros H0 Hrefl Hshadow. unfold composite_final. cbn [mbind result_bind].
  destruct (match car_position with
            | None => default_car_position (ncols background) (nrows background)
                        (ncols car_image) (nrows car_image)
            | Some p => p
            end) as [x y].
  assert (exists base1,
            match reflection, reflection_mask with
            | Some reflection, Some reflection_mask =>
                _blend_layer (to_float background) reflection reflection_mask x
                  (y + nrows car_image)
            | _, _ => Ok (to_float background)
            end = Ok base1 /\ I base1) as (base1 & -> & H1).
  { destruct reflection as [r|]; [|by eexists].
    destruct reflection_mask as [m|]; [|by eexists].
    by apply Hrefl. }
  cbn [mbind result_bind].
  edestruct (for_each_inv I (fun name => name ∈ ["drop"; "ambient"; "contact"])
               ["drop"; "ambient"; "contact"]) as (base2 & -> & H2).
  - exact H1.
  - apply Forall_forall. auto.
  - intros base name Hb Hname. cbv beta.
    destruct (shadows !! name) as [[s|]|] eqn:Es; [|by exists base..].
    destruct (is_empty s) eqn:Hemp; [by exists base|].
    by apply (Hshadow base name s).
  - cbn [mbind result_bind]. by exists base2.
Qed.
Lemma composite_final_run `{L : ImageLib} `{!ImageLibLaws L}
    (background car_image : grid pixel) (car_mask : grid Z)
    (shadows : gmap string (option (grid Z)))
    (reflection : option (grid pixel)) (reflection_mask : option (grid Z))
    (car_position : option (Z * Z)) (output_size : option (Z * Z))
    (bh bw : Z) :
  rect bh bw background -> 0 < bh -> 0 < bw ->
  (forall r m, reflection = Some r -> reflection_mask = Some m ->
     exists rh rw, rect rh rw r /\ rect rh rw m) ->
  (forall name s, name ∈ ["drop"; "ambient"; "contact"] ->
     shadows !! name = Some (Some s) -> exists sh sw, rect sh sw s) ->
  let size := default (bw, bh) output_size in
  0 < fst size -> 0 < snd size ->
  exists base,
    rect (snd size) (fst size) base /\
    composite_final background car_image car_mask shadows reflection
      reflection_mask car_position output_size
    = (let '(x, y) :=
         match car_position with
         | None => default_car_position (fst size) (snd size)
                     (ncols car_image) (nrows car_image)
         | Some p => p
         end in
       result ← _blend_layer base car_image car_mask x y;
       Ok (clip_to_uint8 result)).
Proof.
  intros Hbg Hbh Hbw Hrefl Hsh size Hsw Hsh'.
  assert (exists bg',
            rect (snd size) (fst size) bg' /\
            composite_final background car_image car_mask shadows reflection
              reflection_mask car_position output_size
            = composite_final bg' car_image car_mask shadows reflection
                reflection_mask car_position None) as (bg' & Hbg' & ->).
  { destruct output_size as [[ow oh]|]; simpl in *; [|by exists background].
    exists (resize3 INTER_LINEAR background ow oh).
    pose proof (resize3_shape INTER_LINEAR background ow oh Hsw Hsh') as Hr.
    split; [done|]. unfold composite_final at 1. unfold cv_resize.
    rewrite (rect_nrows _ _ _ Hbg), (rect_ncols _ _ _ Hbg) by done.
    rewrite (proj2 (Z.leb_gt bh 0)), (proj2 (Z.leb_gt bw 0)),
      (proj2 (Z.leb_gt ow 0)), (proj2 (Z.leb_gt oh 0)) by lia.
    cbn [orb mbind result_bind]. unfold composite_final.
    cbn [mbind result_bind].
    by rewrite (rect_nrows _ _ _ Hr), (rect_ncols _ _ _ Hr) by done. }
  destruct (composite_final_inv (fun base => rect (snd size) (fst size) base)
              bg' car_image car_mask shadows reflection reflection_mask car_position)
    as (base & Hbase & ->).
  - by apply rect_gmap2.
  - intros base r m x y Hr Hm Hb. destruct (Hrefl r m Hr Hm) as (rh & rw & Hrr & Hrm).
    destruct (blend_layer_cells base r m _ _ rh rw x y Hb Hrr Hrm)
      as (base' & Hrun & Hr' & _).
    by exists base'.
  - intros base name s Hname Hs Hemp Hb. destruct (Hsh name s Hname Hs) as (sh & sw & Hss).
    apply is_empty_false in Hemp as [He1 He2].
    rewrite (rect_nrows _ _ _ Hss) in He1.
    rewrite (rect_ncols _ _ _ Hss) in He2 by done.
    destruct (blend_shadow_cells base s _ _ sh sw 0 0 Hb Hss)
      as (s' & _ & _ & Hrun & Hr'); [lia..|].
    eexists. split; [exact Hrun | exact Hr'].
  - exists base. split; [done|].
    by rewrite (rect_nrows _ _ _ Hbg'), (rect_ncols _ _ _ Hbg') by done.
Qed.

(** X17: [composite_final] is total on well-formed layers and returns the
    canvas size.  For a non-empty background, a subject image and mask of
    one shape, an optional reflection with a mask of its shape, arbitrary
    rectangular shadow layers and an arbitrary subject position (also far
    outside the canvas), the result is a [uint8] image of the requested
    output size, or of the background's size when none is requested. *)
Theorem composite_final_canvas `{L : ImageLib} `{!ImageLibLaws L}
    (background car_image : grid pixel) (car_mask : grid Z)
    (shadows : gmap string (option (grid Z)))
    (reflection : option (grid pixel)) (reflection_mask : option (grid Z))
    (car_position : option (Z * Z)) (output_size : option (Z * Z))
    (bh bw lh lw : Z) :
  rect bh bw background -> 0 < bh -> 0 < bw ->
  rect lh lw car_image -> rect lh lw car_mask ->
  (forall r m, reflection = Some r -> reflection_mask = Some m ->
     exists rh rw, rect rh rw r /\ rect rh rw m) ->
  (forall name s, name ∈ ["drop"; "ambient"; "contact"] ->
     shadows !! name = Some (Some s) -> exists sh sw, rect sh sw s) ->
  let size := default (bw, bh) output_size in
  0 < fst size -> 0 < snd size ->
  exists out,
    composite_final background car_image car_mask shadows reflection
      reflection_mask car_position output_size = Ok out /\
    rect (snd size) (fst size) out /\ all_cells pixel_u8 out.
Proof.
  intros Hbg Hbh Hbw Hcar Hmask Hrefl Hsh size Hsw Hsh'.
  destruct (composite_final_run background car_image car_mask shadows reflection
              reflection_mask car_position output_size bh bw Hbg Hbh Hbw Hrefl Hsh
              Hsw Hsh') as (base & Hbase & ->).
  destruct (match car_position with
            | None => default_car_position _ _ _ _
            | Some p => p
            end) as [x y].
  destruct (blend_layer_cells base car_image car_mask _ _ lh lw x y Hbase Hcar Hmask)
    as (base' & -> & Hr' & _).
  cbn [mbind result_bind]. eexists. split; [reflexivity|].
  split; [by apply rect_gmap2|].
  apply all_cells_intro. intros r c a Ha. unfold clip_to_uint8 in Ha.
  rewrite cell_gmap2 in Ha. destruct (cell base' r c); [|done].
  simpl in Ha. inversion Ha. apply pixel_u8_pmap3. intros v. apply to_uint8_range.
Qed.

Lemma composite_final_canvas_witness :
  exists out,
    composite_final (L := PlainLib) [[(10, 20, 30); (40, 50, 60)]]
      [[(1, 2, 3)]] [[255]] {["drop" := Some [[128; 0]; [0; 0]]]}
      None None (Some (-7, 5)) (Some (3, 2)) = Ok out /\
    rect 2 3 out /\ all_cells pixel_u8 out.
Proof.
  apply (composite_final_canvas (L := PlainLib) [[(10, 20, 30); (40, 50, 60)]]
           [[(1, 2, 3)]] [[255]] {["drop" := Some [[128; 0]; [0; 0]]]}
           None None (Some (-7, 5)) (Some (3, 2)) 1 2 1 1).
  - split; [reflexivity | repeat constructor].
  - lia.
  - lia.
  - split; [reflexivity | repeat constructor].
  - split; [reflexivity | repeat constructor].
  - intros r m Hr. discriminate Hr.
  - intros name s Hname Hs. exists 2, 2.
    assert (s = [[128; 0]; [0; 0]]) as ->.
    { set_unfold in Hname.
      destruct Hname as [-> | [-> | [-> | []]]]; vm_compute in Hs; congruence. }
    split; [reflexivity | repeat constructor].
  - simpl. lia.
  - simpl. lia.
Defined.

Lemma opaque_blend (b : fpixel) (l : pixel) :
  pixel_u8 l -> pmap3 (fun v => to_uint8 (np_clip 0 255 v)) (alpha_blend b l 255) = l.
Proof.
  destruct b as [[b0 b1] b2], l as [[l0 l1] l2]. intros (H0 & H1 & H2).
  unfold alpha_blend. simpl.
  assert (forall (bv : Q) (lv : Z), is_u8 lv ->
            to_uint8 (np_clip 0 255
                        (bv * (1 - inject_Z 255 / 255) + inject_Z lv * (inject_Z 255 / 255)))
            = lv) as Hch.
  { intros bv lv Hlv. rewrite <- (clip_cast_u8 lv Hlv) at 2.
    apply to_uint8_proper, np_clip_proper; try reflexivity.
    change (inject_Z 255) with 255%Q. field. }
  by rewrite !Hch.
Qed.

(** X18: the subject is on top.  Whatever the reflection, the shadows and
    the background are, every canvas cell covered by a fully opaque subject
    cell (mask value 255) shows that subject cell with its first and third
    channel exchanged (BGR to RGB). *)
Theorem composite_final_subject_on_top `{L : ImageLib} `{!ImageLibLaws L}
    (background car_image : grid pixel) (car_mask : grid Z)
    (shadows : gmap string (option (grid Z)))
    (reflection : option (grid pixel)) (reflection_mask : option (grid Z))
    (car_position : option (Z * Z)) (output_size : option (Z * Z))
    (bh bw lh lw : Z) :
  rect bh bw background -> 0 < bh -> 0 < bw ->
  rect lh lw car_image -> rect lh lw car_mask -> all_cells pixel_u8 car_image ->
  (forall r m, reflection = Some r -> reflection_mask = Some m ->
     exists rh rw, rect rh rw r /\ rect rh rw m) ->
  (forall name s, name ∈ ["drop"; "ambient"; "contact"] ->
     shadows !! name = Some (Some s) -> exists sh sw, rect sh sw s) ->
  let size := default (bw, bh) output_size in
  0 < fst size -> 0 < snd size ->
  let position :=
    default (default_car_position (fst size) (snd size)
               (ncols car_image) (nrows car_image)) car_position in
  exists out,
    composite_final background car_image car_mask shadows reflection
      reflection_mask car_position output_size = Ok out /\
    forall (r c : nat) (l : pixel),
      Z.of_nat r < snd size -> Z.of_nat c < fst size ->
      0 <= Z.of_nat r - snd position -> 0 <= Z.of_nat c - fst position ->
      cell car_image (Z.to_nat (Z.of_nat r - snd position))
                     (Z.to_nat (Z.of_nat c - fst position)) = Some l ->
      cell car_mask (Z.to_nat (Z.of_nat r - snd position))
                    (Z.to_nat (Z.of_nat c - fst position)) = Some 255 ->
      cell out r c = Some (cvtColor_BGR2RGB l).
Proof.
  intros Hbg Hbh Hbw Hcar Hmask Hu8 Hrefl Hsh size Hsw Hsh' position.
  destruct (composite_final_run background car_image car_mask shadows reflection
              reflection_mask car_position output_size bh bw Hbg Hbh Hbw Hrefl Hsh
              Hsw Hsh') as (base & Hbase & ->).
  fold size. fold size in Hbase.
  assert (match car_position with
          | None => default_car_position (fst size) (snd size)
                      (ncols car_image) (nrows car_image)
          | Some p => p
          end = position) as -> by (unfold position; by destruct car_position).
  destruct position as [x y]. simpl.
  destruct (blend_layer_cells base car_image car_mask _ _ lh lw x y Hbase Hcar Hmask)
    as (base' & -> & Hr' & Hcells).
  cbn [mbind result_bind]. eexists. split; [reflexivity|].
  intros r c l Hr Hc Hy Hx Hl Hm.
  destruct (rect_cell_bounds _ _ _ _ _ _ Hcar Hl) as [Hlr Hlc].
  destruct (Hcells r c) as [Hin _].
  destruct Hin as (_ & _ & b & l' & m' & Hb & Hl' & Hm' & Hnew).
  { unfold in_overlap. lia. }
  rewrite Hl in Hl'. rewrite Hm in Hm'. inversion Hl'; inversion Hm'; subst l' m'.
  unfold clip_to_uint8. rewrite cell_gmap2, Hnew. simpl. f_equal.
  apply opaque_blend.
  pose proof (all_cells_cell _ _ _ _ _ Hu8 Hl) as Hlu.
  destruct l as [[l0 l1] l2]. destruct Hlu as (? & ? & ?). simpl. auto.
Qed.

Lemma composite_final_subject_on_top_witness :
  exists out,
    composite_final (L := PlainLib) [[(10, 20, 30); (40, 50, 60)]]
      [[(1, 2, 3)]] [[255]] {["drop" := Some [[128; 0]]]}
      None None (Some (1, 0)) None = Ok out /\
    cell out 0 1 = Some (3, 2, 1).
Proof.
  destruct (composite_final_subject_on_top (L := PlainLib)
              [[(10, 20, 30); (40, 50, 60)]]
              [[(1, 2, 3)]] [[255]] {["drop" := Some [[128; 0]]]}
              None None (Some (1, 0)) None 1 2 1 1) as (out & Hout & Hcells).
  - split; [reflexivity | repeat constructor].
  - lia.
  - lia.
  - split; [reflexivity | repeat constructor].
  - split; [reflexivity | repeat constructor].
  - unfold all_cells. repeat constructor; unfold is_u8; lia.
  - intros r m Hr. discriminate Hr.
  - intros name s Hname Hs. exists 1, 2.
    assert (s = [[128; 0]]) as ->.
    { set_unfold in Hname.
      destruct Hname as [-> | [-> | [-> | []]]]; vm_compute in Hs; congruence. }
    split; [reflexivity | repeat constructor].
  - simpl. lia.
  - simpl. lia.
  - exists out. split; [exact Hout|].
    apply (Hcells 0%nat 1%nat (1, 2, 3)); simpl; (lia || reflexivity).
Defined.
Lemma blend_shadow_same_shape `{L : ImageLib} (base : grid fpixel) (shadow : grid Z)
    (bh bw x y : Z) :
  rect bh bw base -> rect bh bw shadow -> 0 < bh ->
  _blend_shadow base shadow x y = Ok (zip_with (zip_with darken_rule) base shadow) /\
  rect bh bw (zip_with (zip_with darken_rule) base shadow).
Proof.
  intros Hbase Hs Hbh. rewrite blend_shadow_darken. unfold apply_layer.
  rewrite (rect_nrows _ _ _ Hbase), (rect_ncols _ _ _ Hbase) by done.
  rewrite (rect_nrows _ _ _ Hs), (rect_ncols _ _ _ Hs) by done.
  rewrite !Z.eqb_refl. cbn [negb orb mbind result_bind].
  unfold darken. by apply (zip2_ok darken_rule bh bw).
Qed.

Lemma pixel_eq_chan (p q : pixel) :
  (forall ch, get_chan ch p = get_chan ch q) -> p = q.
Proof.
  destruct p as [[p0 p1] p2], q as [[q0 q1] q2]. intros H.
  pose proof (H 0) as H0. pose proof (H 1) as H1. pose proof (H 2) as H2.
  simpl in *. congruence.
Qed.

Lemma rect_shape_eq {A B} (h w : Z) (g1 : grid A) (g2 : grid B) :
  rect h w g1 -> rect h w g2 -> length <$> g1 = length <$> g2.
Proof.
  intros H1 H2. pose proof (rect_same_shape h w g1 g2 H1 H2) as Hs.
  unfold same_shape in Hs. by apply bool_decide_eq_true_1 in Hs.
Qed.

(** X19: fully transparent layers leave the background as it is.  With an
    all-zero subject mask, an all-zero reflection mask (when a reflection is
    given) and all-zero shadow layers of the background's shape,
    [composite_final] returns the [uint8] background unchanged, wherever
    the subject is placed. *)
Theorem composite_final_transparent `{L : ImageLib}
    (background car_image : grid pixel) (car_mask : grid Z)
    (shadows : gmap string (option (grid Z)))
    (reflection : option (grid pixel)) (reflection_mask : option (grid Z))
    (car_position : option (Z * Z)) (bh bw lh lw : Z) :
  rect bh bw background -> all_cells pixel_u8 background ->
  rect lh lw car_image -> rect lh lw car_mask ->
  all_cells (fun v => v = 0) car_mask ->
  (forall r m, reflection = Some r -> reflection_mask = Some m ->
     exists rh rw, rect rh rw r /\ rect rh rw m /\ all_cells (fun v => v = 0) m) ->
  (forall name s, name ∈ ["drop"; "ambient"; "contact"] ->
     shadows !! name = Some (Some s) ->
     rect bh bw s /\ all_cells (fun v => v = 0) s) ->
  composite_final background car_image car_mask shadows reflection
    reflection_mask car_position None = Ok background.
Proof.
  intros Hbg Hu8 Hcar Hmask Hzero Hrefl Hsh.
  set (I := fun base : grid fpixel =>
         rect bh bw base /\
         forall r c p, cell background r c = Some p ->
           exists b, cell base r c = Some b /\
             forall ch, (get_chan ch b == inject_Z (get_chan ch p))%Q).
  assert (forall base layer mask lh lw x y,
            rect lh lw layer -> rect lh lw mask ->
            all_cells (fun v => v = 0) mask -> I base ->
            exists base', _blend_layer base layer mask x y = Ok base' /\ I base')
    as Hblend.
  { intros base layer mask lh' lw' x y Hl Hm Hz [Hb Hc].
    destruct (blend_layer_cells base layer mask bh bw lh' lw' x y Hb Hl Hm)
      as (base' & Hrun & Hr' & Hcells).
    exists base'. split; [done|]. split; [done|].
    intros r c p Hp. destruct (Hc r c p Hp) as (b & Hbc & Hbnd).
    destruct (Hcells r c) as [Hin Hout].
    destruct (decide (in_overlap bh bw lh' lw' x y r c)) as [Hov | Hov].
    - destruct (Hin Hov) as (_ & _ & b' & l & m & Hb' & Hl' & Hm' & Hnew).
      rewrite Hbc in Hb'. inversion Hb'; subst b'.
      rewrite (all_cells_cell _ _ _ _ _ Hz Hm') in Hnew.
      eexists. split; [exact Hnew|]. intros ch. unfold alpha_blend, id. cbv zeta.
      rewrite get_chan_pzip3. rewrite <- (Hbnd ch).
      change (inject_Z 0) with 0%Q. field.
    - rewrite (Hout Hov). by exists b. }
  destruct (composite_final_inv I background car_image car_mask shadows reflection
              reflection_mask car_position) as (base & [Hbase Hcells] & ->).
  - split; [by apply rect_gmap2|]. intros r c p Hp.
    exists (pmap3 inject_Z p). unfold to_float. rewrite cell_gmap2, Hp.
    split; [done|]. intros ch. by rewrite get_chan_pmap3.
  - intros base r m x y Hr Hm Hb.
    destruct (Hrefl r m Hr Hm) as (rh & rw & Hrr & Hrm & Hz).
    by apply (Hblend base r m rh rw).
  - intros base name s Hname Hs Hemp [Hb Hc].
    destruct (Hsh name s Hname Hs) as [Hss Hz].
    apply is_empty_false in Hemp as [He1 _]. rewrite (rect_nrows _ _ _ Hss) in He1.
    destruct (blend_shadow_same_shape base s bh bw 0 0 Hb Hss He1) as [-> Hr'].
    eexists. split; [reflexivity|]. split; [done|].
    intros r c p Hp. destruct (Hc r c p Hp) as (b & Hbc & Hbnd).
    destruct (rect_cell_bounds _ _ _ _ _ _ Hbg Hp) as [Hrh Hcw].
    destruct (rect_cell s bh bw r c Hss Hrh Hcw) as [v Hv].
    eexists. split.
    + apply cell_zip_with. exists b, v. by repeat split.
    + intros ch. rewrite (all_cells_cell _ _ _ _ _ Hz Hv). unfold darken_rule.
      rewrite get_chan_pmap3, <- (Hbnd ch). change (inject_Z 0) with 0%Q. field.
  - destruct (match car_position with
              | None => default_car_position _ _ _ _
              | Some p => p
              end) as [x y].
    destruct (Hblend base car_image car_mask lh lw x y Hcar Hmask Hzero
                (conj Hbase Hcells)) as (base' & -> & Hr' & Hc').
    cbn [mbind result_bind]. f_equal.
    apply grid_eq_cells.
    { apply (rect_shape_eq bh bw); [by apply rect_gmap2 | done]. }
    intros r c. unfold clip_to_uint8. rewrite cell_gmap2.
    destruct (cell background r c) as [p|] eqn:Hp.
    + destruct (Hc' r c p Hp) as (b & -> & Hbnd). simpl. f_equal.
      apply pixel_eq_chan. intros ch. rewrite get_chan_pmap3.
      transitivity (to_uint8 (np_clip 0 255 (inject_Z (get_chan ch p)))).
      * apply to_uint8_proper, np_clip_proper; try reflexivity. apply Hbnd.
      * apply clip_cast_u8, get_chan_u8. by apply (all_cells_cell _ _ _ _ _ Hu8 Hp).
    + destruct (cell base' r c) as [b|] eqn:Hb; [|done]. exfalso.
      destruct (rect_cell_bounds _ _ _ _ _ _ Hr' Hb) as [Hrh Hcw].
      destruct (rect_cell background bh bw r c Hbg Hrh Hcw) as [p Hp']. congruence.
Qed.

Lemma composite_final_transparent_witness :
  composite_final (L := PlainLib) [[(10, 20, 30); (40, 50, 60)]]
    [[(1, 2, 3)]] [[0]] {["ambient" := Some [[0; 0]]; "drop" := None]}
    (Some [[(9, 9, 9)]]) (Some [[0]]) None None
  = Ok [[(10, 20, 30); (40, 50, 60)]].
Proof.
  apply (composite_final_transparent (L := PlainLib) [[(10, 20, 30); (40, 50, 60)]]
           [[(1, 2, 3)]] [[0]] {["ambient" := Some [[0; 0]]; "drop" := None]}
           (Some [[(9, 9, 9)]]) (Some [[0]]) None 1 2 1 1).
  - split; [reflexivity | repeat constructor].
  - unfold all_cells. repeat constructor; unfold is_u8; lia.
  - split; [reflexivity | repeat constructor].
  - split; [reflexivity | repeat constructor].
  - unfold all_cells. repeat constructor.
  - intros r m Hr Hm. inversion Hr; inversion Hm; subst r m. exists 1, 1.
    split; [split; [reflexivity | repeat constructor]|].
    split; [split; [reflexivity | repeat constructor]|].
    unfold all_cells. repeat constructor.
  - intros name s Hname Hs.
    assert (s = [[0; 0]]) as ->.
    { set_unfold in Hname.
      destruct Hname as [-> | [-> | [-> | []]]]; vm_compute in Hs; congruence. }
    split; [split; [reflexivity | repeat constructor]|].
    unfold all_cells. repeat constructor.
Defined.
(** ** Scaling and the complete pipeline *)

Lemma py_int_inject_Z (z : Z) : py_int (inject_Z z) = z.
Proof.
  unfold py_int. destruct (Qle_bool 0 (inject_Z z)); [apply Qfloor_Z | apply Qceiling_Z].
Qed.

Lemma py_int_le_Z (x : Q) (z : Z) : (x <= inject_Z z)%Q -> py_int x <= z.
Proof. intros H. rewrite <- (py_int_inject_Z z). by apply py_int_mono. Qed.

Lemma py_min_le (a b : Q) : (py_min a b <= a)%Q /\ (py_min a b <= b)%Q.
Proof.
  unfold py_min. destruct (Qltb b a) eqn:E.
  - apply Qltb_lt in E. split; lra.
  - apply Qltb_ge in E. split; lra.
Qed.

(** The two outcomes of [scale_car_to_fit] on a non-empty subject. *)
Lemma scale_car_to_fit_cases `{L : ImageLib} `{!ImageLibLaws L}
    (car_image : grid pixel) (car_mask : grid Z) (lh lw : Z)
    (target_width target_height : Z) (max_width_ratio max_height_ratio : Q) :
  rect lh lw car_image -> rect lh lw car_mask -> 0 < lh -> 0 < lw ->
  scale_car_to_fit car_image car_mask target_width target_height
    max_width_ratio max_height_ratio = Raise CvError \/
  exists img' mask' h' w',
    scale_car_to_fit car_image car_mask target_width target_height
      max_width_ratio max_height_ratio = Ok (img', mask') /\
    rect h' w' img' /\ rect h' w' mask' /\
    0 < h' <= lh /\ 0 < w' <= lw /\
    w' <= py_int (inject_Z target_width * max_width_ratio) /\
    h' <= py_int (inject_Z target_height * max_height_ratio).
Proof.
  intros Himg Hmask Hlh Hlw.
  pose proof (rect_nrows _ _ _ Himg) as Hn.
  pose proof (rect_ncols _ _ _ Himg Hlh) as Hc.
  rewrite scale_car_to_fit_unfold by lia. rewrite Hn, Hc.
  set (max_w := py_int (inject_Z target_width * max_width_ratio)).
  set (max_h := py_int (inject_Z target_height * max_height_ratio)).
  assert (0 < inject_Z lw)%Q as Hlwq by (by apply inject_Z_pos).
  assert (0 < inject_Z lh)%Q as Hlhq by (by apply inject_Z_pos).
  assert (inject_Z lw * (inject_Z max_w / inject_Z lw) == inject_Z max_w)%Q as HA
    by (field; lra).
  assert (inject_Z lh * (inject_Z max_h / inject_Z lh) == inject_Z max_h)%Q as HB
    by (field; lra).
  destruct (py_min_le (inject_Z max_w / inject_Z lw) (inject_Z max_h / inject_Z lh))
    as [Hsa Hsb].
  set (A := (inject_Z max_w / inject_Z lw)%Q) in *.
  set (B := (inject_Z max_h / inject_Z lh)%Q) in *.
  set (scale := py_min A B) in *.
  destruct (Qltb scale 1) eqn:Hscale.
  - apply Qltb_lt in Hscale. cbv zeta.
    set (new_w := py_int (inject_Z lw * scale)).
    set (new_h := py_int (inject_Z lh * scale)).
    unfold cv_resize. rewrite Hn, Hc.
    rewrite (rect_nrows _ _ _ Hmask), (rect_ncols _ _ _ Hmask) by done.
    rewrite (proj2 (Z.leb_gt lh 0)), (proj2 (Z.leb_gt lw 0)) by lia.
    cbn [orb].
    destruct (new_w <=? 0) eqn:Hnw; [by left|].
    destruct (new_h <=? 0) eqn:Hnh; [by left|].
    apply Z.leb_gt in Hnw, Hnh. cbn [mbind result_bind]. right.
    exists (resize3 INTER_AREA car_image new_w new_h),
      (resize1 INTER_AREA car_mask new_w new_h), new_h, new_w.
    split; [reflexivity|].
    split; [by apply resize3_shape|]. split; [by apply resize1_shape|].
    assert (new_w <= lw) by (apply py_int_le_Z; nra).
    assert (new_h <= lh) by (apply py_int_le_Z; nra).
    assert (new_w <= max_w) by (apply py_int_le_Z; nra).
    assert (new_h <= max_h) by (apply py_int_le_Z; nra).
    lia.
  - apply Qltb_ge in Hscale. right. exists car_image, car_mask, lh, lw.
    split; [reflexivity|]. split; [done|]. split; [done|].
    assert (lw <= max_w) by (rewrite Zle_Qle; nra).
    assert (lh <= max_h) by (rewrite Zle_Qle; nra).
    lia.
Qed.

(** X20: a scaled subject fits its box.  For a non-empty subject image with
    a mask of the same shape, [scale_car_to_fit] either raises the resize
    error (the scaled size has no pixel left) or returns an image and a mask
    of one common shape that is non-empty, not larger than the input, at
    most [int(target_width * max_width_ratio)] wide and at most
    [int(target_height * max_height_ratio)] high. *)
Theorem scale_car_to_fit_fits `{L : ImageLib} `{!ImageLibLaws L}
    (car_image : grid pixel) (car_mask : grid Z) (lh lw : Z)
    (target_width target_height : Z) (max_width_ratio max_height_ratio : Q) :
  rect lh lw car_image -> rect lh lw car_mask -> 0 < lh -> 0 < lw ->
  match scale_car_to_fit car_image car_mask target_width target_height
          max_width_ratio max_height_ratio with
  | Ok (img', mask') =>
      nrows mask' = nrows img' /\ ncols mask' = ncols img' /\
      0 < nrows img' <= lh /\ 0 < ncols img' <= lw /\
      ncols img' <= py_int (inject_Z target_width * max_width_ratio) /\
      nrows img' <= py_int (inject_Z target_height * max_height_ratio)
  | Raise e => e = CvError
  end.
Proof.
  intros Himg Hmask Hlh Hlw.
  destruct (scale_car_to_fit_cases car_image car_mask lh lw target_width target_height
              max_width_ratio max_height_ratio Himg Hmask Hlh Hlw)
    as [-> | (img' & mask' & h' & w' & -> & Hi & Hm & Hh & Hw & Hmw & Hmh)]; [done|].
  rewrite (rect_nrows _ _ _ Hi), (rect_nrows _ _ _ Hm).
  rewrite (rect_ncols _ _ _ Hi), (rect_ncols _ _ _ Hm) by lia.
  lia.
Qed.

Lemma scale_car_to_fit_fits_witness :
  match scale_car_to_fit (L := PlainLib)
          [[(1, 1, 1); (2, 2, 2); (3, 3, 3); (4, 4, 4)];
           [(5, 5, 5); (6, 6, 6); (7, 7, 7); (8, 8, 8)]]
          [[255; 255; 0; 0]; [255; 255; 0; 0]] 4 4 (75 # 100) (50 # 100) with
  | Ok (img', mask') =>
      nrows mask' = nrows img' /\ ncols mask' = ncols img' /\
      0 < nrows img' <= 2 /\ 0 < ncols img' <= 4 /\
      ncols img' <= py_int (inject_Z 4 * (75 # 100)) /\
      nrows img' <= py_int (inject_Z 4 * (50 # 100))
  | Raise e => e = CvError
  end.
Proof.
  apply (scale_car_to_fit_fits (L := PlainLib)
           [[(1, 1, 1); (2, 2, 2); (3, 3, 3); (4, 4, 4)];
            [(5, 5, 5); (6, 6, 6); (7, 7, 7); (8, 8, 8)]]
           [[255; 255; 0; 0]; [255; 255; 0; 0]] 2 4 4 4 (75 # 100) (50 # 100)).
  - split; [reflexivity | repeat constructor].
  - split; [reflexivity | repeat constructor].
  - lia.
  - lia.
Defined.

(** X21: the complete pipeline.  On a non-empty background and a non-empty
    subject with a mask of its shape (reflection and shadows rectangular as
    for [composite_final]), [create_final_composite] returns a [uint8]
    image of the background's shape; the one exception is the resize error
    of the automatic scaling, which cannot occur with [auto_scale] off. *)
Theorem create_final_composite_canvas `{L : ImageLib} `{!ImageLibLaws L}
    (background car_image : grid pixel) (car_mask : grid Z)
    (shadows : gmap string (option (grid Z)))
    (reflection : option (grid pixel)) (reflection_mask : option (grid Z))
    (auto_position auto_scale : bool) (bh bw lh lw : Z) :
  rect bh bw background -> 0 < bh -> 0 < bw ->
  rect lh lw car_image -> rect lh lw car_mask -> 0 < lh -> 0 < lw ->
  (forall r m, reflection = Some r -> reflection_mask = Some m ->
     exists rh rw, rect rh rw r /\ rect rh rw m) ->
  (forall name s, name ∈ ["drop"; "ambient"; "contact"] ->
     shadows !! name = Some (Some s) -> exists sh sw, rect sh sw s) ->
  (auto_scale = true /\
   create_final_composite background car_image car_mask shadows reflection
     reflection_mask auto_position auto_scale = Raise CvError) \/
  exists out,
    create_final_composite background car_image car_mask shadows reflection
      reflection_mask auto_position auto_scale = Ok out /\
    rect bh bw out /\ all_cells pixel_u8 out.
Proof.
  intros Hbg Hbh Hbw Hcar Hmask Hlh Hlw Hrefl Hsh.
  unfold create_final_composite.
  rewrite (rect_nrows _ _ _ Hbg), (rect_ncols _ _ _ Hbg) by done.
  assert ((auto_scale = true /\
           (if auto_scale
            then scale_car_to_fit car_image car_mask bw bh (75 # 100) (50 # 100)
            else Ok (car_image, car_mask)) = Raise CvError) \/
          exists img' mask' h' w',
            (if auto_scale
             then scale_car_to_fit car_image car_mask bw bh (75 # 100) (50 # 100)
             else Ok (car_image, car_mask)) = Ok (img', mask') /\
            rect h' w' img' /\ rect h' w' mask')
    as [[Hauto ->] | (img' & mask' & h' & w' & -> & Hi & Hm)].
  { destruct auto_scale.
    - destruct (scale_car_to_fit_cases car_image car_mask lh lw bw bh (75 # 100)
                  (50 # 100) Hcar Hmask Hlh Hlw)
        as [-> | (img' & mask' & h' & w' & -> & Hi & Hm & _)]; [by left|].
      right. by exists img', mask', h', w'.
    - right. by exists car_image, car_mask, lh, lw. }
  { by left. }
  right. cbn [mbind result_bind].
  set (car_position := if auto_position then _ else _).
  destruct (composite_final_run background img' mask' shadows reflection
              reflection_mask car_position None bh bw Hbg Hbh Hbw Hrefl Hsh)
    as (base & Hbase & ->); [simpl; lia | simpl; lia |].
  simpl in Hbase.
  destruct (match car_position with
            | None => default_car_position _ _ _ _
            | Some p => p
            end) as [x y].
  destruct (blend_layer_cells base img' mask' _ _ h' w' x y Hbase Hi Hm)
    as (base' & -> & Hr' & _).
  cbn [mbind result_bind]. eexists. split; [reflexivity|].
  split; [by apply rect_gmap2|].
  apply all_cells_intro. intros r c a Ha. unfold clip_to_uint8 in Ha.
  rewrite cell_gmap2 in Ha. destruct (cell base' r c); [|done].
  simpl in Ha. inversion Ha. apply pixel_u8_pmap3. intros v. apply to_uint8_range.
Qed.

Lemma create_final_composite_canvas_witness :
  exists out,
    create_final_composite (L := PlainLib)
      [[(10, 20, 30); (40, 50, 60)]; [(70, 80, 90); (15, 25, 35)]]
      [[(1, 2, 3)]] [[255]] ∅ None None true false = Ok out /\
    rect 2 2 out /\ all_cells pixel_u8 out.
Proof.
  destruct (create_final_composite_canvas (L := PlainLib)
              [[(10, 20, 30); (40, 50, 60)]; [(70, 80, 90); (15, 25, 35)]]
              [[(1, 2, 3)]] [[255]] ∅ None None true false 2 2 1 1)
    as [[Hauto _] | Hok].
  - split; [reflexivity | repeat constructor].
  - lia.
  - lia.
  - split; [reflexivity | repeat constructor].
  - split; [reflexivity | repeat constructor].
  - lia.
  - lia.
  - intros r m Hr. discriminate Hr.
  - intros name s Hname Hs. rewrite lookup_empty in Hs. discriminate Hs.
  - discriminate Hauto.
  - exact Hok.
Defined.
(** ** Desaturation *)

Lemma Qnearest_inject_Z (q : Q) (z : Z) : (q == inject_Z z)%Q -> Qnearest q = z.
Proof.
  intros Hq. unfold Qnearest.
  pose proof (Qfloor_le (q + (1 # 2))) as Hlo.
  pose proof (Qlt_floor (q + (1 # 2))) as Hhi.
  set (f := Qfloor (q + (1 # 2))) in *.
  rewrite inject_Z_plus in Hhi. change (inject_Z 1) with 1%Q in Hhi.
  assert (inject_Z f < inject_Z (z + 1))%Q as H1.
  { rewrite inject_Z_plus. change (inject_Z 1) with 1%Q. lra. }
  assert (inject_Z z < inject_Z (f + 1))%Q as H2.
  { rewrite inject_Z_plus. change (inject_Z 1) with 1%Q. lra. }
  rewrite <- Zlt_Qlt in H1, H2. lia.
Qed.

Lemma saturate_u8_id (v : Z) : is_u8 v -> saturate_u8 v = v.
Proof. intros Hv. unfold saturate_u8, is_u8 in *. lia. Qed.

(** A pixel of saturation 0 converts back to the grey of its value,
    whatever its hue. *)
Lemma hsv2bgr_grey (h v : Z) : is_u8 v -> cvtColor_HSV2BGR (h, 0, v) = (v, v, v).
Proof.
  intros Hv. unfold cvtColor_HSV2BGR.
  set (hh := (inject_Z h * 2 / 60)%Q).
  set (vf := (inject_Z v / 255)%Q).
  set (f := (hh - inject_Z (Qfloor hh))%Q).
  assert (forall c : Q, (c == vf)%Q -> saturate_u8 (Qnearest (c * 255)) = v) as Hc.
  { intros c Hcv. rewrite (Qnearest_inject_Z _ v); [by apply saturate_u8_id|].
    rewrite Hcv. unfold vf. field. }
  assert (vf * (1 - inject_Z 0 / 255) == vf)%Q as Hp
    by (change (inject_Z 0) with 0%Q; field).
  assert (vf * (1 - inject_Z 0 / 255 * f) == vf)%Q as Hq
    by (change (inject_Z 0) with 0%Q; field).
  assert (vf * (1 - inject_Z 0 / 255 * (1 - f)) == vf)%Q as Ht
    by (change (inject_Z 0) with 0%Q; field).
  assert (vf == vf)%Q as Hvv by reflexivity.
  destruct (Qfloor hh mod 6) as [|p|p]; cbv iota;
    repeat match goal with
           | |- context [match ?x with _ => _ end] => is_var x; destruct x; cbv iota
           end;
    cbv beta iota zeta delta [pmap3];
    rewrite ?(Hc _ Hp), ?(Hc _ Hq), ?(Hc _ Ht), ?(Hc _ Hvv); reflexivity.
Qed.

Lemma bgr2hsv_value (b g r : Z) :
  exists h s, cvtColor_BGR2HSV (b, g, r) = (h, s, Z.max r (Z.max g b)).
Proof. unfold cvtColor_BGR2HSV. by eexists _, _. Qed.

Lemma bgr2hsv_grey (v : Z) : cvtColor_BGR2HSV (v, v, v) = (0, 0, v).
Proof.
  unfold cvtColor_BGR2HSV.
  rewrite !Z.max_id, !Z.min_id, Z.sub_diag. change (0 =? 0) with true. cbv iota.
  change (Qltb 0 0) with false. cbv iota.
  change (Qnearest (0 / 2)) with 0. change (0 =? 180) with false. cbv iota.
  destruct (v =? 0); [done|].
  rewrite (Qnearest_inject_Z _ 0); [done|].
  change (inject_Z 0) with 0%Q. unfold Qdiv. ring.
Qed.

(** X22: what desaturation does to greys.  [_desaturate] keeps the shape of
    the image; a grey pixel [(v, v, v)] is left unchanged for every amount;
    and with amount 1 every pixel becomes the grey of its largest channel. *)
Theorem desaturate_grey (image : grid pixel) (amount : Q) (h w : Z) :
  rect h w image -> all_cells pixel_u8 image ->
  rect h w (_desaturate image amount) /\
  (forall (r c : nat) (v : Z),
     cell image r c = Some (v, v, v) ->
     cell (_desaturate image amount) r c = Some (v, v, v)) /\
  ((amount == 1)%Q ->
   forall (r c : nat) (b g rd : Z),
     cell image r c = Some (b, g, rd) ->
     cell (_desaturate image amount) r c
     = Some (Z.max rd (Z.max g b), Z.max rd (Z.max g b), Z.max rd (Z.max g b))).
Proof.
  intros Hrect Hu8. split; [by apply rect_gmap2|].
  assert (forall q : Q, (q == 0)%Q -> to_uint8 (np_clip 0 255 q) = 0) as Hzero.
  { intros q Hq. transitivity (to_uint8 (np_clip 0 255 (inject_Z 0))).
    - apply to_uint8_proper, np_clip_proper; try reflexivity. by rewrite Hq.
    - apply clip_cast_u8. unfold is_u8. lia. }
  split.
  - intros r c v Hc. pose proof (all_cells_cell _ _ _ _ _ Hu8 Hc) as (Hv & _ & _).
    unfold _desaturate. rewrite cell_gmap2, Hc.
    cbn [fmap option_fmap option_map]. f_equal.
    rewrite bgr2hsv_grey. cbn [pmap3].
    rewrite (clip_cast_u8 0) by (unfold is_u8; lia).
    rewrite (Hzero (inject_Z 0 * (1 - amount))%Q)
      by (change (inject_Z 0) with 0%Q; ring).
    rewrite (clip_cast_u8 v) by done.
    by apply hsv2bgr_grey.
  - intros Ham r c b g rd Hc.
    pose proof (all_cells_cell _ _ _ _ _ Hu8 Hc) as (Hb & Hg & Hr).
    unfold _desaturate. rewrite cell_gmap2, Hc.
    cbn [fmap option_fmap option_map]. f_equal.
    destruct (bgr2hsv_value b g rd) as (h0 & s0 & ->). cbn [pmap3].
    assert (is_u8 (Z.max rd (Z.max g b))) as Hmax by (unfold is_u8 in *; lia).
    rewrite (Hzero (inject_Z s0 * (1 - amount))%Q) by (rewrite Ham; ring).
    rewrite (clip_cast_u8 _ Hmax).
    by apply hsv2bgr_grey.
Qed.

Lemma desaturate_grey_witness :
  rect 1 2 (_desaturate [[(7, 7, 7); (10, 200, 30)]] 1) /\
  cell (_desaturate [[(7, 7, 7); (10, 200, 30)]] 1) 0 0 = Some (7, 7, 7) /\
  cell (_desaturate [[(7, 7, 7); (10, 200, 30)]] 1) 0 1 = Some (200, 200, 200).
Proof.
  destruct (desaturate_grey [[(7, 7, 7); (10, 200, 30)]] 1 1 2) as (Hr & Hgrey & Hfull).
  - split; [reflexivity | repeat constructor].
  - unfold all_cells. repeat constructor; unfold is_u8; lia.
  - split; [exact Hr|]. split.
    + apply Hgrey. reflexivity.
    + apply (Hfull ltac:(reflexivity) 0%nat 1%nat 10 200 30). reflexivity.
Defined.
